(** * gnet event loop (eventloop.go): a shallow embedding and its properties

    The loop owns a table [fd -> *conn], a scratch packet buffer and a
    poller.  Everything the loop calls outside eventloop.go (system calls,
    the poller, the user's event handler, the conn helpers) is an external
    collaborator: its answers are drawn from an environment [Env] that may
    depend on the whole history of calls made so far, and every such call is
    recorded in a trace.  The state owned by the loop itself (the table, the
    connections it points to, the packet buffer) is threaded explicitly. *)

From Stdlib Require Import ZArith Strings.Byte String.
From stdpp Require Import base numbers option list gmap.

Local Open Scope Z_scope.

(** ** Data *)

(** [Action], the directive returned by handler callbacks.  The constants are
    declared outside eventloop.go; the file names [None], [Close], [Shutdown]
    and [DataRead], and its [switch] statements have a default branch, so the
    type is kept open with [Unknown]. *)
Module Action.
Inductive t : Set :=
| None
| DataRead
| Close
| Shutdown
| Unknown (code : Z).

Definition eqb (a b : t) : bool :=
  match a, b with
  | None, None | DataRead, DataRead | Close, Close | Shutdown, Shutdown => true
  | Unknown x, Unknown y => Z.eqb x y
  | _, _ => false
  end.
End Action.

#[global] Instance Action_eq_dec : EqDecision Action.t.
Proof. solve_decision. Defined.

(** Go [error] values met by the loop.  A nil error is [None : option error].
    [Errno] ranges over the errno values other than EAGAIN. *)
Inductive error : Set :=
| EAGAIN
| ErrClosing
| Errno (code : Z)
| ErrOther (msg : string).

Definition is_EAGAIN (err : option error) : bool :=
  match err with Some EAGAIN => true | _ => false end.

Definition is_nil {A} (err : option A) : bool :=
  match err with Some _ => false | Datatypes.None => true end.

#[global] Instance byte_inhabited : Inhabited byte := populate x00.

(** [unix.Sockaddr]: the two internet families carry fixed-size address
    arrays ([4]byte and [16]byte), kept as lists. *)
Module SockaddrInet4.
Record t : Set := mk { Port : Z; Addr : list byte }.
End SockaddrInet4.

Module SockaddrInet6.
Record t : Set := mk { Port : Z; ZoneId : Z; Addr : list byte }.
(** the zero value of [var sa6 unix.SockaddrInet6] *)
Definition zero : t := mk 0 0 (replicate 16 x00).
Definition set_Addr (f : list byte → list byte) (sa : t) : t :=
  mk (Port sa) (ZoneId sa) (f (Addr sa)).
End SockaddrInet6.

Inductive Sockaddr : Set :=
| Inet4 (sa : SockaddrInet4.t)
| Inet6 (sa : SockaddrInet6.t)
| Unix (name : string)
| NilSockaddr.

(** [net.Addr] as produced by the netpoll conversions. *)
Inductive NetAddr : Set :=
| NilAddr
| TCPAddr (ip : list byte) (port : Z) (zone : string)
| UDPAddr (ip : list byte) (port : Z) (zone : string)
| UnixAddr (name : string).

(** Modelled from the spec: package ringbuffer is not part of the source
    at hand.  The spec describes "a growable circular byte buffer supporting
    append, a zero-copy dual-segment read view, and advancing a read cursor"
    (the view "may wrap, yielding up to two contiguous byte ranges").  The
    model is a circular store with a read and a write position; [isEmpty]
    tells an empty buffer from a full one when both positions coincide. *)
Module RingBuffer.
Record t : Set := mk { buf : list byte; r : nat; w : nat; isEmpty : bool }.

Definition size (rb : t) : nat := length (buf rb).

Definition New (n : nat) : t := mk (replicate n x00) 0 0 true.

Definition len (rb : t) : nat :=
  if (r rb =? w rb)%nat then (if isEmpty rb then 0%nat else size rb)
  else if (r rb <? w rb)%nat then (w rb - r rb)%nat
  else (size rb - r rb + w rb)%nat.

Definition Length (rb : t) : Z := Z.of_nat (len rb).

(** The dual-segment view.  The second component is [None] when there is
    no second segment (a nil slice in Go). *)
Definition PreReadAll (rb : t) : list byte * option (list byte) :=
  if isEmpty rb then ([], Datatypes.None)
  else if (r rb <? w rb)%nat then
    (take (w rb - r rb) (drop (r rb) (buf rb)), Datatypes.None)
  else
    (drop (r rb) (buf rb),
     if (w rb =? 0)%nat then Datatypes.None else Some (take (w rb) (buf rb))).

Definition Reset (rb : t) : t := mk (buf rb) 0 0 true.

Definition Advance (n : Z) (rb : t) : t :=
  if n <=? 0 then rb
  else if n <? Length rb then
    mk (buf rb) ((r rb + Z.to_nat n) mod size rb)%nat (w rb) (isEmpty rb)
  else Reset rb.

(** the unread bytes, oldest first *)
Definition bytes (rb : t) : list byte :=
  let '(top, tail) := PreReadAll rb in top ++ default [] tail.

(** growing: the unread bytes move to the front of a larger store *)
Definition grow (rb : t) : t :=
  mk (bytes rb ++ replicate (S (size rb)) x00) 0 (len rb) (isEmpty rb).

Definition push (rb : t) (b : byte) : t :=
  let rb := if (len rb =? size rb)%nat then grow rb else rb in
  mk (<[w rb := b]> (buf rb)) (r rb) (S (w rb) mod size rb)%nat false.

(** append *)
Definition Write (p : list byte) (rb : t) : t := foldl push rb p.

(** representation invariant *)
Definition wf (rb : t) : Prop :=
  (r rb < size rb)%nat ∧ (w rb < size rb)%nat ∧ (isEmpty rb = true → r rb = w rb).

Definition wfb (rb : t) : bool :=
  (r rb <? size rb)%nat && (w rb <? size rb)%nat
  && (negb (isEmpty rb) || (r rb =? w rb)%nat).
End RingBuffer.

(** Connections live on the heap and the loop's table holds pointers to
    them ([map[int]*conn]): a connection is named by its location. *)
Definition loc : Set := nat.

(** [conn].  The struct is declared outside eventloop.go; these are the
    fields the loop reads and writes.  [extra] is a slice [lp.packet[:n]] of
    the loop's packet buffer: it shares the packet's storage and always
    starts at its first byte, so it is kept as its length.  [loop] records
    whether the back pointer to the owning loop was set (loopAccept sets it,
    loopUDPRead leaves it nil).  A nil ring buffer pointer is represented by
    the zero-capacity buffer; no function of this file touches such a one. *)
Module conn.
Record t : Set := mk {
  fd : Z;
  sa : Sockaddr;
  inBuf : RingBuffer.t;
  outBuf : RingBuffer.t;
  loop : bool;
  extra : nat;
  opened : bool;
  action : Action.t;
  localAddr : NetAddr;
  remoteAddr : NetAddr
}.

Definition zero : t :=
  mk 0 NilSockaddr (RingBuffer.New 0) (RingBuffer.New 0) false 0 false
     Action.None NilAddr NilAddr.

Definition set_inBuf (f : RingBuffer.t → RingBuffer.t) (c : t) : t :=
  mk (fd c) (sa c) (f (inBuf c)) (outBuf c) (loop c) (extra c) (opened c)
     (action c) (localAddr c) (remoteAddr c).
Definition set_outBuf (f : RingBuffer.t → RingBuffer.t) (c : t) : t :=
  mk (fd c) (sa c) (inBuf c) (f (outBuf c)) (loop c) (extra c) (opened c)
     (action c) (localAddr c) (remoteAddr c).
Definition set_extra (n : nat) (c : t) : t :=
  mk (fd c) (sa c) (inBuf c) (outBuf c) (loop c) n (opened c)
     (action c) (localAddr c) (remoteAddr c).
Definition set_opened (b : bool) (c : t) : t :=
  mk (fd c) (sa c) (inBuf c) (outBuf c) (loop c) (extra c) b
     (action c) (localAddr c) (remoteAddr c).
Definition set_action (a : Action.t) (c : t) : t :=
  mk (fd c) (sa c) (inBuf c) (outBuf c) (loop c) (extra c) (opened c)
     a (localAddr c) (remoteAddr c).
Definition set_localAddr (a : NetAddr) (c : t) : t :=
  mk (fd c) (sa c) (inBuf c) (outBuf c) (loop c) (extra c) (opened c)
     (action c) a (remoteAddr c).
Definition set_remoteAddr (a : NetAddr) (c : t) : t :=
  mk (fd c) (sa c) (inBuf c) (outBuf c) (loop c) (extra c) (opened c)
     (action c) (localAddr c) a.
End conn.

#[global] Instance conn_inhabited : Inhabited conn.t := populate conn.zero.

(** The parts of the server the loop consults: the listener ([svr.ln]) and
    the options ([svr.opts]).  [pconn] tells whether [ln.pconn != nil] (a
    datagram listener), [tcp] whether [ln.ln] is a [*net.TCPListener].
    [TCPKeepAlive] is a [time.Duration], in nanoseconds. *)
Module listener.
Record t : Set := mk { fd : Z; pconn : bool; lnaddr : NetAddr; tcp : bool }.
End listener.

Module options.
Record t : Set := mk { Ticker : bool; TCPKeepAlive : Z }.
End options.

Module server.
Record t : Set := mk { ln : listener.t; opts : options.t }.
End server.

(** [loop]: the poller is external (see [Env]); the rest is here. *)
Module loop.
Record t : Set := mk {
  idx : Z;
  packet : list byte;
  connections : gmap Z loc;
  svr : server.t
}.
Definition set_packet (p : list byte) (lp : t) : t :=
  mk (idx lp) p (connections lp) (svr lp).
Definition set_connections (f : gmap Z loc → gmap Z loc) (lp : t) : t :=
  mk (idx lp) (packet lp) (f (connections lp)) (svr lp).
End loop.

(** ** External calls *)

(** One constructor per kind of call that leaves eventloop.go, with its
    arguments and what came back. *)
Inductive event : Set :=
| ev_Accept (fd : Z) (nfd : Z) (sa : Sockaddr) (err : option error)
| ev_SetNonblock (fd : Z) (err : option error)
| ev_Read (fd : Z) (n : Z) (err : option error)
| ev_Write (fd : Z) (p : list byte) (n : Z) (err : option error)
| ev_Close (fd : Z) (err : option error)
| ev_Recvfrom (fd : Z) (n : Z) (sa : Sockaddr) (err : option error)
| ev_Sendto (fd : Z) (p : list byte) (sa : Sockaddr) (err : option error)
| ev_SetKeepAlive (fd : Z) (secs : Z) (err : option error)
| ev_AddReadWrite (fd : Z) (err : option error)
| ev_AddWrite (fd : Z) (err : option error)
| ev_ModRead (fd : Z) (err : option error)
| ev_Delete (fd : Z) (err : option error)
| ev_OnOpened (c : loc) (out : list byte) (a : Action.t)
| ev_React (c : loc) (out : list byte) (a : Action.t)
| ev_PreWrite
| ev_OnClosed (c : loc) (err : option error) (a : Action.t)
| ev_Tick (delay : Z) (a : Action.t)
| ev_tch_send (delay : Z)
| ev_conn_open (c : loc) (p : list byte)
| ev_conn_write (c : loc) (p : list byte)
| ev_sniffError (err : option error)
| ev_signalShutdown.

(** The state a dispatch runs in. *)
Record State : Type := mkState {
  lp : loop.t;
  heap : gmap loc conn.t;
  trace : list event
}.

Definition set_lp (f : loop.t → loop.t) (s : State) : State :=
  mkState (f (lp s)) (heap s) (trace s).
Definition set_heap (f : gmap loc conn.t → gmap loc conn.t) (s : State) : State :=
  mkState (lp s) (f (heap s)) (trace s).
Definition record (e : event) (s : State) : State :=
  mkState (lp s) (heap s) (trace s ++ [e]).

(** The environment.  System calls and poller operations answer from the
    history of calls; handler callbacks see the state of the loop and the
    connection they are given, and may leave the connection's input buffer
    changed (the spec: "an input RingBuffer the handler may read
    from/accumulate into across calls").

    [conn_open] and [conn_write] stand for the methods [c.open] and
    [c.write] of conn, which are not in eventloop.go: by the spec they send
    what the socket takes and queue the rest, so they are taken as
    parameters that give the outbound buffer they leave behind.
    [connRingBufferSize] and the two address conversions of netpoll are
    parameters for the same reason.

    Nothing is assumed of the answers here; where a property needs the
    contract of a system call ([write_contract], [read_contract] below) it
    says so. *)
Record Env : Type := mkEnv {
  unix_Accept : list event → Z → Z * Sockaddr * option error;
  unix_SetNonblock : list event → Z → bool → option error;
  unix_Read : list event → Z → list byte → Z * option error * list byte;
  unix_Write : list event → Z → list byte → Z * option error;
  unix_Close : list event → Z → option error;
  unix_Recvfrom : list event → Z → list byte → Z * Sockaddr * option error * list byte;
  unix_Sendto : list event → Z → list byte → Sockaddr → option error;
  netpoll_SetKeepAlive : list event → Z → Z → option error;
  poller_AddReadWrite : list event → Z → option error;
  poller_AddWrite : list event → Z → option error;
  poller_ModRead : list event → Z → option error;
  poller_Delete : list event → Z → option error;
  OnOpened : State → loc → list byte * Action.t * RingBuffer.t;
  React : State → loc → list byte * Action.t * RingBuffer.t;
  OnClosed : State → loc → option error → Action.t * RingBuffer.t;
  Tick : list event → Z * Action.t;
  conn_open : State → loc → list byte → RingBuffer.t;
  conn_write : State → loc → list byte → RingBuffer.t;
  connRingBufferSize : nat;
  SockaddrToTCPOrUnixAddr : Sockaddr → NetAddr;
  SockaddrToUDPAddr : Sockaddr → NetAddr
}.

(** ** The state monad of a dispatch *)

Definition M (A : Type) : Type := State → A * State.

#[global] Instance M_ret : MRet M := λ A a s, (a, s).
#[global] Instance M_bind : MBind M :=
  λ A B f m s, let '(a, s') := m s in f a s'.

Definition gets {A} (f : State → A) : M A := λ s, (f s, s).
Definition modify (f : State → State) : M unit := λ s, (tt, f s).

(** reading and writing through a [*conn] *)
Definition deref (c : loc) (s : State) : conn.t := heap s !!! c.
Definition update (c : loc) (f : conn.t → conn.t) : M unit :=
  modify (set_heap (alter f c)).

(** an external call: ask the environment, record the call *)
Definition call {A} (f : list event → A) (ev : A → event) : M A :=
  λ s, let a := f (trace s) in (a, record (ev a) s).

(** a handler callback on connection [c] *)
Definition callback {A} (c : loc) (f : State → loc → A * RingBuffer.t) (ev : A → event) : M A :=
  λ s, let '(a, ib) := f s c in
       (a, record (ev a) (set_heap (alter (conn.set_inBuf (λ _, ib)) c) s)).

(** a conn method acting on the outbound buffer of [c] *)
Definition conn_method (c : loc) (f : State → loc → RingBuffer.t) (ev : event) : M unit :=
  λ s, (tt, record ev (set_heap (alter (conn.set_outBuf (λ _, f s c)) c) s)).

(** [new(conn)]: the next free location *)
Definition alloc (v : conn.t) : M loc :=
  λ s, let c := fresh (dom (heap s)) in (c, set_heap (insert c v) s).

(** [internal.Job]: a closure run on the loop's own thread *)
Definition Job : Type := M (option error).

(** [time.Second], in nanoseconds *)
Definition Second : Z := 1000000000.

(** ** The loop *)

Section EventLoop.
Context (E : Env).

Definition conn_fd (c : loc) : M Z := gets (λ s, conn.fd (deref c s)).
Definition outBuf_Length (c : loc) : M Z :=
  gets (λ s, RingBuffer.Length (conn.outBuf (deref c s))).
Definition server_of : M server.t := gets (λ s, loop.svr (lp s)).

(** [sniffError] only logs *)
Definition sniffError (err : option error) : M unit :=
  modify (record (ev_sniffError err)).

Definition PreWrite : M unit := modify (record ev_PreWrite).

Definition loopCloseConn (c : loc) (err : option error) : M (option error) :=
  fd ← conn_fd c;
  derr ← call (λ h, poller_Delete E h fd) (ev_Delete fd);
  (if is_nil derr then
     modify (set_lp (loop.set_connections (delete fd)));;
     _ ← call (λ h, unix_Close E h fd) (ev_Close fd);
     mret tt
   else mret tt);;
  a ← callback c (λ s c, OnClosed E s c err) (ev_OnClosed c err);
  match a with
  | Action.None => mret None
  | Action.Shutdown => mret (Some ErrClosing)
  | _ => mret None
  end.

Definition handleAction (c : loc) : M (option error) :=
  a ← gets (λ s, conn.action (deref c s));
  match a with
  | Action.None => mret None
  | Action.Close => loopCloseConn c None
  | Action.Shutdown => mret (Some ErrClosing)
  | _ => mret None
  end.

Definition loopOpened (c : loc) : M (option error) :=
  update c (conn.set_opened true);;
  svr ← server_of;
  update c (conn.set_localAddr (listener.lnaddr (server.ln svr)));;
  update c (λ v, conn.set_remoteAddr (SockaddrToTCPOrUnixAddr E (conn.sa v)) v);;
  '(out, action) ← callback c (OnOpened E) (λ r, ev_OnOpened c r.1 r.2);
  update c (conn.set_action action);;
  fd ← conn_fd c;
  (if (0 <? options.TCPKeepAlive (server.opts svr)) && listener.tcp (server.ln svr) then
     let secs := options.TCPKeepAlive (server.opts svr) `quot` Second in
     kerr ← call (λ h, netpoll_SetKeepAlive E h fd secs) (ev_SetKeepAlive fd secs);
     sniffError kerr
   else mret tt);;
  (if (0 <? length out)%nat then
     conn_method c (λ s c, conn_open E s c out) (ev_conn_open c out)
   else mret tt);;
  n ← outBuf_Length c;
  (if negb (n =? 0) then
     _ ← call (λ h, poller_AddWrite E h fd) (ev_AddWrite fd); mret tt
   else mret tt);;
  handleAction c.

Definition loopRead (c : loc) : M (option error) :=
  fd ← conn_fd c;
  pkt ← gets (λ s, loop.packet (lp s));
  '(n, err, pkt') ← call (λ h, unix_Read E h fd pkt) (λ r, ev_Read fd r.1.1 r.1.2);
  modify (set_lp (loop.set_packet pkt'));;
  if (n =? 0) || negb (is_nil err) then
    if is_EAGAIN err then mret None else loopCloseConn c err
  else
    update c (conn.set_extra (Z.to_nat n));;
    '(out, action) ← callback c (React E) (λ r, ev_React c r.1 r.2);
    update c (conn.set_action action);;
    (if (0 <? length out)%nat then
       conn_method c (λ s c, conn_write E s c out) (ev_conn_write c out)
     else if negb (Action.eqb action Action.DataRead) then
       extra ← gets (λ s, take (conn.extra (deref c s)) (loop.packet (lp s)));
       update c (conn.set_inBuf (RingBuffer.Write extra))
     else mret tt);;
    handleAction c.

(** the last statements of loopWrite, reached when no write failed *)
Definition loopWrite_end (c : loc) : M (option error) :=
  n ← outBuf_Length c;
  fd ← conn_fd c;
  (if n =? 0 then
     _ ← call (λ h, poller_ModRead E h fd) (ev_ModRead fd); mret tt
   else mret tt);;
  mret None.

Definition loopWrite (c : loc) : M (option error) :=
  PreWrite;;
  '(top, tail) ← gets (λ s, RingBuffer.PreReadAll (conn.outBuf (deref c s)));
  fd ← conn_fd c;
  '(n, err) ← call (λ h, unix_Write E h fd top) (λ r, ev_Write fd top r.1 r.2);
  if negb (is_nil err) then
    if is_EAGAIN err then mret None else loopCloseConn c err
  else
    update c (conn.set_outBuf (RingBuffer.Advance n));;
    match (if Z.of_nat (length top) =? n then tail else None) with
    | Some tail =>
        '(n, err) ← call (λ h, unix_Write E h fd tail) (λ r, ev_Write fd tail r.1 r.2);
        if negb (is_nil err) then
          if is_EAGAIN err then mret None else loopCloseConn c err
        else
          update c (conn.set_outBuf (RingBuffer.Advance n));;
          loopWrite_end c
    | None => loopWrite_end c
    end.

(** the address switch of loopUDPRead: the [unix.SockaddrInet6] built from
    the sender's address *)
Definition udp_sa6 (sa : Sockaddr) : SockaddrInet6.t :=
  match sa with
  | Inet4 sa4 =>
      let sa6 := SockaddrInet6.zero in
      let sa6 := SockaddrInet6.mk (SockaddrInet6.Port sa6) 0 (SockaddrInet6.Addr sa6) in
      let sa6 := SockaddrInet6.mk (SockaddrInet4.Port sa4) (SockaddrInet6.ZoneId sa6)
                                  (SockaddrInet6.Addr sa6) in
      let sa6 := foldl (λ sa6 i, SockaddrInet6.set_Addr <[i := x00]> sa6) sa6 (seq 0 12) in
      let sa6 := SockaddrInet6.set_Addr <[12%nat := SockaddrInet4.Addr sa4 !!! 0%nat]> sa6 in
      let sa6 := SockaddrInet6.set_Addr <[13%nat := SockaddrInet4.Addr sa4 !!! 1%nat]> sa6 in
      let sa6 := SockaddrInet6.set_Addr <[14%nat := SockaddrInet4.Addr sa4 !!! 2%nat]> sa6 in
      let sa6 := SockaddrInet6.set_Addr <[15%nat := SockaddrInet4.Addr sa4 !!! 3%nat]> sa6 in
      sa6
  | Inet6 sa6 => sa6
  | _ => SockaddrInet6.zero
  end.

Definition loopUDPRead (fd : Z) : M (option error) :=
  pkt ← gets (λ s, loop.packet (lp s));
  '(n, sa, err, pkt') ← call (λ h, unix_Recvfrom E h fd pkt)
                             (λ r, ev_Recvfrom fd r.1.1.1 r.1.1.2 r.1.2);
  modify (set_lp (loop.set_packet pkt'));;
  if negb (is_nil err) || (n =? 0) then mret None
  else
    let sa6 := udp_sa6 sa in
    svr ← server_of;
    c ← alloc (conn.mk 0 NilSockaddr (RingBuffer.New (connRingBufferSize E))
                       (RingBuffer.New 0) false 0 false Action.None
                       (listener.lnaddr (server.ln svr))
                       (SockaddrToUDPAddr E (Inet6 sa6)));
    update c (conn.set_inBuf (RingBuffer.Write (take (Z.to_nat n) pkt')));;
    '(out, action) ← callback c (React E) (λ r, ev_React c r.1 r.2);
    (if (0 <? length out)%nat then
       PreWrite;;
       serr ← call (λ h, unix_Sendto E h fd out sa) (ev_Sendto fd out sa);
       sniffError serr
     else mret tt);;
    match action with
    | Action.Shutdown => mret (Some ErrClosing)
    | _ => mret None
    end.

Definition loopAccept (fd : Z) : M (option error) :=
  svr ← server_of;
  if fd =? listener.fd (server.ln svr) then
    if listener.pconn (server.ln svr) then loopUDPRead fd
    else
      '(nfd, sa, err) ← call (λ h, unix_Accept E h fd) (λ r, ev_Accept fd r.1.1 r.1.2 r.2);
      if negb (is_nil err) then
        if is_EAGAIN err then mret None else mret err
      else
        nerr ← call (λ h, unix_SetNonblock E h nfd true) (ev_SetNonblock nfd);
        if negb (is_nil nerr) then mret nerr
        else
          c ← alloc (conn.mk nfd sa (RingBuffer.New (connRingBufferSize E))
                             (RingBuffer.New (connRingBufferSize E)) true 0 false
                             Action.None NilAddr NilAddr);
          cfd ← conn_fd c;
          aerr ← call (λ h, poller_AddReadWrite E h cfd) (ev_AddReadWrite cfd);
          if is_nil aerr then
            modify (set_lp (loop.set_connections <[cfd := c]>));;
            mret None
          else mret aerr
  else mret None.

(** the function literal that loopRun hands to [Polling] *)
Definition dispatch (fd : Z) (job : Job) : M (option error) :=
  if fd =? 0 then job
  else
    conns ← gets (λ s, loop.connections (lp s));
    match conns !! fd with
    | Some c =>
        opened ← gets (λ s, conn.opened (deref c s));
        if negb opened then loopOpened c
        else
          n ← outBuf_Length c;
          if 0 <? n then loopWrite c else loopRead c
    | None => loopAccept fd
    end.

(** the job that loopTicker injects through [poller.Trigger] *)
Definition tick_job : Job :=
  '(delay, action) ← call (Tick E) (λ r, ev_Tick r.1 r.2);
  modify (record (ev_tch_send delay));;
  match action with
  | Action.Shutdown => mret (Some ErrClosing)
  | _ => mret None
  end.

(** Modelled from the spec: [poller.Polling] is not in eventloop.go.  It
    "blocks the calling thread, invoking dispatch(fd, job) once per
    readiness event until an error is returned [...], then returns that
    error".  The readiness events the poller sees are given as a list. *)
Fixpoint Polling (callback : Z → Job → M (option error)) (ready : list (Z * Job))
  : M (option error) :=
  match ready with
  | [] => mret None
  | (fd, job) :: ready =>
      err ← callback fd job;
      if is_nil err then Polling callback ready else mret err
  end.

(** loopRun, for the readiness events [ready].  The ticker goroutine it
    starts (on loop 0, when the Ticker option is set) runs beside the loop
    and reaches it only through the jobs it injects, which are among
    [ready]; the deferred signalShutdown comes last. *)
Definition loopRun (ready : list (Z * Job)) : M unit :=
  _ ← Polling dispatch ready;
  modify (record ev_signalShutdown).

End EventLoop.

(** ** A small configuration to run the loop on

    A server on a stream listener (descriptor 3).  The socket takes at most
    two bytes per write; every read delivers the two bytes "hi"; the conn
    helpers queue what they are handed; the data callback is left open. *)
Module Demo.
Definition client : Sockaddr :=
  Inet4 (SockaddrInet4.mk 4000 ["127"; "000"; "000"; "001"]%byte).

Definition hi : list byte := ["h"; "i"]%byte.

Definition mk_env (react : State → loc → list byte * Action.t * RingBuffer.t) : Env := {|
  unix_Accept := λ _ _, (5, client, None);
  unix_SetNonblock := λ _ _ _, None;
  unix_Read := λ _ _ pkt, (2, None, hi ++ drop 2 pkt);
  unix_Write := λ _ _ p, (Z.min 2 (Z.of_nat (length p)), None);
  unix_Close := λ _ _, None;
  unix_Recvfrom := λ _ _ pkt, (2, client, None, hi ++ drop 2 pkt);
  unix_Sendto := λ _ _ _ _, None;
  netpoll_SetKeepAlive := λ _ _ _, None;
  poller_AddReadWrite := λ _ _, None;
  poller_AddWrite := λ _ _, None;
  poller_ModRead := λ _ _, None;
  poller_Delete := λ _ _, None;
  OnOpened := λ s c, ([], Action.None, conn.inBuf (deref c s));
  React := react;
  OnClosed := λ s c _, (Action.None, conn.inBuf (deref c s));
  Tick := λ _, (Second, Action.None);
  conn_open := λ s c p, RingBuffer.Write p (conn.outBuf (deref c s));
  conn_write := λ s c p, RingBuffer.Write p (conn.outBuf (deref c s));
  connRingBufferSize := 4;
  SockaddrToTCPOrUnixAddr := λ sa,
    match sa with
    | Inet4 a => TCPAddr (SockaddrInet4.Addr a) (SockaddrInet4.Port a) ""
    | Inet6 a => TCPAddr (SockaddrInet6.Addr a) (SockaddrInet6.Port a) ""
    | Unix name => UnixAddr name
    | NilSockaddr => NilAddr
    end;
  SockaddrToUDPAddr := λ sa,
    match sa with
    | Inet4 a => UDPAddr (SockaddrInet4.Addr a) (SockaddrInet4.Port a) ""
    | Inet6 a => UDPAddr (SockaddrInet6.Addr a) (SockaddrInet6.Port a) ""
    | _ => NilAddr
    end
|}.

(** the handler answers with the bytes just read *)
Definition env : Env :=
  mk_env (λ s c, (take (conn.extra (deref c s)) (loop.packet (lp s)),
                  Action.None, conn.inBuf (deref c s))).

(** the handler answers nothing and leaves the bytes to the loop *)
Definition quiet_env : Env :=
  mk_env (λ s c, ([], Action.None, conn.inBuf (deref c s))).

Definition tcp_server : server.t :=
  server.mk (listener.mk 3 false NilAddr true) (options.mk true 0).

Definition udp_server : server.t :=
  server.mk (listener.mk 3 true NilAddr false) (options.mk false 0).

(** the loop before any event *)
Definition init : State :=
  mkState (loop.mk 0 (replicate 8 x00) ∅ tcp_server) ∅ [].

(** the same, on a datagram listener *)
Definition udp_init : State :=
  mkState (loop.mk 0 (replicate 8 x00) ∅ udp_server) ∅ [].

(** an outbound buffer holding "abcdef" wrapped around an eight-byte
    store: the read position is 4, so the first segment is "abcd"
    (positions 4 to 7) and the second "ef" (positions 0 and 1) *)
Definition wrapped : RingBuffer.t :=
  RingBuffer.mk ["e"; "f"; "0"; "0"; "a"; "b"; "c"; "d"]%byte 4 2 false.

(** one opened connection, on descriptor 5, with [wrapped] to send *)
Definition sender : conn.t :=
  conn.mk 5 client (RingBuffer.New 4) wrapped true 0 true Action.None NilAddr NilAddr.

Definition sending : State :=
  mkState (loop.mk 0 (replicate 8 x00) {[ 5 := 0%nat ]} tcp_server)
          {[ 0%nat := sender ]} [].
End Demo.

(** ** Further configurations

    Variants of the configuration above: environments in which one call
    answers otherwise, a server with keep-alive, and the state right after a
    connection was accepted. *)
Module Cases.
(** [E] with another answer for one call *)
Definition with_Accept (f : list event → Z → Z * Sockaddr * option error) (E : Env) : Env := {|
  unix_Accept := f;
  unix_SetNonblock := unix_SetNonblock E;
  unix_Read := unix_Read E;
  unix_Write := unix_Write E;
  unix_Close := unix_Close E;
  unix_Recvfrom := unix_Recvfrom E;
  unix_Sendto := unix_Sendto E;
  netpoll_SetKeepAlive := netpoll_SetKeepAlive E;
  poller_AddReadWrite := poller_AddReadWrite E;
  poller_AddWrite := poller_AddWrite E;
  poller_ModRead := poller_ModRead E;
  poller_Delete := poller_Delete E;
  OnOpened := OnOpened E;
  React := React E;
  OnClosed := OnClosed E;
  Tick := Tick E;
  conn_open := conn_open E;
  conn_write := conn_write E;
  connRingBufferSize := connRingBufferSize E;
  SockaddrToTCPOrUnixAddr := SockaddrToTCPOrUnixAddr E;
  SockaddrToUDPAddr := SockaddrToUDPAddr E
|}.

Definition with_AddReadWrite (f : list event → Z → option error) (E : Env) : Env := {|
  unix_Accept := unix_Accept E;
  unix_SetNonblock := unix_SetNonblock E;
  unix_Read := unix_Read E;
  unix_Write := unix_Write E;
  unix_Close := unix_Close E;
  unix_Recvfrom := unix_Recvfrom E;
  unix_Sendto := unix_Sendto E;
  netpoll_SetKeepAlive := netpoll_SetKeepAlive E;
  poller_AddReadWrite := f;
  poller_AddWrite := poller_AddWrite E;
  poller_ModRead := poller_ModRead E;
  poller_Delete := poller_Delete E;
  OnOpened := OnOpened E;
  React := React E;
  OnClosed := OnClosed E;
  Tick := Tick E;
  conn_open := conn_open E;
  conn_write := conn_write E;
  connRingBufferSize := connRingBufferSize E;
  SockaddrToTCPOrUnixAddr := SockaddrToTCPOrUnixAddr E;
  SockaddrToUDPAddr := SockaddrToUDPAddr E
|}.

Definition with_Recvfrom
    (f : list event → Z → list byte → Z * Sockaddr * option error * list byte) (E : Env) : Env := {|
  unix_Accept := unix_Accept E;
  unix_SetNonblock := unix_SetNonblock E;
  unix_Read := unix_Read E;
  unix_Write := unix_Write E;
  unix_Close := unix_Close E;
  unix_Recvfrom := f;
  unix_Sendto := unix_Sendto E;
  netpoll_SetKeepAlive := netpoll_SetKeepAlive E;
  poller_AddReadWrite := poller_AddReadWrite E;
  poller_AddWrite := poller_AddWrite E;
  poller_ModRead := poller_ModRead E;
  poller_Delete := poller_Delete E;
  OnOpened := OnOpened E;
  React := React E;
  OnClosed := OnClosed E;
  Tick := Tick E;
  conn_open := conn_open E;
  conn_write := conn_write E;
  connRingBufferSize := connRingBufferSize E;
  SockaddrToTCPOrUnixAddr := SockaddrToTCPOrUnixAddr E;
  SockaddrToUDPAddr := SockaddrToUDPAddr E
|}.

(** accept answers with the error [e] *)
Definition accept_fails (e : error) : Env :=
  with_Accept (λ _ _, (-1, NilSockaddr, Some e)) Demo.env.

(** the poller refuses to register the accepted descriptor *)
Definition register_fails : Env :=
  with_AddReadWrite (λ _ _, Some (Errno 28)) Demo.env.

(** no datagram could be received *)
Definition recvfrom_fails : Env :=
  with_Recvfrom (λ _ _ pkt, (-1, NilSockaddr, Some (Errno 9), pkt)) Demo.env.

Definition client6 : SockaddrInet6.t :=
  SockaddrInet6.mk 4000 2 (replicate 15 x00 ++ [x01]).

(** datagrams come from an IPv6 peer *)
Definition recvfrom_v6 : Env :=
  with_Recvfrom (λ _ _ pkt, (2, Inet6 client6, None, Demo.hi ++ drop 2 pkt)) Demo.env.

Definition with_OnOpened (f : State → loc → list byte * Action.t * RingBuffer.t) (E : Env)
  : Env := {|
  unix_Accept := unix_Accept E;
  unix_SetNonblock := unix_SetNonblock E;
  unix_Read := unix_Read E;
  unix_Write := unix_Write E;
  unix_Close := unix_Close E;
  unix_Recvfrom := unix_Recvfrom E;
  unix_Sendto := unix_Sendto E;
  netpoll_SetKeepAlive := netpoll_SetKeepAlive E;
  poller_AddReadWrite := poller_AddReadWrite E;
  poller_AddWrite := poller_AddWrite E;
  poller_ModRead := poller_ModRead E;
  poller_Delete := poller_Delete E;
  OnOpened := f;
  React := React E;
  OnClosed := OnClosed E;
  Tick := Tick E;
  conn_open := conn_open E;
  conn_write := conn_write E;
  connRingBufferSize := connRingBufferSize E;
  SockaddrToTCPOrUnixAddr := SockaddrToTCPOrUnixAddr E;
  SockaddrToUDPAddr := SockaddrToUDPAddr E
|}.

(** the handler greets every new connection *)
Definition greeting : Env :=
  with_OnOpened (λ s c, (Demo.hi, Action.None, conn.inBuf (deref c s))) Demo.env.

(** a stream listener on 0.0.0.0:9000 with a keep-alive of 2.5 seconds *)
Definition keepalive_server : server.t :=
  server.mk (listener.mk 3 false (TCPAddr (replicate 4 x00) 9000 "") true)
            (options.mk false 2500000000).

(** a connection as loopAccept makes it *)
Definition fresh_conn : conn.t :=
  conn.mk 5 Demo.client (RingBuffer.New 4) (RingBuffer.New 4) true 0 false
          Action.None NilAddr NilAddr.

(** the loop right after it accepted a connection on descriptor 5 *)
Definition accepted : State :=
  mkState (loop.mk 0 (replicate 8 x00) {[ 5 := 0%nat ]} keepalive_server)
          {[ 0%nat := fresh_conn ]} [].

(** the handler asks to close the connection on the first data it sees *)
Definition closes : Env :=
  Demo.mk_env (λ s c, ([], Action.Close, conn.inBuf (deref c s))).
End Cases.

(** The state loopRead hands to handleAction after a read that brought
    [n] bytes, [s1] being the state right after the read: the statements of
    loopRead between the read and the final handleAction, as one state
    transformer ([loopRead_unfold] below joins it to [loopRead]). *)
Definition loopRead_received (E : Env) (c : loc) (n : Z) (s1 : State) : State :=
  let s2 := set_heap (alter (conn.set_extra (Z.to_nat n)) c) s1 in
  let '(out, action, ib) := React E s2 c in
  let s3 := set_heap (alter (conn.set_action action) c)
              (record (ev_React c out action)
                 (set_heap (alter (conn.set_inBuf (λ _, ib)) c) s2)) in
  if (0 <? length out)%nat then
    record (ev_conn_write c out)
      (set_heap (alter (conn.set_outBuf (λ _, conn_write E s3 c out)) c) s3)
  else if negb (Action.eqb action Action.DataRead) then
    set_heap (alter (conn.set_inBuf
      (RingBuffer.Write (take (conn.extra (deref c s3)) (loop.packet (lp s3))))) c) s3
  else s3.

(** ** Reading the trace *)

(** The bytes socket [fd] took, in order: what each write without error
    reported as written, out of what it was handed. *)
Definition delivered (fd : Z) (evs : list event) : list byte :=
  flat_map (λ e, match e with
                 | ev_Write fd' p n None =>
                     if decide (fd' = fd) then take (Z.to_nat n) p else []
                 | _ => []
                 end) evs.

(** The write calls made, in order: segment handed over, count and error
    that came back. *)
Definition writes (evs : list event) : list (list byte * Z * option error) :=
  omap (λ e, match e with ev_Write _ p n err => Some (p, n, err) | _ => None end) evs.

(** The ring buffer after the cursor moves a write call asks for: a write
    that failed moves nothing. *)
Definition advanced (ws : list (list byte * Z * option error)) (rb : RingBuffer.t)
  : RingBuffer.t :=
  foldl (λ rb w, if is_nil w.2 then RingBuffer.Advance w.1.2 rb else rb) rb ws.

(** What loopCloseConn returns for the answer of OnClosed. *)
Definition closing (a : Action.t) : option error :=
  match a with Action.Shutdown => Some ErrClosing | _ => None end.

(** The calls of loopCloseConn. *)
Definition is_close_event (e : event) : bool :=
  match e with
  | ev_Delete _ _ | ev_Close _ _ | ev_OnClosed _ _ _ => true
  | _ => false
  end.

Definition is_ModRead (fd : Z) (e : event) : bool :=
  match e with ev_ModRead fd' _ => bool_decide (fd' = fd) | _ => false end.

(** The open and data callbacks made on connection [c], in order: [true]
    for OnOpened, [false] for React. *)
Definition handler_call (c : loc) (e : event) : option bool :=
  match e with
  | ev_OnOpened c' _ _ => if decide (c' = c) then Some true else None
  | ev_React c' _ _ => if decide (c' = c) then Some false else None
  | _ => None
  end.

Definition log (c : loc) (tr : list event) : list bool := omap (handler_call c) tr.

(** What the system call contract gives for a write that reports no error:
    a count between 0 and the length of the segment. *)
Definition write_contract (E : Env) : Prop :=
  ∀ h fd p n, unix_Write E h fd p = (n, None) → 0 ≤ n ≤ Z.of_nat (length p).

(** ... and for a read that reports no error: a count between 0 and the
    length of the packet buffer.  (Outside this range the slice expression
    [lp.packet[:n]] of the source panics; the model's [take] does not.) *)
Definition read_contract (E : Env) : Prop :=
  ∀ h fd p n p', unix_Read E h fd p = (n, None, p') → 0 ≤ n ≤ Z.of_nat (length p').

(** [k] write-readiness events in a row on connection [c] *)
Fixpoint loopWrite_retries (E : Env) (c : loc) (k : nat) : M unit :=
  match k with
  | O => mret tt
  | S k => _ ← loopWrite E c; loopWrite_retries E c k
  end.

(** The state of the open protocol.  Every pointer of the table is live; a
    location not yet allocated has no callback on record; and a connection
    of this loop (one made by loopAccept, which sets its [loop] field) has
    seen no open or data callback while its [opened] flag is down, and one
    OnOpened followed by React calls only once the flag is up. *)
Definition open_first (c : loc) (v : conn.t) (tr : list event) : Prop :=
  if conn.opened v then ∃ k, log c tr = true :: replicate k false
  else log c tr = [].

Record Inv (s : State) : Prop := mkInv {
  Inv_table : ∀ fd c, loop.connections (lp s) !! fd = Some c → is_Some (heap s !! c);
  Inv_fresh : ∀ c, heap s !! c = None → log c (trace s) = [];
  Inv_open : ∀ c v, heap s !! c = Some v → conn.loop v = true → open_first c v (trace s)
}.

(** the readiness events of a run: descriptor 0 stands for a tick *)
Definition run (E : Env) (fds : list Z) : M (option error) :=
  Polling (dispatch E) (map (λ fd, (fd, tick_job E)) fds).

(** ** Framing a procedure

    What a procedure run on connection [c] may do to the rest of the
    state: it touches no connection but [c], keeps the [loop] and [opened]
    fields of [c], adds no entry to the table, and makes no open or data
    callback except, where [reacts] allows it, React on [c]. *)

(** events other than the open and data callbacks *)
Definition silent (e : event) : bool :=
  match e with ev_OnOpened _ _ _ | ev_React _ _ _ => false | _ => true end.

Definition conn_kept (c c' : loc) (v v' : conn.t) : Prop :=
  (c' ≠ c → v' = v) ∧ conn.loop v' = conn.loop v ∧ conn.opened v' = conn.opened v.

Definition keeps_flags (f : conn.t → conn.t) : Prop :=
  ∀ v, conn.loop (f v) = conn.loop v ∧ conn.opened (f v) = conn.opened v.

Record frame (c : loc) (reacts : bool) (s s' : State) : Prop := mkFrame {
  frame_heap : ∀ c', option_Forall2 (conn_kept c c') (heap s !! c') (heap s' !! c');
  frame_trace : ∃ evs k, trace s' = trace s ++ evs ∧
                  (∀ c', c' ≠ c → log c' evs = []) ∧
                  log c evs = replicate k false ∧ (reacts = false → k = 0%nat);
  frame_table : ∀ fd c', loop.connections (lp s') !! fd = Some c' →
                         loop.connections (lp s) !! fd = Some c'
}.

(** ** More of the trace *)

(** The handler callbacks made on connection [c], in order. *)
Inductive callback_kind : Set := cb_Opened | cb_React | cb_Closed.

Definition lifecycle_call (c : loc) (e : event) : option callback_kind :=
  match e with
  | ev_OnOpened c' _ _ => if decide (c' = c) then Some cb_Opened else None
  | ev_React c' _ _ => if decide (c' = c) then Some cb_React else None
  | ev_OnClosed c' _ _ => if decide (c' = c) then Some cb_Closed else None
  | _ => None
  end.

Definition lifecycle (c : loc) (tr : list event) : list callback_kind :=
  omap (lifecycle_call c) tr.

(** The keep-alive settings made: descriptor and period in seconds. *)
Definition keepalives (evs : list event) : list (Z * Z) :=
  omap (λ e, match e with ev_SetKeepAlive fd secs _ => Some (fd, secs) | _ => None end) evs.

Definition is_AddWrite (fd : Z) (e : event) : bool :=
  match e with ev_AddWrite fd' _ => bool_decide (fd' = fd) | _ => false end.

(** events that take input from a socket or hand it to the handler *)
Definition reads_input (e : event) : bool :=
  match e with
  | ev_Read _ _ _ | ev_Recvfrom _ _ _ _ | ev_React _ _ _ => true
  | _ => false
  end.

(** The answers (actions) the handler gave to OnOpened, React and OnClosed,
    in order. *)
Definition answer (e : event) : option Action.t :=
  match e with
  | ev_OnOpened _ _ a | ev_React _ _ a | ev_OnClosed _ _ a => Some a
  | _ => None
  end.

Definition answers (evs : list event) : list Action.t := omap answer evs.

(** The state loopOpened hands to handleAction: [s] after the statements of
    loopOpened before the final handleAction ([loopOpened_unfold] below
    joins it to [loopOpened]). *)
Definition loopOpened_prepared (E : Env) (c : loc) (s : State) : State :=
  let svr := loop.svr (lp s) in
  let s0 := set_heap (alter (λ v, conn.set_remoteAddr
                                    (SockaddrToTCPOrUnixAddr E (conn.sa v)) v) c)
              (set_heap (alter (conn.set_localAddr (listener.lnaddr (server.ln svr))) c)
                 (set_heap (alter (conn.set_opened true) c) s)) in
  let '(out, a, ib) := OnOpened E s0 c in
  let s1 := set_heap (alter (conn.set_action a) c)
              (record (ev_OnOpened c out a)
                 (set_heap (alter (conn.set_inBuf (λ _, ib)) c) s0)) in
  let fd := conn.fd (deref c s1) in
  let s2 := if (0 <? options.TCPKeepAlive (server.opts svr)) && listener.tcp (server.ln svr)
            then let secs := options.TCPKeepAlive (server.opts svr) `quot` Second in
                 let kerr := netpoll_SetKeepAlive E (trace s1) fd secs in
                 record (ev_sniffError kerr) (record (ev_SetKeepAlive fd secs kerr) s1)
            else s1 in
  let s3 := if (0 <? length out)%nat
            then record (ev_conn_open c out)
                   (set_heap (alter (conn.set_outBuf (λ _, conn_open E s2 c out)) c) s2)
            else s2 in
  if negb (RingBuffer.Length (conn.outBuf (deref c s3)) =? 0)
  then record (ev_AddWrite fd (poller_AddWrite E (trace s3) fd)) s3
  else s3.

(** ** More of the environment *)

(** A socket that keeps taking output: every write of a non-empty segment
    succeeds and takes at least one byte of it. *)
Definition write_progress (E : Env) : Prop :=
  ∀ h fd p, p ≠ [] → ∃ n, unix_Write E h fd p = (n, None) ∧ 0 < n ≤ Z.of_nat (length p).

(** The poller never refuses to delete a descriptor. *)
Definition always_deletes (E : Env) : Prop := ∀ h fd, poller_Delete E h fd = None.

(** ** The table and the life of a connection *)

(** Every entry of the table is filed under the descriptor of the
    connection it points to, and that connection belongs to this loop. *)
Definition table_keyed (s : State) : Prop :=
  ∀ fd c, loop.connections (lp s) !! fd = Some c →
    ∃ v, heap s !! c = Some v ∧ conn.fd v = fd ∧ conn.loop v = true.

(** The life of a connection as its handler sees it: OnOpened, then any
    number of React calls, then OnClosed, and nothing after that. *)
Definition follows_lifecycle (cbs : list callback_kind) : Prop :=
  ∃ k, cbs `prefix_of` cb_Opened :: replicate k cb_React ++ [cb_Closed].

(** What holds of every state the loop reaches, whatever the poller
    answers: the table is keyed by descriptor, a location not yet allocated
    has no callback on record, and a connection value made for a datagram
    (no owner set) has seen its one React call and no other callback. *)
Record BInv (s : State) : Prop := mkBInv {
  BInv_table : table_keyed s;
  BInv_fresh : ∀ c, heap s !! c = None → lifecycle c (trace s) = [];
  BInv_datagram : ∀ c v, heap s !! c = Some v → conn.loop v = false →
    lifecycle c (trace s) = [cb_React]
}.

(** The state of the callback protocol: a connection still in the table
    has seen no callback (not yet opened) or OnOpened and React calls only
    (opened); one that left the table, or never entered it, has a record
    that follows the life cycle. *)
Record LInv (s : State) : Prop := mkLInv {
  LInv_base : BInv s;
  LInv_life : ∀ c v, heap s !! c = Some v → conn.loop v = true →
    if decide (loop.connections (lp s) !! conn.fd v = Some c) then
      if conn.opened v then ∃ k, lifecycle c (trace s) = cb_Opened :: replicate k cb_React
      else lifecycle c (trace s) = []
    else follows_lifecycle (lifecycle c (trace s))
}.

(** What a procedure run on connection [c] does to the state: it leaves
    the other connections alone, keeps the descriptor, the socket address
    and the owner of [c] (raising its [opened] flag when [opens], leaving it
    as it is otherwise), makes the callbacks [cbs] on
    [c] and none on another connection, and takes the entry of [c]'s
    descriptor out of the table when [closes]. *)
Record moves (c : loc) (opens closes : bool) (cbs : list callback_kind)
    (s s' : State) : Prop := mkMoves {
  mv_others : ∀ c', c' ≠ c → heap s' !! c' = heap s !! c';
  mv_self : option_Forall2
              (λ v v', conn.fd v' = conn.fd v ∧ conn.sa v' = conn.sa v ∧
                       conn.loop v' = conn.loop v ∧
                       conn.opened v' = opens || conn.opened v)
              (heap s !! c) (heap s' !! c);
  mv_trace : ∃ evs, trace s' = trace s ++ evs ∧
               (∀ c', c' ≠ c → lifecycle c' evs = []) ∧ lifecycle c evs = cbs;
  mv_table : loop.connections (lp s') =
               if closes then delete (conn.fd (deref c s)) (loop.connections (lp s))
               else loop.connections (lp s)
}.

(** ... and may end by closing [c]: OnClosed is then the last callback, and
    the entry leaves the table when the poller lets it go. *)
Definition serves (E : Env) (c : loc) (opens : bool) (pre : list callback_kind)
    (s s' : State) : Prop :=
  ∃ closes closed : bool,
    moves c opens closes (pre ++ if closed then [cb_Closed] else []) s s' ∧
    (always_deletes E → closes = closed).

(** * Properties *)

(** ** The monad, unfolded *)

Ltac run_M :=
  unfold mbind, M_bind, mret, M_ret, gets, modify, call, callback, conn_method,
    update, conn_fd, outBuf_Length, server_of, sniffError, PreWrite; simpl.

Lemma bind_run {A B} (m : M A) (f : A → M B) (s : State) :
  (m ≫= f) s = let '(a, s') := m s in f a s'.
Proof. reflexivity. Qed.

Lemma deref_set_lp f c s : deref c (set_lp f s) = deref c s.
Proof. reflexivity. Qed.

Lemma deref_record e c s : deref c (record e s) = deref c s.
Proof. reflexivity. Qed.

Lemma deref_alter f c s :
  deref c (set_heap (alter f c) s) =
  if decide (is_Some (heap s !! c)) then f (deref c s) else deref c s.
Proof.
  unfold deref, set_heap; simpl. rewrite !lookup_total_alt, lookup_alter_eq.
  destruct (decide (is_Some (heap s !! c))) as [[v Hv]|Hn].
  - rewrite Hv. reflexivity.
  - apply eq_None_not_Some in Hn. rewrite Hn. reflexivity.
Qed.

Lemma deref_alter_ne f c c' s :
  c ≠ c' → deref c' (set_heap (alter f c) s) = deref c' s.
Proof.
  intros Hne. unfold deref, set_heap; simpl.
  rewrite !lookup_total_alt, lookup_alter_ne by done. reflexivity.
Qed.

(** ** The ring buffer: what its operations do to the unread bytes *)

Section ring_buffer.
Import RingBuffer.
Local Open Scope nat_scope.

Lemma rb_wfb_wf rb : wfb rb = true ↔ wf rb.
Proof.
  unfold wfb, wf. rewrite !andb_true_iff, orb_true_iff, negb_true_iff.
  rewrite !Nat.ltb_lt, Nat.eqb_eq.
  destruct (isEmpty rb); intuition congruence.
Qed.

Lemma rb_length_bytes rb : wf rb → length (bytes rb) = len rb.
Proof.
  unfold bytes, PreReadAll, len, wf, size.
  destruct rb as [b r w e]; simpl. intros (Hr & Hw & He).
  destruct e; simpl.
  - rewrite He by done. rewrite Nat.eqb_refl. reflexivity.
  - destruct (Nat.eqb_spec r w), (Nat.ltb_spec r w), (Nat.eqb_spec w 0);
      simpl; rewrite ?length_app, ?length_take, ?length_drop; simpl; lia.
Qed.

Lemma rb_mod_wrap a n : n ≤ a < n + n → a mod n = a - n.
Proof.
  intros H. symmetry. apply (Nat.mod_unique a n 1); lia.
Qed.

Lemma rb_Advance_wf n rb : wf rb → wf (Advance n rb).
Proof.
  unfold Advance, Length, wf, size. intros (Hr & Hw & He).
  destruct (Z.leb_spec n 0); [done|].
  destruct (Z.ltb_spec n (Z.of_nat (len rb))); simpl.
  - split_and!; [apply Nat.mod_upper_bound; lia|done|].
    intros Hem. exfalso. unfold len in *. rewrite Hem, He in * by done.
    rewrite Nat.eqb_refl in *. lia.
  - split_and!; [lia|lia|done].
Qed.

Lemma rb_Advance_bytes n rb :
  wf rb → bytes (Advance n rb) = drop (Z.to_nat n) (bytes rb).
Proof.
  intros Hwf. pose proof (rb_length_bytes rb Hwf) as Hlen.
  unfold Advance, Length.
  destruct (Z.leb_spec n 0) as [Hn|Hn].
  { replace (Z.to_nat n) with 0 by lia. reflexivity. }
  destruct (Z.ltb_spec n (Z.of_nat (len rb))) as [Hlt|Hge]; last first.
  { rewrite drop_ge by lia. reflexivity. }
  set (k := Z.to_nat n). assert (0 < k < len rb) as Hk by lia. clearbody k.
  clear Hlen Hn Hlt n. revert Hwf Hk.
  unfold bytes, PreReadAll, len, wf, size.
  destruct rb as [b r w e]; simpl. intros (Hr & Hw & He) Hk.
  destruct e; simpl.
  { rewrite He, Nat.eqb_refl in Hk by done. lia. }
  destruct (Nat.ltb_spec r w) as [Hrw|Hrw].
  - destruct (Nat.eqb_spec r w); [lia|].
    rewrite Nat.mod_small by lia.
    destruct (Nat.ltb_spec (r + k) w); [|lia].
    simpl. rewrite !app_nil_r, !take_drop_commute, drop_drop.
    replace (r + k + (w - (r + k))) with (r + (w - r)) by lia. reflexivity.
  - assert (0 < k < length b - r + w) as Hk' by (destruct (Nat.eqb_spec r w); lia).
    clear Hk.
    destruct (Nat.lt_ge_cases (r + k) (length b)) as [Hs|Hs].
    + rewrite Nat.mod_small by lia.
      destruct (Nat.ltb_spec (r + k) w); [lia|].
      rewrite drop_app, drop_drop, length_drop.
      replace (k - (length b - r)) with 0 by lia. reflexivity.
    + rewrite rb_mod_wrap by lia.
      destruct (Nat.ltb_spec (r + k - length b) w); [|lia].
      destruct (Nat.eqb_spec w 0); [exfalso; lia|]. simpl.
      rewrite drop_app, drop_drop, length_drop.
      rewrite (drop_ge b (r + k)) by lia. simpl.
      rewrite take_drop_commute, app_nil_r.
      replace (k - (length b - r)) with (r + k - length b) by lia.
      replace (r + k - length b + (w - (r + k - length b))) with w by lia.
      reflexivity.
Qed.


Lemma rb_tail_nonempty rb top tail :
  wf rb → PreReadAll rb = (top, Some tail) → tail ≠ [].
Proof.
  unfold PreReadAll, wf, size. intros (Hr & Hw & He).
  destruct (isEmpty rb); [discriminate|].
  destruct (r rb <? w rb); [discriminate|].
  destruct (Nat.eqb_spec (w rb) 0); [discriminate|].
  intros [= _ <-] Htl. apply (f_equal length) in Htl.
  rewrite length_take in Htl. simpl in Htl. lia.
Qed.

Lemma rb_grow_spec rb :
  wf rb → len rb = size rb →
  wf (grow rb) ∧ bytes (grow rb) = bytes rb ∧ len (grow rb) < size (grow rb).
Proof.
  intros Hwf Hfull. pose proof (rb_length_bytes rb Hwf) as Hlen.
  assert (isEmpty rb = false) as Hne.
  { destruct Hwf as (Hr & Hw & He). destruct (isEmpty rb) eqn:Hem; [|done].
    unfold len in Hfull. rewrite Hem, He, Nat.eqb_refl in Hfull by done. lia. }
  assert (0 < size rb) as Hpos by (destruct Hwf; lia).
  unfold grow. rewrite Hfull, Hne. rewrite Hfull in Hlen.
  generalize dependent (bytes rb). generalize dependent (size rb).
  intros n _ Hpos l Hlen.
  unfold wf, bytes, len, size, PreReadAll; cbn [buf r w isEmpty].
  rewrite length_app, length_replicate, Hlen.
  destruct (Nat.eqb_spec 0 n); [lia|].
  destruct (Nat.ltb_spec 0 n); [|lia].
  rewrite Nat.sub_0_r, app_nil_r.
  split_and!; try lia.
  rewrite drop_0, take_app_le by lia. apply take_ge. lia.
Qed.


Lemma rb_push_room rb b :
  wf rb → len rb < size rb →
  let rb' := mk (<[w rb := b]> (buf rb)) (r rb) (S (w rb) mod size rb) false in
  wf rb' ∧ bytes rb' = bytes rb ++ [b].
Proof.
  unfold wf, bytes, len, size, PreReadAll.
  destruct rb as [l r w e]; cbn [buf RingBuffer.r RingBuffer.w isEmpty].
  intros (Hr & Hw & He) Hroom.
  rewrite length_insert.
  assert (S w mod length l < length l) by (apply Nat.mod_upper_bound; lia).
  split; [split_and!; [done|done|discriminate]|].
  destruct (decide (S w = length l)) as [Hlast|Hlast].
  - (* the write position wraps to the front *)
    rewrite Hlast, Nat.Div0.mod_same. clear H.
    destruct (Nat.ltb_spec r 0); [lia|]. rewrite Nat.eqb_refl.
    assert (drop r (<[w:=b]> l) = take (w - r) (drop r l) ++ [b]) as ->.
    { destruct (decide (r ≤ w)).
      - rewrite drop_insert_ge by lia.
        rewrite <- (take_drop (w - r) (drop r l)) at 1.
        rewrite insert_app_r_alt by (rewrite length_take, length_drop; lia).
        rewrite length_take, length_drop, drop_drop.
        replace (w - r - (w - r) `min` (length l - r)) with 0 by lia.
        replace (r + (w - r)) with w by lia.
        destruct (drop w l) as [|x [|y t]] eqn:Hd; simpl.
        + apply (f_equal length) in Hd. rewrite length_drop in Hd. simpl in Hd. lia.
        + reflexivity.
        + apply (f_equal length) in Hd. rewrite length_drop in Hd. simpl in Hd. lia.
      - exfalso. destruct e; [lia|].
        destruct (Nat.eqb_spec r w); [lia|]. destruct (Nat.ltb_spec r w); lia. }
    destruct e; simpl.
    + rewrite He by done. rewrite Nat.sub_diag, take_0. reflexivity.
    + destruct (Nat.ltb_spec r w).
      * simpl. rewrite !app_nil_r. reflexivity.
      * assert (r = w) as -> by lia. rewrite Nat.eqb_refl in Hroom. lia.
  - rewrite Nat.mod_small by lia. clear H.
    destruct (Nat.eqb_spec (S w) 0); [lia|].
    destruct e; simpl.
    + (* empty *)
      rewrite He by done. destruct (Nat.ltb_spec w (S w)); [|lia].
      replace (S w - w) with 1 by lia.
      rewrite drop_insert_ge by lia. rewrite Nat.sub_diag.
      destruct (drop w l) as [|x t] eqn:Hd; simpl.
      * apply (f_equal length) in Hd. rewrite length_drop in Hd. simpl in Hd. lia.
      * reflexivity.
    + destruct (Nat.ltb_spec r w) as [Hrw|Hrw].
      * (* one segment, extended at its end *)
        destruct (Nat.ltb_spec r (S w)); [|lia]. simpl. rewrite !app_nil_r.
        rewrite !take_drop_commute. f_equal.
        replace (r + (S w - r)) with (S w) by lia.
        replace (r + (w - r)) with w by lia.
        rewrite (take_S_r _ _ b) by (apply list_lookup_insert_eq; lia).
        rewrite take_insert_ge by lia. rewrite drop_app_le by (rewrite length_take; lia).
        reflexivity.
      * (* two segments, the second extended *)
        destruct (Nat.eqb_spec r w); [lia|].
        destruct (Nat.ltb_spec r (S w)); [lia|].
        rewrite drop_insert_lt by lia.
        rewrite (take_S_r _ _ b) by (apply list_lookup_insert_eq; lia).
        rewrite take_insert_ge by lia.
        destruct (Nat.eqb_spec w 0) as [->|]; simpl; rewrite ?app_nil_r, <- ?app_assoc; reflexivity.
Qed.

Lemma rb_push_spec rb b : wf rb → wf (push rb b) ∧ bytes (push rb b) = bytes rb ++ [b].
Proof.
  intros Hwf. unfold push.
  pose proof (rb_length_bytes rb Hwf) as Hlen.
  destruct (Nat.eqb_spec (len rb) (size rb)) as [Hfull|Hroom].
  - destruct (rb_grow_spec rb Hwf Hfull) as (Hwf' & Hb & Hlt).
    rewrite <- Hb. apply rb_push_room; done.
  - apply rb_push_room; [done|].
    assert (len rb ≤ size rb); [|lia].
    rewrite <- Hlen. destruct Hwf as (Hr & Hw & He).
    unfold bytes, PreReadAll, size in *.
    destruct (isEmpty rb); simpl; [lia|].
    destruct (Nat.ltb_spec (r rb) (w rb)); simpl;
      [|destruct (Nat.eqb_spec (w rb) 0); simpl];
      rewrite ?length_app, ?length_take, ?length_drop; simpl; lia.
Qed.

Lemma rb_Write_spec p rb : wf rb → wf (Write p rb) ∧ bytes (Write p rb) = bytes rb ++ p.
Proof.
  unfold Write. revert rb. induction p as [|b p IH]; intros rb Hwf; simpl.
  - rewrite app_nil_r. done.
  - destruct (rb_push_spec rb b Hwf) as [Hwf' Hb].
    destruct (IH _ Hwf') as [Hwf'' Hb'].
    split; [done|]. rewrite Hb', Hb, <- app_assoc. reflexivity.
Qed.

End ring_buffer.


(** ** What the procedures do to the state *)

Lemma loopCloseConn_run (E : Env) (c : loc) (err : option error) (s : State) :
  ∃ a ib evs tbl,
    loopCloseConn E c err s =
      (closing a,
       mkState (loop.set_connections (λ _, tbl) (lp s))
               (alter (conn.set_inBuf (λ _, ib)) c (heap s))
               (trace s ++ evs)) ∧
    Forall (λ e, is_close_event e = true) evs ∧
    existsb is_close_event evs = true ∧
    (tbl = loop.connections (lp s) ∨
     tbl = delete (conn.fd (deref c s)) (loop.connections (lp s))).
Proof.
  destruct s as [[i p t sv] h tr].
  unfold loopCloseConn. run_M.
  destruct (is_nil _); simpl;
    match goal with |- context [OnClosed E ?x c err] =>
      destruct (OnClosed E x c err) as [a ib] end;
    exists a, ib; unfold record, set_lp, set_heap, loop.set_connections; simpl;
    rewrite <- ?app_assoc; simpl;
    (eexists _, _; split;
     [destruct a; reflexivity | split; [repeat constructor | split; [reflexivity | eauto]]]).
Qed.

Lemma handleAction_run (E : Env) (c : loc) (s : State) :
  ∃ r f evs tbl,
    handleAction E c s =
      (r, mkState (loop.set_connections (λ _, tbl) (lp s))
                  (alter (conn.set_inBuf f) c (heap s))
                  (trace s ++ evs)) ∧
    Forall (λ e, is_close_event e = true) evs ∧
    (conn.action (deref c s) ≠ Action.Close → evs = []) ∧
    (tbl = loop.connections (lp s) ∨
     tbl = delete (conn.fd (deref c s)) (loop.connections (lp s))).
Proof.
  assert (∀ r : option error, ∃ r' f evs tbl,
    (r, s) = (r', mkState (loop.set_connections (λ _, tbl) (lp s))
                  (alter (conn.set_inBuf f) c (heap s))
                  (trace s ++ evs)) ∧
    Forall (λ e, is_close_event e = true) evs ∧
    (conn.action (deref c s) ≠ Action.Close → evs = []) ∧
    (tbl = loop.connections (lp s) ∨
     tbl = delete (conn.fd (deref c s)) (loop.connections (lp s)))) as Hid.
  { intros r. exists r, id, [], (loop.connections (lp s)).
    split_and!; [|constructor|done|by left].
    destruct s as [[] h tr]; unfold loop.set_connections; simpl.
    rewrite app_nil_r. do 2 f_equal.
    apply map_eq. intros i. rewrite lookup_alter.
    case_decide as Hd; [|done]. rewrite Hd. destruct (h !! i) as [[]|]; reflexivity. }
  unfold handleAction. run_M.
  destruct (conn.action (deref c s)) eqn:Ha; try apply Hid.
  destruct (loopCloseConn_run E c None s) as (a & ib & evs & tbl & -> & Hev & _ & Htbl).
  exists (closing a), (λ _, ib), evs, tbl. split_and!; done.
Qed.

Lemma wf_live (c : loc) (s : State) :
  RingBuffer.wf (conn.outBuf (deref c s)) → is_Some (heap s !! c).
Proof.
  unfold deref. rewrite lookup_total_alt.
  destruct (heap s !! c); [eauto|].
  intros (Hr & _). simpl in Hr. unfold RingBuffer.size in Hr. simpl in Hr. lia.
Qed.

Lemma deref_live_alter f c s :
  is_Some (heap s !! c) → deref c (set_heap (alter f c) s) = f (deref c s).
Proof. intros H. rewrite deref_alter. by rewrite decide_True. Qed.

Lemma live_alter f c c' s :
  is_Some (heap (set_heap (alter f c) s) !! c') ↔ is_Some (heap s !! c').
Proof.
  simpl. rewrite lookup_alter. case_decide as Hd; [|done].
  rewrite Hd, fmap_is_Some. done.
Qed.

Lemma rb_Length_bytes rb :
  RingBuffer.wf rb → RingBuffer.Length rb = Z.of_nat (length (RingBuffer.bytes rb)).
Proof. intros H. unfold RingBuffer.Length. by rewrite rb_length_bytes. Qed.

Lemma loopWrite_end_run (E : Env) (c : loc) (s : State) :
  ∃ evs, loopWrite_end E c s = (None, mkState (lp s) (heap s) (trace s ++ evs)) ∧
    evs = if RingBuffer.Length (conn.outBuf (deref c s)) =? 0
          then [ev_ModRead (conn.fd (deref c s))
                  (poller_ModRead E (trace s) (conn.fd (deref c s)))]
          else [].
Proof.
  unfold loopWrite_end. run_M.
  destruct (RingBuffer.Length (conn.outBuf (deref c s)) =? 0); simpl.
  - eexists. split; reflexivity.
  - exists []. rewrite app_nil_r. destruct s; done.
Qed.

Lemma loopWrite_unfold (E : Env) (c : loc) (s : State) :
  loopWrite E c s =
    let fd := conn.fd (deref c s) in
    let '(top, tail) := RingBuffer.PreReadAll (conn.outBuf (deref c s)) in
    let s0 := record ev_PreWrite s in
    let '(n, err) := unix_Write E (trace s0) fd top in
    let s1 := record (ev_Write fd top n err) s0 in
    if negb (is_nil err) then
      if is_EAGAIN err then (None, s1) else loopCloseConn E c err s1
    else
      let s2 := set_heap (alter (conn.set_outBuf (RingBuffer.Advance n)) c) s1 in
      match (if Z.of_nat (length top) =? n then tail else None) with
      | Some tail =>
          let '(n', err') := unix_Write E (trace s2) fd tail in
          let s3 := record (ev_Write fd tail n' err') s2 in
          if negb (is_nil err') then
            if is_EAGAIN err' then (None, s3) else loopCloseConn E c err' s3
          else
            loopWrite_end E c
              (set_heap (alter (conn.set_outBuf (RingBuffer.Advance n')) c) s3)
      | None => loopWrite_end E c s2
      end.
Proof.
  unfold loopWrite. run_M. unfold deref, record, set_heap. simpl.
  destruct (RingBuffer.PreReadAll (conn.outBuf (heap s !!! c))) as [top tail].
  simpl.
  destruct (unix_Write E (trace s ++ [ev_PreWrite]) (conn.fd (heap s !!! c)) top)
    as [n [e|]]; simpl; [destruct e; reflexivity|].
  destruct (if Z.of_nat (length top) =? n then tail else None) as [tl|];
    [|reflexivity]. simpl.
  match goal with |- context [unix_Write E ?h ?f tl] =>
    destruct (unix_Write E h f tl) as [n' [e'|]] end; simpl;
    [destruct e'|]; reflexivity.
Qed.

Lemma is_EAGAIN_true (err : option error) : is_EAGAIN err = true ↔ err = Some EAGAIN.
Proof. destruct err as [[]|]; simpl; split; congruence. Qed.

Lemma close_events_silent (evs : list event) :
  Forall (λ e, is_close_event e = true) evs →
  writes evs = [] ∧ (∀ fd, delivered fd evs = []) ∧
  (∀ fd, existsb (is_ModRead fd) evs = false) ∧ (∀ c, log c evs = []).
Proof.
  induction 1 as [|e evs He _ (IH1 & IH2 & IH3 & IH4)]; [done|].
  unfold writes, delivered, log in *.
  destruct e; try discriminate He; simpl; rewrite ?IH1, ?IH2, ?IH3, ?IH4; done.
Qed.

Lemma alter_inBuf_fields f c c' (h : gmap loc conn.t) :
  conn.fd (alter (conn.set_inBuf f) c h !!! c') = conn.fd (h !!! c') ∧
  conn.outBuf (alter (conn.set_inBuf f) c h !!! c') = conn.outBuf (h !!! c') ∧
  conn.opened (alter (conn.set_inBuf f) c h !!! c') = conn.opened (h !!! c') ∧
  conn.loop (alter (conn.set_inBuf f) c h !!! c') = conn.loop (h !!! c') ∧
  conn.action (alter (conn.set_inBuf f) c h !!! c') = conn.action (h !!! c').
Proof.
  rewrite lookup_total_alter. case_decide as Hd; [|done]. rewrite Hd.
  rewrite lookup_total_alt. destruct (h !! c'); done.
Qed.

Lemma delivered_app fd evs1 evs2 :
  delivered fd (evs1 ++ evs2) = delivered fd evs1 ++ delivered fd evs2.
Proof. apply flat_map_app. Qed.

Lemma writes_app evs1 evs2 : writes (evs1 ++ evs2) = writes evs1 ++ writes evs2.
Proof. apply omap_app. Qed.

Lemma log_app c evs1 evs2 : log c (evs1 ++ evs2) = log c evs1 ++ log c evs2.
Proof. apply omap_app. Qed.

Lemma loopWrite_run (E : Env) (c : loc) (s : State) :
  write_contract E →
  RingBuffer.wf (conn.outBuf (deref c s)) →
  let fd := conn.fd (deref c s) in
  let rb := conn.outBuf (deref c s) in
  ∃ r s' evs,
    loopWrite E c s = (r, s') ∧
    trace s' = trace s ++ evs ∧
    conn.fd (deref c s') = fd ∧
    conn.outBuf (deref c s') = advanced (writes evs) rb ∧
    RingBuffer.wf (conn.outBuf (deref c s')) ∧
    delivered fd evs ++ RingBuffer.bytes (conn.outBuf (deref c s')) = RingBuffer.bytes rb ∧
    ((∃ n e, writes evs = [((RingBuffer.PreReadAll rb).1, n, e)] ∧
             ¬ (e = None ∧ n = Z.of_nat (length (RingBuffer.PreReadAll rb).1) ∧
                is_Some (RingBuffer.PreReadAll rb).2) ∧
             (e = Some EAGAIN → r = None)) ∨
     (∃ tail n e, (RingBuffer.PreReadAll rb).2 = Some tail ∧
             writes evs = [((RingBuffer.PreReadAll rb).1,
                            Z.of_nat (length (RingBuffer.PreReadAll rb).1), None);
                           (tail, n, e)] ∧
             (e = Some EAGAIN → r = None))) ∧
    (existsb is_close_event evs = false →
       r = None ∧
       (0 < RingBuffer.Length rb ∨ Forall (λ w, w.2 ≠ Some EAGAIN) (writes evs) →
        (existsb (is_ModRead fd) evs = true ↔
         RingBuffer.Length (conn.outBuf (deref c s')) = 0))).
Proof.
  intros Hwc Hwf fd rb. pose proof (wf_live c s Hwf) as Hlive.
  rewrite loopWrite_unfold. fold fd. fold rb.
  destruct (RingBuffer.PreReadAll rb) as [top tail] eqn:Hpre.
  assert (RingBuffer.bytes rb = top ++ default [] tail) as Hbytes.
  { unfold RingBuffer.bytes. rewrite Hpre. reflexivity. }
  cbv zeta.
  destruct (unix_Write E (trace (record ev_PreWrite s)) fd top) as [n1 e1] eqn:Hw1.
  assert (∀ f, deref c (set_heap (alter f c) (record (ev_Write fd top n1 e1)
                 (record ev_PreWrite s))) = f (deref c s)) as Hd2.
  { intros f. rewrite deref_live_alter by done. reflexivity. }
  destruct e1 as [e1|]; cbn [is_nil negb].
  - (* the first write failed *)
    destruct (is_EAGAIN (Some e1)) eqn:Hag.
    + apply is_EAGAIN_true in Hag as [= ->].
      eexists None, _, [ev_PreWrite; ev_Write fd top n1 (Some EAGAIN)].
      split; [reflexivity|].
      split_and!.
      * simpl. rewrite <- app_assoc. reflexivity.
      * reflexivity.
      * reflexivity.
      * done.
      * reflexivity.
      * left. exists n1, (Some EAGAIN). simpl. split_and!; [done| |done].
        intros (? & _); discriminate.
      * intros _. split; [done|]. intros [Hpos|Hall]; simpl.
        -- change (deref c _) with (deref c s). fold rb. split; [discriminate|lia].
        -- simpl in Hall. inversion Hall as [|? ? Hw]. simpl in Hw. done.
    + destruct (loopCloseConn_run E c (Some e1)
                  (record (ev_Write fd top n1 (Some e1)) (record ev_PreWrite s)))
        as (a & ib & cevs & tbl & Hrun & Hcl & Hex & _).
      destruct (close_events_silent cevs Hcl) as (Hw & Hdl & Hmr & Hlog).
      destruct (alter_inBuf_fields (λ _, ib) c c (heap s)) as (Hfd & Hob & _).
      eexists _, _, ([ev_PreWrite; ev_Write fd top n1 (Some e1)] ++ cevs).
      split; [exact Hrun|].
      rewrite writes_app, delivered_app, existsb_app, Hw, Hdl, Hex.
      unfold deref; simpl. rewrite Hfd, Hob.
      split_and!; try done.
      * rewrite <- !app_assoc. reflexivity.
      * left. exists n1, (Some e1). split_and!; [done| |].
        -- intros (? & _); discriminate.
        -- intros [= ->]. discriminate Hag.
  - (* the first write took [n1] bytes *)
    pose proof (Hwc _ _ _ _ Hw1) as Hn1.
    pose proof (rb_Advance_wf n1 rb Hwf) as Hwf1.
    pose proof (rb_Advance_bytes n1 rb Hwf) as Hb1.
    destruct (if Z.of_nat (length top) =? n1 then tail else None) as [tl|] eqn:Hsnd.
    + (* in full, and there is a second segment *)
      destruct (Z.eqb_spec (Z.of_nat (length top)) n1) as [Hfull|]; [|discriminate].
      subst tail. simpl in Hbytes.
      match goal with |- context [unix_Write E ?h fd tl] =>
        destruct (unix_Write E h fd tl) as [n2 e2] eqn:Hw2 end.
      set (s2 := set_heap (alter (conn.set_outBuf (RingBuffer.Advance n1)) c)
                   (record (ev_Write fd top n1 None) (record ev_PreWrite s))) in *.
      assert (deref c s2 = conn.set_outBuf (RingBuffer.Advance n1) (deref c s)) as Hs2
        by apply Hd2.
      assert (is_Some (heap s2 !! c)) as Hlive2 by (apply live_alter; done).
      assert (trace s2 = trace s ++ [ev_PreWrite; ev_Write fd top n1 None]) as Htr2
        by (simpl; rewrite <- app_assoc; reflexivity).
      assert (RingBuffer.bytes (RingBuffer.Advance n1 rb) = tl) as Hb1'.
      { rewrite Hb1, Hbytes, <- Hfull, Nat2Z.id. apply drop_app_length. }
      assert (take (Z.to_nat n1) top = top) as Htk1 by (apply take_ge; lia).
      pose proof (rb_tail_nonempty _ _ _ Hwf Hpre) as Htl.
      destruct e2 as [e2|]; cbn [is_nil negb].
      * destruct (is_EAGAIN (Some e2)) eqn:Hag.
        -- apply is_EAGAIN_true in Hag as [= ->].
           eexists None, _,
             [ev_PreWrite; ev_Write fd top n1 None; ev_Write fd tl n2 (Some EAGAIN)].
           split; [reflexivity|].
           change (deref c (record _ s2)) with (deref c s2). rewrite Hs2.
           cbn [conn.fd conn.outBuf conn.set_outBuf]. fold rb. fold fd.
           split_and!.
           ++ simpl. rewrite <- !app_assoc. reflexivity.
           ++ reflexivity.
           ++ reflexivity.
           ++ done.
           ++ simpl. rewrite decide_True by done. rewrite Htk1, Hb1', Hbytes, app_nil_r.
              reflexivity.
           ++ right. exists tl, n2, (Some EAGAIN). simpl. rewrite Hfull. done.
           ++ intros _. split; [done|]. intros _. simpl.
              rewrite rb_Length_bytes, Hb1' by done. split; [discriminate|].
              destruct tl; [done|simpl; lia].
        -- destruct (loopCloseConn_run E c (Some e2) (record (ev_Write fd tl n2 (Some e2)) s2))
             as (a & ib & cevs & tbl & Hrun & Hcl & Hex & _).
           destruct (close_events_silent cevs Hcl) as (Hw & Hdl & Hmr & Hlog).
           destruct (alter_inBuf_fields (λ _, ib) c c (heap s2)) as (Hfd & Hob & _).
           eexists _, _, ([ev_PreWrite; ev_Write fd top n1 None;
                           ev_Write fd tl n2 (Some e2)] ++ cevs).
           split; [exact Hrun|].
           rewrite writes_app, delivered_app, existsb_app, Hw, Hdl, Hex.
           unfold deref; cbn [heap record]. rewrite Hfd, Hob.
           change (heap s2 !!! c) with (deref c s2). rewrite Hs2.
           cbn [conn.fd conn.outBuf conn.set_outBuf]. fold rb. fold fd.
           split_and!; try done.
           ++ cbn [trace record]. rewrite Htr2, <- !app_assoc. reflexivity.
           ++ simpl. rewrite decide_True by done. rewrite Htk1, Hb1', Hbytes, !app_nil_r.
              reflexivity.
           ++ right. exists tl, n2, (Some e2). simpl. rewrite Hfull. split_and!; try done.
              intros [= ->]. discriminate Hag.
      * pose proof (Hwc _ _ _ _ Hw2) as Hn2.
        set (s4 := set_heap (alter (conn.set_outBuf (RingBuffer.Advance n2)) c)
                     (record (ev_Write fd tl n2 None) s2)).
        assert (deref c s4 = conn.set_outBuf (RingBuffer.Advance n2) (deref c s2)) as Hs4.
        { unfold s4. rewrite deref_live_alter by done. reflexivity. }
        destruct (loopWrite_end_run E c s4) as (mevs & -> & Hmevs).
        rewrite Hs4, Hs2 in Hmevs. cbn [conn.fd conn.outBuf conn.set_outBuf] in Hmevs.
        fold rb in Hmevs. fold fd in Hmevs.
        eexists None, _, ([ev_PreWrite; ev_Write fd top n1 None;
                           ev_Write fd tl n2 None] ++ mevs).
        split; [reflexivity|].
        change (deref c (mkState (lp s4) (heap s4) _)) with (deref c s4).
        rewrite Hs4, Hs2. cbn [conn.fd conn.outBuf conn.set_outBuf]. fold rb. fold fd.
        pose proof (rb_Advance_wf n2 _ Hwf1) as Hwf2.
        pose proof (rb_Advance_bytes n2 _ Hwf1) as Hb2. rewrite Hb1' in Hb2.
        rewrite writes_app, delivered_app, !existsb_app.
        assert (writes mevs = [] ∧ delivered fd mevs = [] ∧
                existsb (is_ModRead fd) mevs =
                  (RingBuffer.Length (RingBuffer.Advance n2 (RingBuffer.Advance n1 rb)) =? 0))
          as (Hw & Hdl & Hmr).
        { rewrite Hmevs. destruct (_ =? 0); simpl; [|done].
          rewrite bool_decide_eq_true_2 by done. done. }
        rewrite Hw, Hdl, Hmr.
        split_and!; try done.
        -- cbn [trace s4 set_heap record]. rewrite Htr2, <- !app_assoc. reflexivity.
        -- simpl. rewrite !decide_True by done. rewrite Htk1, Hb2, Hbytes, !app_nil_r.
           rewrite <- !app_assoc, take_drop. reflexivity.
        -- right. exists tl, n2, None. simpl. rewrite Hfull. done.
        -- intros _. split; [done|]. intros _. simpl. apply Z.eqb_eq.
    + (* the first segment is all there was to try *)
      set (s2 := set_heap (alter (conn.set_outBuf (RingBuffer.Advance n1)) c)
                   (record (ev_Write fd top n1 None) (record ev_PreWrite s))) in *.
      assert (deref c s2 = conn.set_outBuf (RingBuffer.Advance n1) (deref c s)) as Hs2
        by apply Hd2.
      destruct (loopWrite_end_run E c s2) as (mevs & -> & Hmevs).
      rewrite Hs2 in Hmevs. cbn [conn.fd conn.outBuf conn.set_outBuf] in Hmevs.
      fold rb in Hmevs. fold fd in Hmevs.
      eexists None, _, ([ev_PreWrite; ev_Write fd top n1 None] ++ mevs).
      split; [reflexivity|].
      change (deref c (mkState (lp s2) (heap s2) _)) with (deref c s2).
      rewrite Hs2. cbn [conn.fd conn.outBuf conn.set_outBuf]. fold rb. fold fd.
      rewrite writes_app, delivered_app, !existsb_app.
      assert (writes mevs = [] ∧ delivered fd mevs = [] ∧
              existsb (is_ModRead fd) mevs =
                (RingBuffer.Length (RingBuffer.Advance n1 rb) =? 0))
        as (Hw & Hdl & Hmr).
      { rewrite Hmevs. destruct (_ =? 0); simpl; [|done].
        rewrite bool_decide_eq_true_2 by done. done. }
      rewrite Hw, Hdl, Hmr.
      split_and!; try done.
      * cbn [trace s2 set_heap record]. rewrite <- !app_assoc. reflexivity.
      * simpl. rewrite decide_True by done. rewrite Hb1, Hbytes, !app_nil_r.
        rewrite drop_app_le by lia. rewrite app_assoc, take_drop. reflexivity.
      * left. exists n1, None. simpl. split_and!; try done.
        intros (_ & -> & Htail). rewrite Z.eqb_refl in Hsnd.
        destruct Htail as [? ->]. discriminate.
      * intros _. split; [done|]. intros _. simpl. apply Z.eqb_eq.
Qed.

Lemma Action_eqb_eq (a b : Action.t) : Action.eqb a b = true ↔ a = b.
Proof.
  destruct a, b; simpl; split; try congruence; try done.
  - intros H%Z.eqb_eq. congruence.
  - intros [= ->]. apply Z.eqb_refl.
Qed.

Lemma loopRead_unfold (E : Env) (c : loc) (s : State) :
  loopRead E c s =
    let fd := conn.fd (deref c s) in
    let '(n, err, pkt') := unix_Read E (trace s) fd (loop.packet (lp s)) in
    let s1 := set_lp (loop.set_packet pkt') (record (ev_Read fd n err) s) in
    if (n =? 0) || negb (is_nil err) then
      if is_EAGAIN err then (None, s1) else loopCloseConn E c err s1
    else handleAction E c (loopRead_received E c n s1).
Proof.
  unfold loopRead, loopRead_received. run_M.
  destruct (unix_Read E (trace s) (conn.fd (deref c s)) (loop.packet (lp s)))
    as [[n err] pkt']. simpl.
  destruct ((n =? 0) || negb (is_nil err)); [destruct (is_EAGAIN err); reflexivity|].
  simpl.
  match goal with |- context [React E ?x c] => destruct (React E x c) as [[out a] ib] end.
  simpl. destruct (0 <? length out)%nat; simpl; [reflexivity|].
  destruct (negb (Action.eqb a Action.DataRead)); reflexivity.
Qed.

Lemma loopRead_received_run (E : Env) (c : loc) (n : Z) (s1 : State) :
  is_Some (heap s1 !! c) →
  let s2 := set_heap (alter (conn.set_extra (Z.to_nat n)) c) s1 in
  let s4 := loopRead_received E c n s1 in
  ∃ out a ib,
    React E s2 c = (out, a, ib) ∧
    lp s4 = lp s1 ∧
    trace s4 = trace s1 ++ ev_React c out a ::
                 (if (0 <? length out)%nat then [ev_conn_write c out] else []) ∧
    is_Some (heap s4 !! c) ∧
    conn.action (deref c s4) = a ∧
    conn.fd (deref c s4) = conn.fd (deref c s1) ∧
    conn.inBuf (deref c s4) =
      (if (length out =? 0)%nat && negb (Action.eqb a Action.DataRead)
       then RingBuffer.Write (take (Z.to_nat n) (loop.packet (lp s1))) ib
       else ib).
Proof.
  intros Hlive s2 s4. unfold s4, loopRead_received. fold s2.
  destruct (React E s2 c) as [[out a] ib] eqn:Hre.
  exists out, a, ib. split; [done|].
  assert (is_Some (heap s2 !! c)) as Hl2 by (apply live_alter; done).
  set (s2' := set_heap (alter (conn.set_inBuf (λ _, ib)) c) s2).
  assert (is_Some (heap s2' !! c)) as Hl2' by (apply live_alter; done).
  set (s3 := set_heap (alter (conn.set_action a) c) (record (ev_React c out a) s2')).
  assert (is_Some (heap s3 !! c)) as Hl3 by (apply live_alter; done).
  assert (deref c s3 = conn.set_action a (conn.set_inBuf (λ _, ib)
            (conn.set_extra (Z.to_nat n) (deref c s1)))) as Hd3.
  { unfold s3. rewrite deref_live_alter by done. rewrite deref_record.
    unfold s2'. rewrite deref_live_alter by done.
    unfold s2. rewrite deref_live_alter by done. reflexivity. }
  assert (trace s3 = trace s1 ++ [ev_React c out a]) as Htr3 by reflexivity.
  destruct (Nat.ltb_spec 0 (length out)) as [Hout|Hout].
  - replace (length out =? 0)%nat with false by (symmetry; apply Nat.eqb_neq; lia).
    rewrite deref_record, deref_live_alter, Hd3 by done.
    split_and!; try done.
    + cbn [trace record set_heap]. rewrite Htr3, <- app_assoc. reflexivity.
    + apply live_alter. done.
  - replace (length out =? 0)%nat with true by (symmetry; apply Nat.eqb_eq; lia).
    simpl. destruct (negb (Action.eqb a Action.DataRead)).
    + rewrite deref_live_alter, Hd3 by done.
      split_and!; try done. apply live_alter. done.
    + rewrite Hd3. split_and!; done.
Qed.

Lemma handleAction_quiet (E : Env) (c : loc) (s : State) :
  conn.action (deref c s) ≠ Action.Close →
  handleAction E c s = (closing (conn.action (deref c s)), s).
Proof.
  intros Hne. unfold handleAction. run_M.
  destruct (conn.action (deref c s)); done.
Qed.

Lemma loopWrite_retries_run (E : Env) (c : loc) (k : nat) (s : State) :
  write_contract E →
  RingBuffer.wf (conn.outBuf (deref c s)) →
  let fd := conn.fd (deref c s) in
  let rb := conn.outBuf (deref c s) in
  ∃ s' evs,
    loopWrite_retries E c k s = (tt, s') ∧
    trace s' = trace s ++ evs ∧
    conn.fd (deref c s') = fd ∧
    conn.outBuf (deref c s') = advanced (writes evs) rb ∧
    RingBuffer.wf (conn.outBuf (deref c s')) ∧
    delivered fd evs ++ RingBuffer.bytes (conn.outBuf (deref c s')) = RingBuffer.bytes rb.
Proof.
  intros Hwc. revert s. induction k as [|k IH]; intros s Hwf; simpl.
  - exists s, []. rewrite app_nil_r. done.
  - destruct (loopWrite_run E c s Hwc Hwf)
      as (r & s1 & evs1 & Hrun & Htr1 & Hfd1 & Hob1 & Hwf1 & Hb1 & _).
    destruct (IH s1 Hwf1) as (s' & evs2 & Hrun2 & Htr2 & Hfd2 & Hob2 & Hwf2 & Hb2).
    exists s', (evs1 ++ evs2).
    unfold mbind, M_bind. rewrite Hrun, Hrun2.
    split_and!; try done.
    + rewrite Htr2, Htr1, app_assoc. reflexivity.
    + congruence.
    + rewrite Hob2, Hob1, writes_app. unfold advanced. rewrite foldl_app. reflexivity.
    + rewrite Hfd1 in Hb2. rewrite delivered_app, <- app_assoc, Hb2. exact Hb1.
Qed.

(** *** Frames *)

Lemma silent_log c e : silent e = true → handler_call c e = None.
Proof. destruct e; simpl; congruence. Qed.

Lemma frame_refl c b s : frame c b s s.
Proof.
  split.
  - intros c'. destruct (heap s !! c'); constructor. done.
  - exists [], 0%nat. rewrite app_nil_r. done.
  - done.
Qed.

Lemma frame_trans c b s1 s2 s3 : frame c b s1 s2 → frame c b s2 s3 → frame c b s1 s3.
Proof.
  intros [Hh1 (evs1 & k1 & Ht1 & Ho1 & Hc1 & Hb1) Htb1]
         [Hh2 (evs2 & k2 & Ht2 & Ho2 & Hc2 & Hb2) Htb2].
  split.
  - intros c'. specialize (Hh1 c'). specialize (Hh2 c').
    destruct Hh1 as [v1 v2 (H1 & H2 & H3)|]; inversion Hh2 as [? v3 (G1 & G2 & G3)|];
      subst; constructor.
    split_and!; [|congruence|congruence].
    intros Hne. rewrite G1, H1; done.
  - exists (evs1 ++ evs2), (k1 + k2)%nat. split_and!.
    + rewrite Ht2, Ht1, app_assoc. done.
    + intros c' Hne. rewrite log_app, Ho1, Ho2; done.
    + rewrite log_app, Hc1, Hc2, replicate_add. done.
    + intros Hb. rewrite Hb1, Hb2; done.
  - eauto.
Qed.

Lemma frame_record c b e s : silent e = true → frame c b s (record e s).
Proof.
  intros He. split.
  - intros c'. simpl. destruct (heap s !! c'); constructor. done.
  - exists [e], 0%nat. unfold log. simpl. split_and!; try done.
    + intros c' _. rewrite silent_log; done.
    + rewrite silent_log; done.
  - done.
Qed.

Lemma frame_react c out a s : frame c true s (record (ev_React c out a) s).
Proof.
  split.
  - intros c'. simpl. destruct (heap s !! c'); constructor. done.
  - exists [ev_React c out a], 1%nat. unfold log. simpl. split_and!; try done.
    + intros c' Hne. rewrite decide_False by done. done.
    + rewrite decide_True by done. done.
  - done.
Qed.

Lemma frame_alter c b f s : keeps_flags f → frame c b s (set_heap (alter f c) s).
Proof.
  intros Hf. split.
  - intros c'. simpl. rewrite lookup_alter. case_decide as Hd.
    + subst. destruct (heap s !! c') as [v|]; constructor.
      destruct (Hf v). split_and!; done.
    + destruct (heap s !! c'); constructor. done.
  - exists [], 0%nat. simpl. rewrite app_nil_r. done.
  - done.
Qed.

Lemma frame_lp c b g s :
  (∀ l fd c', loop.connections (g l) !! fd = Some c' → loop.connections l !! fd = Some c') →
  frame c b s (set_lp g s).
Proof.
  intros Hg. split.
  - intros c'. simpl. destruct (heap s !! c'); constructor. done.
  - exists [], 0%nat. simpl. rewrite app_nil_r. done.
  - simpl. eauto.
Qed.

Lemma frame_flags c b s s' c' :
  frame c b s s' →
  conn.loop (deref c' s') = conn.loop (deref c' s) ∧
  conn.opened (deref c' s') = conn.opened (deref c' s).
Proof.
  intros [Hh _ _]. specialize (Hh c'). unfold deref. rewrite !lookup_total_alt.
  destruct Hh as [? ? (_ & ? & ?)|]; done.
Qed.

Ltac frame_steps :=
  repeat first
    [ apply frame_refl
    | eapply frame_trans; [|apply frame_record; reflexivity]
    | eapply frame_trans; [|apply frame_alter; intros ?; split; reflexivity]
    | eapply frame_trans; [|apply frame_lp; intros ? ? ?; simpl;
                            first [done | rewrite lookup_delete; case_decide; done]] ].

Lemma loopCloseConn_frame E c b err s : frame c b s (loopCloseConn E c err s).2.
Proof.
  unfold loopCloseConn. run_M.
  destruct (is_nil _); simpl;
    match goal with |- context [OnClosed E ?x c err] =>
      destruct (OnClosed E x c err) as [a ib] end;
    destruct a; simpl; frame_steps.
Qed.

Lemma handleAction_frame E c b s : frame c b s (handleAction E c s).2.
Proof.
  unfold handleAction. run_M.
  destruct (conn.action (deref c s)); simpl; try apply frame_refl.
  apply loopCloseConn_frame.
Qed.

Lemma loopWrite_end_frame E c b s : frame c b s (loopWrite_end E c s).2.
Proof.
  unfold loopWrite_end. run_M. destruct (_ =? 0); simpl; frame_steps.
Qed.

Lemma loopWrite_frame E c b s : frame c b s (loopWrite E c s).2.
Proof.
  rewrite loopWrite_unfold. cbv zeta.
  destruct (RingBuffer.PreReadAll _) as [top tail].
  destruct (unix_Write E _ _ top) as [n1 e1].
  destruct (negb (is_nil e1)).
  { destruct (is_EAGAIN e1); simpl.
    - frame_steps.
    - eapply frame_trans; [|apply loopCloseConn_frame]. frame_steps. }
  destruct (if Z.of_nat (length top) =? n1 then tail else None) as [tl|].
  - destruct (unix_Write E _ _ tl) as [n2 e2].
    destruct (negb (is_nil e2)).
    { destruct (is_EAGAIN e2); simpl.
      - frame_steps.
      - eapply frame_trans; [|apply loopCloseConn_frame]. frame_steps. }
    eapply frame_trans; [|apply loopWrite_end_frame]. frame_steps.
  - eapply frame_trans; [|apply loopWrite_end_frame]. frame_steps.
Qed.

Lemma loopRead_received_frame E c n s : frame c true s (loopRead_received E c n s).
Proof.
  unfold loopRead_received.
  match goal with |- context [React E ?x c] => destruct (React E x c) as [[out a] ib] end.
  assert (frame c true s
            (set_heap (alter (conn.set_action a) c)
               (record (ev_React c out a)
                  (set_heap (alter (conn.set_inBuf (λ _, ib)) c)
                     (set_heap (alter (conn.set_extra (Z.to_nat n)) c) s))))) as H3.
  { eapply frame_trans; [|apply frame_alter; intros ?; split; reflexivity].
    eapply frame_trans; [|apply frame_react].
    frame_steps. }
  destruct (0 <? length out)%nat; [|destruct (negb _)]; try exact H3.
  - eapply frame_trans; [exact H3|]. frame_steps.
  - eapply frame_trans; [exact H3|]. frame_steps.
Qed.

Lemma loopRead_frame E c s : frame c true s (loopRead E c s).2.
Proof.
  rewrite loopRead_unfold. cbv zeta.
  destruct (unix_Read E _ _ _) as [[n err] pkt'].
  destruct ((n =? 0) || negb (is_nil err)).
  - destruct (is_EAGAIN err); simpl.
    + frame_steps.
    + eapply frame_trans; [|apply loopCloseConn_frame]. frame_steps.
  - eapply frame_trans; [|apply handleAction_frame].
    eapply frame_trans; [|apply loopRead_received_frame]. frame_steps.
Qed.

(** *** The open protocol is kept *)

Lemma Inv_frame c b s s' :
  Inv s → frame c b s s' →
  (b = true → is_Some (heap s !! c) ∧
              (conn.loop (deref c s) = true → conn.opened (deref c s) = true)) →
  Inv s'.
Proof.
  intros [I1 I2 I3] [Hh (evs & k & Ht & Ho & Hc & Hb) Htb] Hre.
  split.
  - intros fd c' Hfd. apply Htb, I1 in Hfd.
    specialize (Hh c'). destruct Hh; [eauto|]. destruct Hfd; discriminate.
  - intros c' Hnone. specialize (Hh c'). rewrite Hnone in Hh.
    inversion Hh as [|Hs Hs']. symmetry in Hs.
    rewrite Ht, log_app, (I2 c' Hs). simpl.
    destruct (decide (c' = c)) as [->|Hne]; [|by apply Ho].
    rewrite Hc. destruct b.
    + destruct Hre as [[? Hl] _]; [done|]. congruence.
    + rewrite Hb; done.
  - intros c' v' Hv' Hloop. specialize (Hh c'). rewrite Hv' in Hh.
    inversion Hh as [v ? (Hsame & Hl & Hop) Hv|]. symmetry in Hv. subst.
    rewrite Hl in Hloop. pose proof (I3 c' v Hv Hloop) as Hof.
    rewrite Ht. unfold open_first in *. rewrite Hop, log_app.
    destruct (decide (c' = c)) as [->|Hne].
    + rewrite Hc. destruct (conn.opened v) eqn:Hopened.
      * destruct Hof as [k0 ->]. exists (k0 + k)%nat. rewrite replicate_add. done.
      * rewrite Hof. simpl. destruct b.
        -- destruct Hre as [_ Hall]; [done|].
           unfold deref in Hall. rewrite lookup_total_alt, Hv in Hall. simpl in Hall.
           rewrite Hall in Hopened; done.
        -- rewrite Hb; done.
    + rewrite (Ho c' Hne), app_nil_r. exact Hof.
Qed.

Lemma Inv_alloc c0 s s' evs :
  Inv s →
  heap s !! c0 = None →
  (∀ c', c' ≠ c0 → heap s' !! c' = heap s !! c') →
  (∃ v', heap s' !! c0 = Some v' ∧
         (conn.loop v' = true → conn.opened v' = false ∧ log c0 evs = [])) →
  trace s' = trace s ++ evs →
  (∀ c', c' ≠ c0 → log c' evs = []) →
  (∀ fd c', loop.connections (lp s') !! fd = Some c' →
            loop.connections (lp s) !! fd = Some c' ∨ c' = c0) →
  Inv s'.
Proof.
  intros [I1 I2 I3] Hfresh Hother (v0 & Hv0 & Hnew) Ht Hlog Htb.
  split.
  - intros fd c' Hfd. destruct (Htb fd c' Hfd) as [Hold| ->]; [|eauto].
    destruct (decide (c' = c0)) as [->|Hne]; [eauto|].
    rewrite Hother by done. eauto.
  - intros c' Hnone.
    destruct (decide (c' = c0)) as [->|Hne]; [congruence|].
    rewrite Hother in Hnone by done.
    rewrite Ht, log_app, (I2 c' Hnone), (Hlog c' Hne). done.
  - intros c' v' Hv' Hloop.
    destruct (decide (c' = c0)) as [->|Hne].
    + rewrite Hv0 in Hv'. injection Hv' as <-.
      destruct (Hnew Hloop) as [Hop Hl]. unfold open_first. rewrite Hop.
      rewrite Ht, log_app, (I2 c0 Hfresh), Hl. done.
    + rewrite Hother in Hv' by done.
      pose proof (I3 c' v' Hv' Hloop) as Hof. unfold open_first in *.
      rewrite Ht, log_app, (Hlog c' Hne), app_nil_r. exact Hof.
Qed.

Lemma fresh_loc (h : gmap loc conn.t) : h !! fresh (dom h) = None.
Proof. apply not_elem_of_dom, is_fresh. Qed.

Lemma tick_job_frame E c s : frame c false s (tick_job E s).2.
Proof.
  unfold tick_job. run_M. destruct (Tick E (trace s)) as [delay a].
  destruct a; simpl; frame_steps.
Qed.

(** the state in which loopOpened calls OnOpened, and the one right after *)
Lemma loopOpened_run E c s :
  ∃ s1 out a,
    frame c false s1 (loopOpened E c s).2 ∧
    trace s1 = trace s ++ [ev_OnOpened c out a] ∧
    lp s1 = lp s ∧
    ∀ c', option_Forall2
            (λ v v', (c' ≠ c → v' = v) ∧ conn.loop v' = conn.loop v ∧
                     conn.opened v' = if decide (c' = c) then true else conn.opened v)
            (heap s !! c') (heap s1 !! c').
Proof.
  unfold loopOpened. run_M.
  match goal with |- context [OnOpened E ?x c] =>
    destruct (OnOpened E x c) as [[out a] ib]; set (s0 := x) end.
  exists (record (ev_OnOpened c out a)
            (set_heap (alter (conn.set_inBuf (λ _, ib)) c) s0)), out, a.
  split_and!.
  - simpl.
    destruct (_ && _); simpl;
      destruct (0 <? length out)%nat; simpl;
      match goal with |- context [negb ?b] => destruct (negb b) end; simpl;
      (eapply frame_trans; [|apply handleAction_frame]); frame_steps.
  - reflexivity.
  - reflexivity.
  - intros c'. simpl. destruct (decide (c = c')) as [<-|Hne].
    + rewrite !lookup_alter_eq. destruct (heap s !! c) as [v|]; simpl; constructor.
      rewrite decide_True by done. done.
    + rewrite !lookup_alter_ne by done. destruct (heap s !! c'); constructor.
      rewrite decide_False by done. done.
Qed.

Lemma loopOpened_Inv E c s :
  Inv s → is_Some (heap s !! c) → conn.opened (deref c s) = false →
  Inv (loopOpened E c s).2 ∧
  conn.opened (deref c (loopOpened E c s).2) = true ∧
  (conn.loop (deref c s) = true → log c (trace (loopOpened E c s).2) = [true]).
Proof.
  intros HI [v Hv] Hop.
  destruct (loopOpened_run E c s) as (s1 & out & a & Hfr & Ht1 & Hlp1 & Hh1).
  unfold deref in Hop. rewrite lookup_total_alt, Hv in Hop. simpl in Hop.
  assert (Inv s1) as HI1.
  { destruct HI as [I1 I2 I3]. split.
    - intros fd c' Hfd. rewrite Hlp1 in Hfd. apply I1 in Hfd.
      specialize (Hh1 c'). destruct Hh1; [eauto|]. destruct Hfd; discriminate.
    - intros c' Hnone. specialize (Hh1 c'). rewrite Hnone in Hh1.
      inversion Hh1 as [|Hs Hs']. symmetry in Hs.
      rewrite Ht1, log_app, (I2 c' Hs). unfold log; simpl.
      rewrite decide_False; [done|]. intros ->. congruence.
    - intros c' v' Hv' Hloop. specialize (Hh1 c'). rewrite Hv' in Hh1.
      inversion Hh1 as [v0 ? (Hsame & Hl & Hopn) Hv0|]. symmetry in Hv0. subst.
      rewrite Hl in Hloop. pose proof (I3 c' v0 Hv0 Hloop) as Hof.
      unfold open_first in *. rewrite Hopn, Ht1, log_app.
      destruct (decide (c' = c)) as [->|Hne].
      + rewrite Hv in Hv0. injection Hv0 as <-. rewrite Hop in Hof.
        rewrite Hof. exists 0%nat. unfold log; simpl. rewrite decide_True; done.
      + unfold log at 2; simpl. rewrite decide_False by done. rewrite app_nil_r.
        exact Hof. }
  split_and!.
  - eapply Inv_frame; [exact HI1|exact Hfr|discriminate].
  - destruct (frame_flags _ _ _ _ c Hfr) as [_ ->].
    specialize (Hh1 c). rewrite Hv in Hh1.
    unfold deref. rewrite lookup_total_alt.
    destruct (heap s1 !! c) as [v1|]; inversion Hh1 as [? ? (_ & _ & Hopn)|]; subst.
    simpl. rewrite decide_True in Hopn; done.
  - intros Hloop. unfold deref in Hloop. rewrite lookup_total_alt, Hv in Hloop.
    simpl in Hloop.
    destruct Hfr as [_ (evs & k & Ht & _ & Hc & Hk) _].
    rewrite Ht, Ht1, !log_app, Hc, Hk by done.
    destruct HI as [_ _ I3]. pose proof (I3 c v Hv Hloop) as Hof.
    unfold open_first in Hof. rewrite Hop in Hof. rewrite Hof.
    unfold log; simpl. rewrite decide_True; done.
Qed.

Lemma loopUDPRead_Inv E fd s : Inv s → Inv (loopUDPRead E fd s).2.
Proof.
  intros HI. unfold loopUDPRead. run_M.
  destruct (unix_Recvfrom E (trace s) fd (loop.packet (lp s))) as [[[n sa] err] pkt'].
  simpl. destruct (negb (is_nil err) || (n =? 0)); simpl.
  { eapply (Inv_frame 0%nat false); [exact HI| |discriminate]. frame_steps. }
  unfold alloc. simpl.
  set (c0 := fresh (dom (heap s))).
  match goal with |- context [React E ?x c0] =>
    destruct (React E x c0) as [[out a] ib] end.
  simpl.
  assert (heap s !! c0 = None) as Hfresh by apply fresh_loc.
  destruct (0 <? length out)%nat; simpl; destruct a; simpl.
  all: eapply (Inv_alloc c0 s);
         [exact HI|exact Hfresh| | |simpl; rewrite <- ?app_assoc; simpl; reflexivity| | ];
         simpl.
  all: try (intros c' Hne; rewrite ?lookup_alter_ne, ?lookup_insert_ne by done; reflexivity).
  all: try (eexists; split;
            [rewrite !lookup_alter_eq, lookup_insert_eq; reflexivity|discriminate]).
  all: try (intros c' Hne; unfold log; simpl; rewrite decide_False by done; reflexivity).
  all: try (intros ? ? ?; left; assumption).
Qed.

Lemma loopAccept_Inv E fd s : Inv s → Inv (loopAccept E fd s).2.
Proof.
  intros HI. unfold loopAccept. run_M.
  destruct (fd =? _); [|exact HI].
  destruct (listener.pconn _); [apply loopUDPRead_Inv; exact HI|].
  destruct (unix_Accept E (trace s) fd) as [[nfd sa] err]. simpl.
  destruct (negb (is_nil err)).
  { destruct (is_EAGAIN err); simpl;
      (eapply (Inv_frame 0%nat false); [exact HI| |discriminate]); frame_steps. }
  simpl. destruct (negb (is_nil (unix_SetNonblock E _ nfd true))); simpl.
  { eapply (Inv_frame 0%nat false); [exact HI| |discriminate]. frame_steps. }
  unfold alloc. simpl.
  set (c0 := fresh (dom (heap s))).
  assert (heap s !! c0 = None) as Hfresh by apply fresh_loc.
  match goal with |- context [is_nil ?e] => destruct (is_nil e) end; simpl.
  all: eapply (Inv_alloc c0 s);
         [exact HI|exact Hfresh| | |simpl; rewrite <- ?app_assoc; simpl; reflexivity| | ];
         simpl.
  all: try (intros c' Hne; rewrite ?lookup_insert_ne by done; reflexivity).
  all: try (eexists; split; [rewrite lookup_insert_eq; reflexivity|done]).
  all: try (intros c' Hne; reflexivity).
  all: try (intros ? ? ?; left; assumption).
  intros fd' c'. rewrite lookup_insert. case_decide; [|by left].
  intros [= <-]. by right.
Qed.

Lemma dispatch_Inv E fd s : Inv s → Inv (dispatch E fd (tick_job E) s).2.
Proof.
  intros HI. unfold dispatch.
  destruct (fd =? 0).
  { eapply (Inv_frame 0%nat false); [exact HI|apply tick_job_frame|discriminate]. }
  run_M.
  destruct (loop.connections (lp s) !! fd) as [c|] eqn:Hfd;
    [|apply loopAccept_Inv; exact HI].
  pose proof (Inv_table s HI fd c Hfd) as Hlive.
  destruct (conn.opened (deref c s)) eqn:Hop; simpl.
  - destruct (0 <? _).
    + eapply Inv_frame; [exact HI|apply (loopWrite_frame E c false)|discriminate].
    + eapply Inv_frame; [exact HI|apply loopRead_frame|]. done.
  - apply loopOpened_Inv; done.
Qed.

Lemma run_Inv E fds s : Inv s → Inv (run E fds s).2.
Proof.
  unfold run. revert s. induction fds as [|fd fds IH]; intros s HI; simpl; [done|].
  unfold mbind, M_bind.
  pose proof (dispatch_Inv E fd s HI) as H1.
  destruct (dispatch E fd (tick_job E) s) as [err s1]. simpl in H1.
  destruct (is_nil err); [apply IH; exact H1|exact H1].
Qed.

Lemma dispatch_known E fd job c s :
  fd ≠ 0 → loop.connections (lp s) !! fd = Some c →
  dispatch E fd job s =
    if conn.opened (deref c s) then
      if 0 <? RingBuffer.Length (conn.outBuf (deref c s)) then loopWrite E c s
      else loopRead E c s
    else loopOpened E c s.
Proof.
  intros Hfd Hc. unfold dispatch. destruct (Z.eqb_spec fd 0); [done|].
  run_M. rewrite Hc. destruct (conn.opened (deref c s)); simpl; [|reflexivity].
  destruct (0 <? _); reflexivity.
Qed.

Lemma udp_sa6_Inet4 (sa4 : SockaddrInet4.t) :
  length (SockaddrInet4.Addr sa4) = 4%nat →
  udp_sa6 (Inet4 sa4) =
    SockaddrInet6.mk (SockaddrInet4.Port sa4) 0
                     (replicate 12 x00 ++ SockaddrInet4.Addr sa4).
Proof.
  destruct sa4 as [port [|a [|b [|c [|d [|]]]]]]; simpl; intros Hlen;
    try discriminate. reflexivity.
Qed.

(** ** handleAction and loopCloseConn *)

(** C7. handleAction returns nil and changes nothing for [None]; hands the
    connection to loopCloseConn with a nil error for [Close]; returns
    ErrClosing, changing nothing, for [Shutdown]; and treats every other
    value of the action, [DataRead] among them, as it treats [None]. *)
Theorem handleAction_by_action (E : Env) (c : loc) (s : State) :
  handleAction E c s =
    match conn.action (deref c s) with
    | Action.None => (None, s)
    | Action.Close => loopCloseConn E c None s
    | Action.Shutdown => (Some ErrClosing, s)
    | Action.DataRead => (None, s)
    | Action.Unknown _ => (None, s)
    end.
Proof.
  unfold handleAction. rewrite bind_run. unfold gets.
  destruct (conn.action (deref c s)); reflexivity.
Qed.

(** C6. loopCloseConn first asks the poller to delete the descriptor.  The
    connection leaves the table and its descriptor is closed exactly when
    that succeeded; when it failed the table is as before and no close is
    issued.  Either way OnClosed is then called with the triggering error,
    and the result is ErrClosing exactly when OnClosed answered Shutdown
    (nil otherwise). *)
Theorem loopCloseConn_outcome (E : Env) (c : loc) (err : option error) (s : State) :
  let fd := conn.fd (deref c s) in
  let derr := poller_Delete E (trace s) fd in
  let '(r, s') := loopCloseConn E c err s in
  ∃ a evs,
    trace s' = trace s ++ ev_Delete fd derr :: evs ++ [ev_OnClosed c err a] ∧
    (r = Some ErrClosing ↔ a = Action.Shutdown) ∧
    (r = None ∨ r = Some ErrClosing) ∧
    if is_nil derr
    then loop.connections (lp s') = delete fd (loop.connections (lp s)) ∧
         ∃ cerr, evs = [ev_Close fd cerr]
    else loop.connections (lp s') = loop.connections (lp s) ∧ evs = [].
Proof.
  intros fd derr. unfold loopCloseConn. run_M. fold fd. fold derr.
  destruct (is_nil derr) eqn:Hd; simpl;
    match goal with |- context [OnClosed E ?x c err] =>
      destruct (OnClosed E x c err) as [a ib] eqn:Hcb end.
  - destruct a; simpl;
      (eexists _, [ev_Close fd (unix_Close E (trace s ++ [ev_Delete fd derr]) fd)]);
      rewrite <- ?app_assoc; simpl; intuition (eauto; discriminate).
  - destruct a; simpl; (eexists _, []);
      rewrite <- ?app_assoc; simpl; intuition (eauto; discriminate).
Qed.

(** ** The dispatch of loopRun *)

(** C2. The function handed to Polling runs the injected job when [fd] is
    0; for a descriptor of the connection table it runs loopOpened while the
    connection is not opened, loopWrite when its outbound buffer is not
    empty, loopRead otherwise; for any other descriptor it runs loopAccept. *)
Theorem dispatch_classifies (E : Env) (fd : Z) (job : Job) (s : State) :
  dispatch E fd job s =
    if fd =? 0 then job s
    else match loop.connections (lp s) !! fd with
         | Some c =>
             if negb (conn.opened (deref c s)) then loopOpened E c s
             else if 0 <? RingBuffer.Length (conn.outBuf (deref c s)) then loopWrite E c s
             else loopRead E c s
         | None => loopAccept E fd s
         end.
Proof.
  unfold dispatch. destruct (fd =? 0); [reflexivity|]. run_M.
  destruct (loop.connections (lp s) !! fd) as [c|]; [|reflexivity].
  destruct (conn.opened (deref c s)); simpl; [|reflexivity].
  destruct (0 <? _); reflexivity.
Qed.

(** C10. A descriptor that is not 0, not in the connection table and not
    the listener's is answered with nil and the state, trace of external
    calls included, is left as it was: nothing is accepted, registered, read,
    written or called back. *)
Theorem dispatch_foreign_fd (E : Env) (fd : Z) (job : Job) (s : State) :
  fd ≠ 0 →
  loop.connections (lp s) !! fd = None →
  fd ≠ listener.fd (server.ln (loop.svr (lp s))) →
  dispatch E fd job s = (None, s).
Proof.
  intros H0 Hk Hl. unfold dispatch.
  destruct (Z.eqb_spec fd 0); [done|]. run_M. rewrite Hk.
  unfold loopAccept. run_M.
  destruct (Z.eqb_spec fd (listener.fd (server.ln (loop.svr (lp s))))); done.
Qed.

Lemma dispatch_foreign_fd_witness :
  dispatch Demo.env 7 (tick_job Demo.env) Demo.init = (None, Demo.init).
Proof.
  apply dispatch_foreign_fd.
  - discriminate.
  - reflexivity.
  - simpl. discriminate.
Defined.

(** ** loopWrite *)

(** C4. loopWrite loses, repeats and reorders nothing of the queued bytes.
    For a well-formed outbound buffer and writes that obey the system call
    contract: the call writes the first segment of the dual-segment view;
    the buffer it leaves is the one it found with the read cursor moved by
    what each successful write reported; a second write is made exactly when
    the first took the whole first segment and a second segment exists, and
    it is handed that segment; a would-block answer (on either write) ends
    the call with nil and the rest still buffered.  So what the socket took
    followed by what is still buffered is what was queued, after one call
    and after any number of write-readiness events in a row; once the
    buffer is empty the socket has taken exactly the queued bytes. *)
Theorem loopWrite_keeps_stream (E : Env) (c : loc) (s : State) :
  write_contract E →
  RingBuffer.wf (conn.outBuf (deref c s)) →
  let fd := conn.fd (deref c s) in
  let rb := conn.outBuf (deref c s) in
  let top := (RingBuffer.PreReadAll rb).1 in
  let tail := (RingBuffer.PreReadAll rb).2 in
  (∃ r s' evs,
     loopWrite E c s = (r, s') ∧ trace s' = trace s ++ evs ∧
     conn.outBuf (deref c s') = advanced (writes evs) rb ∧
     delivered fd evs ++ RingBuffer.bytes (conn.outBuf (deref c s')) = RingBuffer.bytes rb ∧
     ((∃ n e, writes evs = [(top, n, e)] ∧
              ¬ (e = None ∧ n = Z.of_nat (length top) ∧ is_Some tail) ∧
              (e = Some EAGAIN → r = None)) ∨
      (∃ tl n e, tail = Some tl ∧
              writes evs = [(top, Z.of_nat (length top), None); (tl, n, e)] ∧
              (e = Some EAGAIN → r = None)))) ∧
  (∀ k, ∃ s' evs,
     loopWrite_retries E c k s = (tt, s') ∧ trace s' = trace s ++ evs ∧
     delivered fd evs ++ RingBuffer.bytes (conn.outBuf (deref c s')) = RingBuffer.bytes rb ∧
     (RingBuffer.Length (conn.outBuf (deref c s')) = 0 → delivered fd evs = RingBuffer.bytes rb)).
Proof.
  intros Hwc Hwf fd rb top tail. split.
  - destruct (loopWrite_run E c s Hwc Hwf)
      as (r & s' & evs & Hrun & Htr & _ & Hob & _ & Hb & Hshape & _).
    exists r, s', evs. done.
  - intros k.
    destruct (loopWrite_retries_run E c k s Hwc Hwf)
      as (s' & evs & Hrun & Htr & _ & _ & Hwf' & Hb).
    exists s', evs. split_and!; try done.
    intros Hz. rewrite rb_Length_bytes in Hz by done.
    destruct (RingBuffer.bytes (conn.outBuf (deref c s'))); [|simpl in Hz; lia].
    rewrite app_nil_r in Hb. done.
Qed.

Lemma Demo_write_contract : write_contract Demo.env.
Proof. intros h fd p n [= <-]. lia. Defined.

Lemma Demo_wrapped_wf : RingBuffer.wf Demo.wrapped.
Proof. unfold RingBuffer.wf, RingBuffer.size. simpl. split_and!; [lia|lia|discriminate]. Defined.

Lemma loopWrite_keeps_stream_witness :
  ∃ s' evs,
    loopWrite_retries Demo.env 0%nat 3 Demo.sending = (tt, s') ∧
    trace s' = trace Demo.sending ++ evs ∧
    delivered 5 evs ++ RingBuffer.bytes (conn.outBuf (deref 0%nat s')) =
      ["a"; "b"; "c"; "d"; "e"; "f"]%byte ∧
    (RingBuffer.Length (conn.outBuf (deref 0%nat s')) = 0 →
     delivered 5 evs = ["a"; "b"; "c"; "d"; "e"; "f"]%byte).
Proof.
  exact (proj2 (loopWrite_keeps_stream Demo.env 0%nat Demo.sending
                  Demo_write_contract Demo_wrapped_wf) 3%nat).
Defined.

(** C9. A call of loopWrite that does not go through loopCloseConn returns
    nil, and it asks the poller for ModRead on the connection's descriptor
    exactly when the outbound buffer is empty at its end: while bytes
    remain, write interest is left as it is.  This holds whenever the call
    runs to its last statements (no write would block), and on the
    would-block returns too when the buffer held bytes at entry, which is
    the only way the dispatch calls loopWrite. *)
Theorem loopWrite_ModRead_iff_drained (E : Env) (c : loc) (s : State) :
  write_contract E →
  RingBuffer.wf (conn.outBuf (deref c s)) →
  ∃ r s' evs,
    loopWrite E c s = (r, s') ∧ trace s' = trace s ++ evs ∧
    (existsb is_close_event evs = false →
     r = None ∧
     (0 < RingBuffer.Length (conn.outBuf (deref c s)) ∨
      Forall (λ w, w.2 ≠ Some EAGAIN) (writes evs) →
      (existsb (is_ModRead (conn.fd (deref c s))) evs = true ↔
       RingBuffer.Length (conn.outBuf (deref c s')) = 0))).
Proof.
  intros Hwc Hwf.
  destruct (loopWrite_run E c s Hwc Hwf)
    as (r & s' & evs & Hrun & Htr & _ & _ & _ & _ & _ & Hend).
  exists r, s', evs. split_and!; try done.
Qed.

Lemma loopWrite_ModRead_iff_drained_witness :
  ∃ r s' evs,
    loopWrite Demo.env 0%nat Demo.sending = (r, s') ∧
    trace s' = trace Demo.sending ++ evs ∧
    (existsb is_close_event evs = false →
     r = None ∧
     (0 < RingBuffer.Length Demo.wrapped ∨
      Forall (λ w, w.2 ≠ Some EAGAIN) (writes evs) →
      (existsb (is_ModRead 5) evs = true ↔
       RingBuffer.Length (conn.outBuf (deref 0%nat s')) = 0))).
Proof.
  apply (loopWrite_ModRead_iff_drained Demo.env 0%nat Demo.sending).
  - exact Demo_write_contract.
  - exact Demo_wrapped_wf.
Defined.

(** ** loopRead *)

(** C8. loopRead, by what the read returned (a read that obeys the system
    call contract, on a live connection).  Would-block: nil, and
    nothing but the read itself happened (no close, no callback).  Zero
    bytes or any other error: the connection is handed to loopCloseConn with
    that error.  Otherwise ([n] not 0, no error) React is called, and unless
    it answers [Close] no call of loopCloseConn follows and the table is as
    before: the read itself never closes the connection. *)
Theorem loopRead_outcomes (E : Env) (c : loc) (s : State) :
  read_contract E →
  is_Some (heap s !! c) →
  let fd := conn.fd (deref c s) in
  let '(n, err, pkt') := unix_Read E (trace s) fd (loop.packet (lp s)) in
  let s1 := set_lp (loop.set_packet pkt') (record (ev_Read fd n err) s) in
  if is_EAGAIN err then loopRead E c s = (None, s1)
  else if (n =? 0) || negb (is_nil err) then
    loopRead E c s = loopCloseConn E c err s1
  else
    ∃ out a evs r s',
      loopRead E c s = (r, s') ∧
      trace s' = trace s1 ++ ev_React c out a :: evs ∧
      (a ≠ Action.Close →
       existsb is_close_event evs = false ∧
       loop.connections (lp s') = loop.connections (lp s) ∧
       r = closing a).
Proof.
  intros _ Hlive fd. rewrite loopRead_unfold. cbv zeta. fold fd.
  destruct (unix_Read E (trace s) fd (loop.packet (lp s))) as [[n err] pkt'].
  destruct (is_EAGAIN err) eqn:Hag.
  { apply is_EAGAIN_true in Hag as ->. destruct (n =? 0); reflexivity. }
  destruct ((n =? 0) || negb (is_nil err)); [reflexivity|].
  set (s1 := set_lp (loop.set_packet pkt') (record (ev_Read fd n err) s)).
  destruct (loopRead_received_run E c n s1 Hlive)
    as (out & a & ib & _ & Hlp & Htr & Hl4 & Hact & _).
  destruct (decide (a = Action.Close)) as [Hcl|Hne].
  - destruct (handleAction_run E c (loopRead_received E c n s1))
      as (r & f & evs & tbl & Hrun & _).
    eexists out, a, _, r, _. split; [exact Hrun|].
    cbn [trace]. rewrite Htr, <- app_assoc. done.
  - eexists out, a, _, _, _. split.
    { apply handleAction_quiet. by rewrite Hact. }
    rewrite Htr, Hlp, Hact. split; [reflexivity|]. intros _.
    split_and!; [|reflexivity|reflexivity].
    destruct (0 <? length out)%nat; reflexivity.
Qed.

(** C3. After a read of [n > 0] bytes, with [ib] the input buffer as React
    left it: when React returned no output and an action other than
    [DataRead], loopRead appends the bytes just read to the input buffer;
    in every other case it hands the buffer on as it is; and the buffer
    holds [ib]'s bytes followed by the bytes read in the first case only.
    ([s4] is the state given to handleAction, which is the final state
    unless the action is [Close].) *)
Theorem loopRead_buffers_input (E : Env) (c : loc) (s : State) :
  is_Some (heap s !! c) →
  let fd := conn.fd (deref c s) in
  let '(n, err, pkt') := unix_Read E (trace s) fd (loop.packet (lp s)) in
  let s1 := set_lp (loop.set_packet pkt') (record (ev_Read fd n err) s) in
  let s2 := set_heap (alter (conn.set_extra (Z.to_nat n)) c) s1 in
  let '(out, a, ib) := React E s2 c in
  let received := take (Z.to_nat n) pkt' in
  err = None → 0 < n ≤ Z.of_nat (length pkt') → RingBuffer.wf ib →
  ∃ s4,
    loopRead E c s = handleAction E c s4 ∧
    (out = [] ∧ a ≠ Action.DataRead →
     conn.inBuf (deref c s4) = RingBuffer.Write received ib) ∧
    (¬ (out = [] ∧ a ≠ Action.DataRead) → conn.inBuf (deref c s4) = ib) ∧
    (RingBuffer.bytes (conn.inBuf (deref c s4)) = RingBuffer.bytes ib ++ received
     ↔ out = [] ∧ a ≠ Action.DataRead) ∧
    (a ≠ Action.Close → ∃ r, loopRead E c s = (r, s4)).
Proof.
  intros Hlive fd. rewrite loopRead_unfold. cbv zeta. fold fd.
  destruct (unix_Read E (trace s) fd (loop.packet (lp s))) as [[n err] pkt'].
  set (s1 := set_lp (loop.set_packet pkt') (record (ev_Read fd n err) s)).
  destruct (loopRead_received_run E c n s1 Hlive)
    as (out & a & ib & Hre & _ & _ & _ & Hact & _ & Hin).
  cbv zeta in Hre. rewrite Hre.
  intros -> Hn Hwf.
  replace ((n =? 0) || negb (is_nil None)) with false
    by (destruct (Z.eqb_spec n 0); [lia|reflexivity]).
  exists (loopRead_received E c n s1). split; [reflexivity|].
  set (received := take (Z.to_nat n) pkt') in *.
  change (loop.packet (lp s1)) with pkt' in Hin. fold received in Hin.
  assert (received ≠ []) as Hrec.
  { intros Hnil. apply (f_equal length) in Hnil.
    unfold received in Hnil. rewrite length_take in Hnil. simpl in Hnil. lia. }
  assert ((length out =? 0)%nat && negb (Action.eqb a Action.DataRead) = true
          ↔ out = [] ∧ a ≠ Action.DataRead) as Hcond.
  { rewrite andb_true_iff, Nat.eqb_eq, negb_true_iff, length_zero_iff_nil.
    rewrite <- (Action_eqb_eq a Action.DataRead).
    destruct (Action.eqb a Action.DataRead); intuition congruence. }
  destruct ((length out =? 0)%nat && negb (Action.eqb a Action.DataRead)) eqn:Hb.
  - assert (out = [] ∧ a ≠ Action.DataRead) as Hyes by (apply Hcond; done).
    split_and!; try done.
    + rewrite Hin. split; [done|]. intros _.
      apply (rb_Write_spec received ib Hwf).
    + intros Hne. eexists. apply handleAction_quiet. by rewrite Hact.
  - assert (¬ (out = [] ∧ a ≠ Action.DataRead)) as Hno.
    { intros Hy. apply Hcond in Hy. discriminate. }
    split_and!; try done.
    + rewrite Hin. split; [|done]. intros Heq.
      rewrite <- (app_nil_r (RingBuffer.bytes ib)) in Heq at 1.
      apply app_inv_head in Heq. congruence.
    + intros Hne. eexists. apply handleAction_quiet. by rewrite Hact.
Qed.

Lemma Demo_sender_live : is_Some (heap Demo.sending !! 0%nat).
Proof. exists Demo.sender. reflexivity. Defined.

Lemma Demo_read_contract : read_contract Demo.env.
Proof.
  intros h fd p n p' [= <- <-]. simpl. lia.
Defined.

Lemma loopRead_outcomes_witness :
  ∃ out a evs r s',
    loopRead Demo.env 0%nat Demo.sending = (r, s') ∧
    trace s' = [ev_Read 5 2 None] ++ ev_React 0%nat out a :: evs ∧
    (a ≠ Action.Close →
     existsb is_close_event evs = false ∧
     loop.connections (lp s') = loop.connections (lp Demo.sending) ∧
     r = closing a).
Proof.
  exact (loopRead_outcomes Demo.env 0%nat Demo.sending Demo_read_contract
           Demo_sender_live).
Defined.

Lemma Demo_buffer_wf : RingBuffer.wf (RingBuffer.New 4).
Proof. unfold RingBuffer.wf, RingBuffer.size. simpl. split_and!; [lia|lia|done]. Defined.

Lemma loopRead_buffers_input_witness :
  ∃ s4,
    loopRead Demo.quiet_env 0%nat Demo.sending = handleAction Demo.quiet_env 0%nat s4 ∧
    (@nil byte = [] ∧ Action.None ≠ Action.DataRead →
     conn.inBuf (deref 0%nat s4) = RingBuffer.Write Demo.hi (RingBuffer.New 4)) ∧
    (¬ (@nil byte = [] ∧ Action.None ≠ Action.DataRead) →
     conn.inBuf (deref 0%nat s4) = RingBuffer.New 4) ∧
    (RingBuffer.bytes (conn.inBuf (deref 0%nat s4)) =
       RingBuffer.bytes (RingBuffer.New 4) ++ Demo.hi
     ↔ @nil byte = [] ∧ Action.None ≠ Action.DataRead) ∧
    (Action.None ≠ Action.Close →
     ∃ r, loopRead Demo.quiet_env 0%nat Demo.sending = (r, s4)).
Proof.
  refine (loopRead_buffers_input Demo.quiet_env 0%nat Demo.sending
            Demo_sender_live eq_refl _ Demo_buffer_wf).
  simpl. lia.
Defined.

(** ** loopUDPRead *)

(** C5, amended.  For a datagram from an IPv4 source, the connection given
    to React carries the address netpoll derives from an IPv6 socket
    address with the source port, zone 0 and the 16 bytes made of twelve
    zero bytes followed by the four bytes of the IPv4 address. *)
Theorem loopUDPRead_peer_address (E : Env) (fd : Z) (s : State) (sa4 : SockaddrInet4.t) :
  let '(n, sa, err, pkt') := unix_Recvfrom E (trace s) fd (loop.packet (lp s)) in
  let c := fresh (dom (heap s)) in
  let sa6 := SockaddrInet6.mk (SockaddrInet4.Port sa4) 0
               (replicate 12 x00 ++ SockaddrInet4.Addr sa4) in
  err = None → 0 < n ≤ Z.of_nat (length pkt') → sa = Inet4 sa4 →
  length (SockaddrInet4.Addr sa4) = 4%nat →
  ∃ s2 out a ib evs,
    React E s2 c = (out, a, ib) ∧
    conn.remoteAddr (deref c s2) = SockaddrToUDPAddr E (Inet6 sa6) ∧
    trace (loopUDPRead E fd s).2 =
      trace s ++ ev_Recvfrom fd n sa err :: ev_React c out a :: evs ∧
    conn.remoteAddr (deref c (loopUDPRead E fd s).2) = SockaddrToUDPAddr E (Inet6 sa6).
Proof.
  unfold loopUDPRead. run_M.
  destruct (unix_Recvfrom E (trace s) fd (loop.packet (lp s))) as [[[n sa] err] pkt'].
  cbv zeta. intros -> Hn -> Hlen. rewrite (udp_sa6_Inet4 sa4 Hlen).
  cbn [is_nil negb orb fst snd].
  destruct (Z.eqb_spec n 0); [lia|].
  unfold alloc. simpl.
  set (c := fresh (dom (heap s))).
  match goal with |- context [React E ?x c] =>
    destruct (React E x c) as [[out a] ib] eqn:Hre; exists x end.
  exists out, a, ib.
  assert (∀ (v : conn.t) f h, (alter f c (<[c := v]> h) : gmap loc conn.t) !!! c = f v) as Hlk.
  { intros v f h. rewrite lookup_total_alter_eq, lookup_insert_eq. reflexivity. }
  destruct (0 <? length out)%nat; simpl; destruct a; simpl;
    eexists; (split; [exact Hre|]); unfold deref; simpl;
    rewrite ?lookup_total_alter_eq, ?lookup_alter_eq, ?lookup_insert_eq; simpl;
    (split; [reflexivity|]); (split; [rewrite <- ?app_assoc; simpl; reflexivity|]);
    reflexivity.
Qed.

Lemma loopUDPRead_peer_address_witness :
  ∃ s2 out a ib evs,
    React Demo.env s2 0%nat = (out, a, ib) ∧
    conn.remoteAddr (deref 0%nat s2) =
      UDPAddr (replicate 12 x00 ++ ["127"; "000"; "000"; "001"]%byte) 4000 "" ∧
    trace (loopUDPRead Demo.env 3 Demo.udp_init).2 =
      [] ++ ev_Recvfrom 3 2 Demo.client None :: ev_React 0%nat out a :: evs ∧
    conn.remoteAddr (deref 0%nat (loopUDPRead Demo.env 3 Demo.udp_init).2) =
      UDPAddr (replicate 12 x00 ++ ["127"; "000"; "000"; "001"]%byte) 4000 "".
Proof.
  refine (loopUDPRead_peer_address Demo.env 3 Demo.udp_init
            (SockaddrInet4.mk 4000 ["127"; "000"; "000"; "001"]%byte)
            eq_refl _ eq_refl eq_refl).
  simpl. lia.
Defined.

(** C5 as stated fails: for the sender 127.0.0.1:4000 bytes 10 and 11 of
    the address built by loopUDPRead are 0, not 0xff. *)
Lemma loopUDPRead_peer_not_mapped :
  SockaddrInet6.Addr (udp_sa6 Demo.client) ≠
    replicate 10 x00 ++ [xff; xff] ++ ["127"; "000"; "000"; "001"]%byte ∧
  conn.remoteAddr (deref 0%nat (loopUDPRead Demo.env 3 Demo.udp_init).2) ≠
    UDPAddr (replicate 10 x00 ++ [xff; xff] ++ ["127"; "000"; "000"; "001"]%byte) 4000 "".
Proof. split; vm_compute; discriminate. Qed.

(** ** The open callback *)

(** C1. After any run of the loop from a state where the open protocol
    holds (the initial state is one), every connection accepted by this
    loop has on record either no open or data callback at all, while its
    [opened] flag is down, or exactly one OnOpened followed by React calls
    only, once it is up.  And on the readiness of a known descriptor the
    dispatch runs loopOpened exactly while the flag is down; loopOpened
    raises the flag and makes that one OnOpened call. *)
Theorem open_once_before_data (E : Env) (fds : list Z) (s : State) :
  Inv s →
  let s' := (run E fds s).2 in
  (∀ c v, heap s' !! c = Some v → conn.loop v = true →
     if conn.opened v then ∃ k, log c (trace s') = true :: replicate k false
     else log c (trace s') = []) ∧
  (∀ fd c job, fd ≠ 0 → loop.connections (lp s') !! fd = Some c →
     if conn.opened (deref c s') then
       dispatch E fd job s' =
         (if 0 <? RingBuffer.Length (conn.outBuf (deref c s'))
          then loopWrite E c s' else loopRead E c s')
     else
       dispatch E fd job s' = loopOpened E c s' ∧
       conn.opened (deref c (loopOpened E c s').2) = true ∧
       (conn.loop (deref c s') = true →
        log c (trace (loopOpened E c s').2) = [true])).
Proof.
  intros HI s'. pose proof (run_Inv E fds s HI) as HI'. fold s' in HI'.
  split.
  - intros c v Hv Hloop. exact (Inv_open s' HI' c v Hv Hloop).
  - intros fd c job Hfd Hc. rewrite (dispatch_known E fd job c s' Hfd Hc).
    destruct (conn.opened (deref c s')) eqn:Hop; [reflexivity|].
    split; [reflexivity|].
    apply loopOpened_Inv; [exact HI'|exact (Inv_table s' HI' fd c Hc)|exact Hop].
Qed.

Lemma Demo_init_Inv : Inv Demo.init.
Proof.
  split; simpl.
  - intros fd c H. rewrite lookup_empty in H. discriminate.
  - reflexivity.
  - intros c v H. rewrite lookup_empty in H. discriminate.
Defined.

Lemma open_once_before_data_witness :
  ∃ k, log 0%nat (trace (run Demo.env [3; 5; 0; 5; 5] Demo.init).2) =
       true :: replicate k false.
Proof.
  pose proof (proj1 (open_once_before_data Demo.env [3; 5; 0; 5; 5] Demo.init
                       Demo_init_Inv)
                0%nat (deref 0%nat (run Demo.env [3; 5; 0; 5; 5] Demo.init).2)) as H.
  cbv zeta in H.
  assert (heap (run Demo.env [3; 5; 0; 5; 5] Demo.init).2 !! 0%nat =
          Some (deref 0%nat (run Demo.env [3; 5; 0; 5; 5] Demo.init).2)) as Hv
    by (vm_compute; reflexivity).
  assert (conn.loop (deref 0%nat (run Demo.env [3; 5; 0; 5; 5] Demo.init).2) = true)
    as Hl by (vm_compute; reflexivity).
  assert (conn.opened (deref 0%nat (run Demo.env [3; 5; 0; 5; 5] Demo.init).2) = true)
    as Ho by (vm_compute; reflexivity).
  specialize (H Hv Hl). rewrite Ho in H. exact H.
Defined.

(** * The rest of the loop *)

(** ** loopAccept *)

Lemma lifecycle_app c evs1 evs2 :
  lifecycle c (evs1 ++ evs2) = lifecycle c evs1 ++ lifecycle c evs2.
Proof. apply omap_app. Qed.

Lemma loopAccept_success (E : Env) (fd : Z) (s : State) :
  let ln := server.ln (loop.svr (lp s)) in
  let '(nfd, sa, err) := unix_Accept E (trace s) fd in
  let t1 := trace s ++ [ev_Accept fd nfd sa None] in
  let t2 := t1 ++ [ev_SetNonblock nfd None] in
  let c := fresh (dom (heap s)) in
  let rb := RingBuffer.New (connRingBufferSize E) in
  fd = listener.fd ln → listener.pconn ln = false →
  err = None → unix_SetNonblock E t1 nfd true = None → poller_AddReadWrite E t2 nfd = None →
  loopAccept E fd s =
    (None,
     mkState (loop.set_connections <[nfd := c]> (lp s))
       (<[c := conn.mk nfd sa rb rb true 0 false Action.None NilAddr NilAddr]> (heap s))
       (t2 ++ [ev_AddReadWrite nfd None])).
Proof.
  intros ln.
  destruct (unix_Accept E (trace s) fd) as [[nfd sa] err] eqn:Hacc. cbv zeta.
  intros Hfd Hp -> Hnb Hadd. unfold loopAccept. run_M. fold ln.
  rewrite <- Hfd, Z.eqb_refl, Hp, Hacc. simpl. rewrite Hnb. simpl.
  unfold alloc, deref. simpl. rewrite lookup_total_insert_eq. simpl.
  rewrite Hadd. reflexivity.
Qed.

(** X1. On a stream listener, when accept, SetNonblock and AddReadWrite all
    succeed, loopAccept returns nil and files a new connection under the
    accepted descriptor: a fresh object carrying that descriptor and the
    peer's socket address, not yet opened, with empty input and output
    buffers.  The calls made are these three, in this order; no handler is
    called. *)
Theorem loopAccept_registers (E : Env) (fd : Z) (s : State) :
  let ln := server.ln (loop.svr (lp s)) in
  let '(nfd, sa, err) := unix_Accept E (trace s) fd in
  let t1 := trace s ++ [ev_Accept fd nfd sa None] in
  let t2 := t1 ++ [ev_SetNonblock nfd None] in
  let c := fresh (dom (heap s)) in
  fd = listener.fd ln → listener.pconn ln = false →
  err = None → unix_SetNonblock E t1 nfd true = None → poller_AddReadWrite E t2 nfd = None →
  ∃ s' v,
    loopAccept E fd s = (None, s') ∧
    heap s !! c = None ∧ heap s' = <[c := v]> (heap s) ∧
    loop.connections (lp s') = <[nfd := c]> (loop.connections (lp s)) ∧
    conn.fd v = nfd ∧ conn.sa v = sa ∧ conn.opened v = false ∧
    RingBuffer.Length (conn.inBuf v) = 0 ∧ RingBuffer.Length (conn.outBuf v) = 0 ∧
    trace s' = t2 ++ [ev_AddReadWrite nfd None].
Proof.
  intros ln. pose proof (loopAccept_success E fd s) as H. fold ln in H. revert H.
  destruct (unix_Accept E (trace s) fd) as [[nfd sa] err]. cbv zeta.
  intros H Hfd Hp Herr Hnb Hadd. rewrite (H Hfd Hp Herr Hnb Hadd).
  eexists _, _. split; [reflexivity|]. simpl.
  split; [apply fresh_loc|]. split; [reflexivity|]. done.
Qed.

Lemma loopAccept_registers_witness :
  ∃ s' v,
    loopAccept Demo.env 3 Demo.init = (None, s') ∧
    heap Demo.init !! 0%nat = None ∧ heap s' = <[0%nat := v]> (heap Demo.init) ∧
    loop.connections (lp s') = <[5 := 0%nat]> (loop.connections (lp Demo.init)) ∧
    conn.fd v = 5 ∧ conn.sa v = Demo.client ∧ conn.opened v = false ∧
    RingBuffer.Length (conn.inBuf v) = 0 ∧ RingBuffer.Length (conn.outBuf v) = 0 ∧
    trace s' = [ev_Accept 3 5 Demo.client None; ev_SetNonblock 5 None; ev_AddReadWrite 5 None].
Proof.
  exact (loopAccept_registers Demo.env 3 Demo.init eq_refl eq_refl eq_refl eq_refl eq_refl).
Defined.

(** X2. When a connection was accepted and loopAccept then fails (SetNonblock
    or AddReadWrite returned an error, which loopAccept returns), the
    accepted descriptor is not put in the table and no close is issued for
    it: the table and the connections there were are untouched, and after
    the accept no Delete, Close or OnClosed call is made. *)
Theorem loopAccept_unregistered_not_closed (E : Env) (fd : Z) (s : State) :
  let ln := server.ln (loop.svr (lp s)) in
  let '(nfd, sa, err) := unix_Accept E (trace s) fd in
  let '(r, s') := loopAccept E fd s in
  fd = listener.fd ln → listener.pconn ln = false → err = None → r ≠ None →
  loop.connections (lp s') = loop.connections (lp s) ∧
  (∀ c v, heap s !! c = Some v → heap s' !! c = Some v) ∧
  ∃ evs, trace s' = trace s ++ ev_Accept fd nfd sa None :: evs ∧
         Forall (λ e, is_close_event e = false) evs.
Proof.
  intros ln.
  destruct (unix_Accept E (trace s) fd) as [[nfd sa] err] eqn:Hacc.
  destruct (loopAccept E fd s) as [r s'] eqn:Hrun.
  intros Hfd Hp -> Hr. revert Hrun. unfold loopAccept. run_M. fold ln.
  rewrite <- Hfd, Z.eqb_refl, Hp, Hacc. simpl.
  destruct (unix_SetNonblock E _ nfd true) as [e1|] eqn:Hnb; simpl.
  { intros [= <- <-]. simpl. split_and!; [done|done|].
    eexists. split; [rewrite <- app_assoc; reflexivity|]. repeat constructor. }
  unfold alloc, deref. simpl. rewrite lookup_total_insert_eq. simpl.
  destruct (poller_AddReadWrite E _ nfd) as [e2|] eqn:Hadd; simpl.
  - intros [= <- <-]. simpl. split_and!; [done| |].
    + intros c v Hc. rewrite lookup_insert_ne; [done|].
      intros <-. rewrite fresh_loc in Hc. discriminate.
    + eexists. split; [rewrite <- !app_assoc; reflexivity|]. repeat constructor.
  - intros [= <- <-]. done.
Qed.

Lemma loopAccept_unregistered_not_closed_witness :
  let '(r, s') := loopAccept Cases.register_fails 3 Demo.init in
  loop.connections (lp s') = loop.connections (lp Demo.init) ∧
  (∀ c v, heap Demo.init !! c = Some v → heap s' !! c = Some v) ∧
  ∃ evs, trace s' = trace Demo.init ++ ev_Accept 3 5 Demo.client None :: evs ∧
         Forall (λ e, is_close_event e = false) evs.
Proof.
  refine (loopAccept_unregistered_not_closed Cases.register_fails 3 Demo.init
            eq_refl eq_refl eq_refl _).
  discriminate.
Defined.

(** X3. An error from accept ends loopAccept at once: would-block is
    answered with nil, any other error is returned as it is; in both cases
    nothing but the accept call happened. *)
Theorem loopAccept_accept_error (E : Env) (fd : Z) (s : State) :
  let ln := server.ln (loop.svr (lp s)) in
  let '(nfd, sa, err) := unix_Accept E (trace s) fd in
  fd = listener.fd ln → listener.pconn ln = false → err ≠ None →
  loopAccept E fd s =
    (if is_EAGAIN err then None else err, record (ev_Accept fd nfd sa err) s).
Proof.
  intros ln.
  destruct (unix_Accept E (trace s) fd) as [[nfd sa] err] eqn:Hacc.
  intros Hfd Hp Herr. unfold loopAccept. run_M. fold ln.
  rewrite <- Hfd, Z.eqb_refl, Hp, Hacc. simpl.
  destruct err as [e|]; [|done]. simpl. destruct e; reflexivity.
Qed.

Lemma loopAccept_accept_error_witness :
  loopAccept (Cases.accept_fails EAGAIN) 3 Demo.init =
    (None, record (ev_Accept 3 (-1) NilSockaddr (Some EAGAIN)) Demo.init) ∧
  loopAccept (Cases.accept_fails (Errno 24)) 3 Demo.init =
    (Some (Errno 24), record (ev_Accept 3 (-1) NilSockaddr (Some (Errno 24))) Demo.init).
Proof.
  split.
  - refine (loopAccept_accept_error (Cases.accept_fails EAGAIN) 3 Demo.init
              eq_refl eq_refl _). discriminate.
  - refine (loopAccept_accept_error (Cases.accept_fails (Errno 24)) 3 Demo.init
              eq_refl eq_refl _). discriminate.
Defined.

(** ** loopUDPRead, beyond the peer address *)

Lemma rb_Write_New (p : list byte) (n : nat) :
  RingBuffer.bytes (RingBuffer.Write p (RingBuffer.New n)) = p.
Proof.
  destruct n as [|n].
  - destruct p as [|b p]; [reflexivity|].
    change (RingBuffer.Write (b :: p) (RingBuffer.New 0))
      with (RingBuffer.Write p (RingBuffer.push (RingBuffer.New 0) b)).
    assert (RingBuffer.wf (RingBuffer.push (RingBuffer.New 0) b)) as Hwf.
    { unfold RingBuffer.wf, RingBuffer.size. simpl. split_and!; [lia|lia|discriminate]. }
    destruct (rb_Write_spec p _ Hwf) as [_ ->]. reflexivity.
  - assert (RingBuffer.wf (RingBuffer.New (S n))) as Hwf.
    { unfold RingBuffer.wf, RingBuffer.size. simpl. rewrite length_replicate.
      split_and!; [lia|lia|done]. }
    destruct (rb_Write_spec p _ Hwf) as [_ ->]. reflexivity.
Qed.

Lemma loopUDPRead_skips (E : Env) (fd : Z) (s : State) :
  let '(n, sa, err, pkt') := unix_Recvfrom E (trace s) fd (loop.packet (lp s)) in
  err ≠ None ∨ n = 0 →
  loopUDPRead E fd s =
    (None, set_lp (loop.set_packet pkt') (record (ev_Recvfrom fd n sa err) s)).
Proof.
  unfold loopUDPRead. run_M.
  destruct (unix_Recvfrom E (trace s) fd (loop.packet (lp s))) as [[[n sa] err] pkt'].
  simpl. intros [Herr| ->].
  - destruct err; [reflexivity|done].
  - rewrite orb_true_r. reflexivity.
Qed.

(** X4. loopUDPRead ignores a failed or empty receive: on any error
    (would-block or not), and on a count of 0, it returns nil; no connection
    value is made and no handler is called, only the receive is on record
    and the packet buffer is as the receive left it. *)
Theorem loopUDPRead_failed_receive (E : Env) (fd : Z) (s : State) :
  let '(n, sa, err, pkt') := unix_Recvfrom E (trace s) fd (loop.packet (lp s)) in
  let '(r, s') := loopUDPRead E fd s in
  err ≠ None ∨ n = 0 →
  r = None ∧
  heap s' = heap s ∧ loop.connections (lp s') = loop.connections (lp s) ∧
  loop.packet (lp s') = pkt' ∧
  trace s' = trace s ++ [ev_Recvfrom fd n sa err].
Proof.
  pose proof (loopUDPRead_skips E fd s) as H. revert H.
  destruct (unix_Recvfrom E (trace s) fd (loop.packet (lp s))) as [[[n sa] err] pkt'].
  intros H. destruct (loopUDPRead E fd s) as [r s'].
  intros Hno. specialize (H Hno). injection H as -> ->. done.
Qed.

Lemma loopUDPRead_failed_receive_witness :
  let '(r, s') := loopUDPRead Cases.recvfrom_fails 3 Demo.udp_init in
  r = None ∧
  heap s' = heap Demo.udp_init ∧
  loop.connections (lp s') = loop.connections (lp Demo.udp_init) ∧
  loop.packet (lp s') = replicate 8 x00 ∧
  trace s' = trace Demo.udp_init ++ [ev_Recvfrom 3 (-1) NilSockaddr (Some (Errno 9))].
Proof.
  refine (loopUDPRead_failed_receive Cases.recvfrom_fails 3 Demo.udp_init _).
  left. discriminate.
Defined.

(** the state in which loopUDPRead calls React *)
Lemma loopUDPRead_run (E : Env) (fd : Z) (s : State) :
  let '(n, sa, err, pkt') := unix_Recvfrom E (trace s) fd (loop.packet (lp s)) in
  let c := fresh (dom (heap s)) in
  let v := conn.mk 0 NilSockaddr
             (RingBuffer.Write (take (Z.to_nat n) pkt')
                (RingBuffer.New (connRingBufferSize E)))
             (RingBuffer.New 0) false 0 false Action.None
             (listener.lnaddr (server.ln (loop.svr (lp s))))
             (SockaddrToUDPAddr E (Inet6 (udp_sa6 sa))) in
  let s2 := mkState (loop.set_packet pkt' (lp s)) (<[c := v]> (heap s))
                    (trace s ++ [ev_Recvfrom fd n sa err]) in
  let '(out, a, ib) := React E s2 c in
  err = None → n ≠ 0 →
  ∃ evs,
    loopUDPRead E fd s =
      (closing a,
       mkState (loop.set_packet pkt' (lp s))
               (<[c := conn.set_inBuf (λ _, ib) v]> (heap s))
               (trace s2 ++ ev_React c out a :: evs)) ∧
    match out with
    | [] => evs = []
    | _ => ∃ serr, evs = [ev_PreWrite; ev_Sendto fd out sa serr; ev_sniffError serr]
    end.
Proof.
  destruct (unix_Recvfrom E (trace s) fd (loop.packet (lp s)))
    as [[[n sa] err] pkt'] eqn:Hrc.
  cbv zeta. set (c := fresh (dom (heap s))).
  match goal with |- context [React E ?x c] =>
    destruct (React E x c) as [[out a] ib] eqn:Hre end.
  intros -> Hn.
  assert (∀ (v : conn.t) f, (alter f c (<[c := v]> (heap s)) : gmap loc conn.t)
                            = <[c := f v]> (heap s)) as Halt.
  { intros v f. apply map_eq. intros i. destruct (decide (i = c)) as [->|Hne].
    - rewrite lookup_alter_eq, !lookup_insert_eq. reflexivity.
    - rewrite lookup_alter_ne, !lookup_insert_ne by done. reflexivity. }
  unfold loopUDPRead. run_M. rewrite Hrc. simpl.
  destruct (Z.eqb_spec n 0) as [|_]; [done|].
  unfold alloc. simpl. fold c.
  unfold set_heap, set_lp, record. simpl. rewrite !Halt. unfold conn.set_inBuf at 1. simpl. rewrite Hre. simpl.
  rewrite ?Halt. simpl.
  destruct out as [|b out]; simpl.
  - exists []. split; [|done]. destruct a; rewrite <- ?app_assoc; reflexivity.
  - eexists. split; [|eexists; reflexivity].
    destruct a; unfold record; simpl; rewrite <- ?app_assoc; reflexivity.
Qed.

(** X5. For a datagram received (no error, count not 0) loopUDPRead calls
    React once, on a new connection value.  When React returns output,
    PreWrite is called and the output is sent with one Sendto, on the
    descriptor the datagram was read from, to the socket address it came
    from (as received, not its IPv6 form), the result being logged only;
    with no output nothing is sent.  The result is ErrClosing exactly when
    React answered Shutdown, nil otherwise: Close is not acted upon. *)
Theorem loopUDPRead_reply (E : Env) (fd : Z) (s : State) :
  let '(n, sa, err, pkt') := unix_Recvfrom E (trace s) fd (loop.packet (lp s)) in
  let c := fresh (dom (heap s)) in
  let '(r, s') := loopUDPRead E fd s in
  err = None → n ≠ 0 →
  ∃ out a evs,
    trace s' = trace s ++ ev_Recvfrom fd n sa None :: ev_React c out a :: evs ∧
    match out with
    | [] => evs = []
    | _ => ∃ serr, evs = [ev_PreWrite; ev_Sendto fd out sa serr; ev_sniffError serr]
    end ∧
    r = match a with Action.Shutdown => Some ErrClosing | _ => None end.
Proof.
  pose proof (loopUDPRead_run E fd s) as H. revert H.
  destruct (unix_Recvfrom E (trace s) fd (loop.packet (lp s))) as [[[n sa] err] pkt'].
  cbv zeta.
  match goal with |- context [React E ?x ?c] =>
    destruct (React E x c) as [[out a] ib] end.
  intros H. destruct (loopUDPRead E fd s) as [r s'].
  intros -> Hn. destruct (H eq_refl Hn) as (evs & [= -> ->] & Hevs).
  exists out, a, evs. simpl. rewrite <- app_assoc. done.
Qed.

Lemma loopUDPRead_reply_witness :
  let '(r, s') := loopUDPRead Demo.env 3 Demo.udp_init in
  ∃ out a evs,
    trace s' = [] ++ ev_Recvfrom 3 2 Demo.client None :: ev_React 0%nat out a :: evs ∧
    match out with
    | [] => evs = []
    | _ => ∃ serr, evs = [ev_PreWrite; ev_Sendto 3 out Demo.client serr; ev_sniffError serr]
    end ∧
    r = match a with Action.Shutdown => Some ErrClosing | _ => None end.
Proof.
  refine (loopUDPRead_reply Demo.env 3 Demo.udp_init eq_refl _). discriminate.
Defined.

(** X6. loopUDPRead never registers, changes or closes a connection: the
    table is as before, every connection there was is unchanged, none of
    them receives a callback, and no Delete, Close or OnClosed call is
    made. *)
Theorem loopUDPRead_keeps_connections (E : Env) (fd : Z) (s : State) :
  let s' := (loopUDPRead E fd s).2 in
  loop.connections (lp s') = loop.connections (lp s) ∧
  (∀ c v, heap s !! c = Some v → heap s' !! c = Some v) ∧
  ∃ evs, trace s' = trace s ++ evs ∧
    (∀ c, is_Some (heap s !! c) → lifecycle c evs = []) ∧
    Forall (λ e, is_close_event e = false) evs.
Proof.
  pose proof (loopUDPRead_run E fd s) as H.
  pose proof (loopUDPRead_skips E fd s) as H0. revert H H0.
  destruct (unix_Recvfrom E (trace s) fd (loop.packet (lp s))) as [[[n sa] err] pkt'].
  cbv zeta.
  match goal with |- context [React E ?x ?c] =>
    destruct (React E x c) as [[out a] ib] end.
  intros H H0.
  destruct (decide (err = None ∧ n ≠ 0)) as [[-> Hn]|Hno].
  - destruct (H eq_refl Hn) as (evs & Hrun & Hevs). rewrite Hrun. simpl.
    split_and!; [done| |].
    + intros c v Hc. rewrite lookup_insert_ne; [done|].
      intros <-. rewrite fresh_loc in Hc. discriminate.
    + eexists. split; [rewrite <- app_assoc; reflexivity|].
      assert (Forall (λ e, is_close_event e = false ∧ ∀ c, lifecycle_call c e = None) evs)
        as Hq.
      { destruct out; [subst; constructor|]. destruct Hevs as [serr ->].
        repeat constructor. }
      split.
      * intros c [v Hc]. unfold lifecycle. simpl. rewrite decide_False.
        2:{ intros <-. rewrite fresh_loc in Hc. discriminate. }
        clear Hrun Hevs. induction Hq as [|e evs [_ He] _ IH]; [done|].
        simpl. rewrite He. exact IH.
      * repeat constructor. eapply Forall_impl; [exact Hq|]. by intros e [? _].
  - rewrite H0.
    2:{ destruct err; [left; done|]. right. destruct (decide (n = 0)); [done|].
        destruct Hno; done. }
    simpl. split_and!; [done|done|].
    exists [ev_Recvfrom fd n sa err]. split_and!; [done|done|repeat constructor].
Qed.

(** X7. The connection value React is given for a datagram is a new object
    whose input buffer holds exactly the bytes received (the first [n] bytes
    of the packet buffer), with the listener's address as local address, no
    descriptor (0), no output buffer and the opened flag down. *)
Theorem loopUDPRead_handler_sees_datagram (E : Env) (fd : Z) (s : State) :
  let '(n, sa, err, pkt') := unix_Recvfrom E (trace s) fd (loop.packet (lp s)) in
  let c := fresh (dom (heap s)) in
  err = None → n ≠ 0 →
  ∃ s2 v evs,
    trace s2 = trace s ++ [ev_Recvfrom fd n sa None] ∧
    trace (loopUDPRead E fd s).2 =
      trace s2 ++ ev_React c (React E s2 c).1.1 (React E s2 c).1.2 :: evs ∧
    heap s !! c = None ∧ heap s2 = <[c := v]> (heap s) ∧
    loop.packet (lp s2) = pkt' ∧
    RingBuffer.bytes (conn.inBuf v) = take (Z.to_nat n) pkt' ∧
    conn.localAddr v = listener.lnaddr (server.ln (loop.svr (lp s))) ∧
    conn.fd v = 0 ∧ RingBuffer.Length (conn.outBuf v) = 0 ∧ conn.opened v = false.
Proof.
  pose proof (loopUDPRead_run E fd s) as H. revert H.
  destruct (unix_Recvfrom E (trace s) fd (loop.packet (lp s))) as [[[n sa] err] pkt'].
  cbv zeta.
  match goal with |- context [React E ?x ?c] =>
    destruct (React E x c) as [[out a] ib] eqn:Hre end.
  intros H -> Hn. destruct (H eq_refl Hn) as (evs & Hrun & _).
  eexists _, _, evs. rewrite Hrun, Hre. simpl.
  split_and!; try reflexivity.
  - apply fresh_loc.
  - apply rb_Write_New.
Qed.

Lemma loopUDPRead_handler_sees_datagram_witness :
  ∃ s2 v evs,
    trace s2 = trace Demo.udp_init ++ [ev_Recvfrom 3 2 Demo.client None] ∧
    trace (loopUDPRead Demo.env 3 Demo.udp_init).2 =
      trace s2 ++ ev_React 0%nat (React Demo.env s2 0%nat).1.1
                                 (React Demo.env s2 0%nat).1.2 :: evs ∧
    heap Demo.udp_init !! 0%nat = None ∧ heap s2 = <[0%nat := v]> (heap Demo.udp_init) ∧
    loop.packet (lp s2) = Demo.hi ++ replicate 6 x00 ∧
    RingBuffer.bytes (conn.inBuf v) = Demo.hi ∧
    conn.localAddr v = NilAddr ∧
    conn.fd v = 0 ∧ RingBuffer.Length (conn.outBuf v) = 0 ∧ conn.opened v = false.
Proof.
  refine (loopUDPRead_handler_sees_datagram Demo.env 3 Demo.udp_init eq_refl _).
  discriminate.
Defined.

(** X8. For a datagram from an IPv6 source the peer address given to React
    is derived from the source's socket address unchanged (port, zone and
    the 16 address bytes); for a source that is neither IPv4 nor IPv6 it is
    derived from the zero IPv6 socket address. *)
Theorem loopUDPRead_peer_address_other (E : Env) (fd : Z) (s : State) :
  let '(n, sa, err, pkt') := unix_Recvfrom E (trace s) fd (loop.packet (lp s)) in
  let c := fresh (dom (heap s)) in
  let sa6 := match sa with Inet6 a => a | _ => SockaddrInet6.zero end in
  err = None → n ≠ 0 → (∀ sa4, sa ≠ Inet4 sa4) →
  ∃ s2 out a ib evs,
    React E s2 c = (out, a, ib) ∧
    conn.remoteAddr (deref c s2) = SockaddrToUDPAddr E (Inet6 sa6) ∧
    trace (loopUDPRead E fd s).2 =
      trace s ++ ev_Recvfrom fd n sa err :: ev_React c out a :: evs ∧
    conn.remoteAddr (deref c (loopUDPRead E fd s).2) = SockaddrToUDPAddr E (Inet6 sa6).
Proof.
  pose proof (loopUDPRead_run E fd s) as H. revert H.
  destruct (unix_Recvfrom E (trace s) fd (loop.packet (lp s))) as [[[n sa] err] pkt'].
  cbv zeta.
  match goal with |- context [React E ?x ?c] =>
    destruct (React E x c) as [[out a] ib] eqn:Hre end.
  intros H -> Hn Hsa. destruct (H eq_refl Hn) as (evs & Hrun & _).
  assert (udp_sa6 sa = match sa with Inet6 a => a | _ => SockaddrInet6.zero end) as Hsa6.
  { destruct sa as [sa4| | |]; try reflexivity. destruct (Hsa sa4). reflexivity. }
  rewrite Hsa6 in *.
  eexists _, out, a, ib, evs. split; [exact Hre|]. rewrite Hrun.
  unfold deref. simpl. rewrite !lookup_total_insert_eq. simpl.
  split_and!; try reflexivity. rewrite <- app_assoc. reflexivity.
Qed.

Lemma loopUDPRead_peer_address_other_witness :
  ∃ s2 out a ib evs,
    React Cases.recvfrom_v6 s2 0%nat = (out, a, ib) ∧
    conn.remoteAddr (deref 0%nat s2) = UDPAddr (replicate 15 x00 ++ [x01]) 4000 "" ∧
    trace (loopUDPRead Cases.recvfrom_v6 3 Demo.udp_init).2 =
      [] ++ ev_Recvfrom 3 2 (Inet6 Cases.client6) None :: ev_React 0%nat out a :: evs ∧
    conn.remoteAddr (deref 0%nat (loopUDPRead Cases.recvfrom_v6 3 Demo.udp_init).2) =
      UDPAddr (replicate 15 x00 ++ [x01]) 4000 "".
Proof.
  refine (loopUDPRead_peer_address_other Cases.recvfrom_v6 3 Demo.udp_init eq_refl _ _).
  - discriminate.
  - intros sa4. discriminate.
Defined.

(** ** loopOpened *)

Lemma loopOpened_unfold (E : Env) (c : loc) (s : State) :
  loopOpened E c s = handleAction E c (loopOpened_prepared E c s).
Proof.
  unfold loopOpened, loopOpened_prepared. run_M.
  match goal with |- context [OnOpened E ?x c] =>
    destruct (OnOpened E x c) as [[out a] ib] end.
  simpl.
  destruct (_ && _); simpl; destruct (0 <? length out)%nat; simpl;
    match goal with |- context [negb ?b] => destruct (negb b) end; reflexivity.
Qed.

Lemma alter_live (f : conn.t → conn.t) (c : loc) (h : gmap loc conn.t) (v : conn.t) :
  h !! c = Some v → alter f c h = <[c := f v]> h.
Proof.
  intros Hv. apply map_eq. intros i. destruct (decide (i = c)) as [->|Hne].
  - rewrite lookup_alter_eq, lookup_insert_eq, Hv. reflexivity.
  - rewrite lookup_alter_ne, lookup_insert_ne by done. reflexivity.
Qed.

Lemma alter_fresh (f : conn.t → conn.t) (c : loc) (h : gmap loc conn.t) (v : conn.t) :
  alter f c (<[c := v]> h) = <[c := f v]> h.
Proof.
  rewrite (alter_live f c _ v) by apply lookup_insert_eq. apply insert_insert_eq.
Qed.

Lemma keepalives_app evs1 evs2 : keepalives (evs1 ++ evs2) = keepalives evs1 ++ keepalives evs2.
Proof. apply omap_app. Qed.

Lemma loopOpened_prepared_run (E : Env) (c : loc) (s : State) (v : conn.t) :
  heap s !! c = Some v →
  let svr := loop.svr (lp s) in
  let ka := options.TCPKeepAlive (server.opts svr) in
  let v0 := conn.set_remoteAddr (SockaddrToTCPOrUnixAddr E (conn.sa v))
              (conn.set_localAddr (listener.lnaddr (server.ln svr))
                 (conn.set_opened true v)) in
  let s0 := set_heap <[c := v0]> s in
  let s4 := loopOpened_prepared E c s in
  ∃ out a ib evs ob,
    OnOpened E s0 c = (out, a, ib) ∧
    lp s4 = lp s ∧
    trace s4 = trace s ++ ev_OnOpened c out a :: evs ∧
    heap s4 = <[c := conn.set_outBuf (λ _, ob)
                        (conn.set_action a (conn.set_inBuf (λ _, ib) v0))]> (heap s) ∧
    (out = [] → ob = conn.outBuf v) ∧
    keepalives evs = (if (0 <? ka) && listener.tcp (server.ln svr)
                      then [(conn.fd v, ka `quot` Second)] else []) ∧
    existsb (is_AddWrite (conn.fd v)) evs = negb (RingBuffer.Length ob =? 0) ∧
    Forall (λ e, is_close_event e = false ∧ ∀ c', lifecycle_call c' e = None) evs.
Proof.
  intros Hv svr ka v0 s0 s4. unfold s4, loopOpened_prepared. fold svr. fold ka.
  assert (set_heap (alter (λ v, conn.set_remoteAddr
                                  (SockaddrToTCPOrUnixAddr E (conn.sa v)) v) c)
            (set_heap (alter (conn.set_localAddr (listener.lnaddr (server.ln svr))) c)
               (set_heap (alter (conn.set_opened true) c) s)) = s0) as ->.
  { unfold s0, set_heap. simpl. f_equal.
    rewrite (alter_live _ c (heap s) v Hv), !alter_fresh. reflexivity. }
  destruct (OnOpened E s0 c) as [[out a] ib].
  exists out, a, ib.
  set (v1 := conn.set_action a (conn.set_inBuf (λ _, ib) v0)).
  set (s1 := set_heap (alter (conn.set_action a) c)
               (record (ev_OnOpened c out a)
                  (set_heap (alter (conn.set_inBuf (λ _, ib)) c) s0))).
  assert (s1 = mkState (lp s) (<[c := v1]> (heap s)) (trace s ++ [ev_OnOpened c out a]))
    as Hs1.
  { unfold s1, s0, set_heap, record. simpl. f_equal.
    rewrite !alter_fresh. reflexivity. }
  assert (conn.fd (deref c s1) = conn.fd v) as Hfd.
  { rewrite Hs1. unfold deref. simpl. rewrite lookup_total_insert_eq. reflexivity. }
  rewrite Hfd. clearbody s1. subst s1.
  set (s2 := if (0 <? ka) && listener.tcp (server.ln svr) then _ else _).
  assert (∃ evs2, s2 = mkState (lp s) (<[c := v1]> (heap s))
                         (trace s ++ ev_OnOpened c out a :: evs2) ∧
            keepalives evs2 = (if (0 <? ka) && listener.tcp (server.ln svr)
                               then [(conn.fd v, ka `quot` Second)] else []) ∧
            existsb (is_AddWrite (conn.fd v)) evs2 = false ∧
            Forall (λ e, is_close_event e = false ∧ ∀ c', lifecycle_call c' e = None) evs2)
    as (evs2 & Hs2 & Hka2 & Haw2 & Hq2).
  { unfold s2. destruct ((0 <? ka) && listener.tcp (server.ln svr)).
    - eexists. unfold record. simpl. rewrite <- !app_assoc. simpl.
      split; [reflexivity|]. split_and!; [reflexivity|reflexivity|repeat constructor].
    - exists []. split_and!; [reflexivity|reflexivity|reflexivity|constructor]. }
  clearbody s2. subst s2.
  set (s3 := if (0 <? length out)%nat then _ else _).
  assert (∃ evs3 ob, s3 = mkState (lp s) (<[c := conn.set_outBuf (λ _, ob) v1]> (heap s))
                         (trace s ++ ev_OnOpened c out a :: evs2 ++ evs3) ∧
            (out = [] → ob = conn.outBuf v) ∧
            keepalives evs3 = [] ∧
            existsb (is_AddWrite (conn.fd v)) evs3 = false ∧
            Forall (λ e, is_close_event e = false ∧ ∀ c', lifecycle_call c' e = None) evs3)
    as (evs3 & ob & Hs3 & Hob & Hka3 & Haw3 & Hq3).
  { unfold s3. destruct out as [|b out]; simpl.
    - exists [], (conn.outBuf v). rewrite app_nil_r.
      split_and!; [|done|done|done|constructor].
      reflexivity.
    - eexists [_], _. unfold record, set_heap. simpl.
      rewrite alter_fresh, <- app_assoc. simpl.
      split; [reflexivity|]. split_and!; [done|done|done|repeat constructor]. }
  clearbody s3. subst s3.
  exists (evs2 ++ evs3 ++
          if negb (RingBuffer.Length ob =? 0)
          then [ev_AddWrite (conn.fd v)
                  (poller_AddWrite E (trace s ++ ev_OnOpened c out a :: evs2 ++ evs3)
                     (conn.fd v))]
          else []), ob.
  split; [reflexivity|].
  unfold deref. simpl. rewrite lookup_total_insert_eq. simpl.
  rewrite !keepalives_app, !existsb_app, Hka2, Hka3, Haw2, Haw3.
  destruct (negb (RingBuffer.Length ob =? 0)); simpl.
  - rewrite bool_decide_eq_true_2 by done. rewrite <- !app_assoc. simpl.
    split_and!; try done.
    + rewrite <- app_assoc. reflexivity.
    + rewrite app_nil_r. reflexivity.
    + rewrite !Forall_app. split_and!; [done|done|repeat constructor].
  - rewrite !app_nil_r. split_and!; try done. rewrite Forall_app. done.
Qed.

Lemma close_events_quiet (evs : list event) :
  Forall (λ e, is_close_event e = true) evs →
  keepalives evs = [] ∧ ∀ fd, existsb (is_AddWrite fd) evs = false.
Proof.
  induction 1 as [|e evs He _ [IH1 IH2]]; [done|].
  unfold keepalives in *. destruct e; try discriminate He; simpl; rewrite ?IH1, ?IH2; done.
Qed.

Lemma lifecycle_call_log c e : lifecycle_call c e = None → handler_call c e = None.
Proof. destruct e; simpl; try done; case_decide; done. Qed.

Lemma loopOpened_full_run (E : Env) (c : loc) (s : State) (v : conn.t) :
  heap s !! c = Some v →
  let svr := loop.svr (lp s) in
  let ka := options.TCPKeepAlive (server.opts svr) in
  let v0 := conn.set_remoteAddr (SockaddrToTCPOrUnixAddr E (conn.sa v))
              (conn.set_localAddr (listener.lnaddr (server.ln svr))
                 (conn.set_opened true v)) in
  let s0 := set_heap <[c := v0]> s in
  ∃ out a ib evs ob r f cl tbl,
    OnOpened E s0 c = (out, a, ib) ∧
    loopOpened E c s =
      (r, mkState (loop.set_connections (λ _, tbl) (lp s))
            (<[c := conn.set_inBuf f (conn.set_outBuf (λ _, ob)
                      (conn.set_action a (conn.set_inBuf (λ _, ib) v0)))]> (heap s))
            (trace s ++ ev_OnOpened c out a :: evs ++ cl)) ∧
    (out = [] → ob = conn.outBuf v) ∧
    keepalives evs = (if (0 <? ka) && listener.tcp (server.ln svr)
                      then [(conn.fd v, ka `quot` Second)] else []) ∧
    existsb (is_AddWrite (conn.fd v)) evs = negb (RingBuffer.Length ob =? 0) ∧
    Forall (λ e, is_close_event e = false ∧ ∀ c', lifecycle_call c' e = None) evs ∧
    Forall (λ e, is_close_event e = true) cl ∧
    (a ≠ Action.Close → cl = [] ∧ r = closing a) ∧
    (tbl = loop.connections (lp s) ∨ tbl = delete (conn.fd v) (loop.connections (lp s))) ∧
    (cl = [] → tbl = loop.connections (lp s)).
Proof.
  intros Hv svr ka v0 s0.
  destruct (loopOpened_prepared_run E c s v Hv)
    as (out & a & ib & evs & ob & Hon & Hlp & Htr & Hh & Hob & Hka & Haw & Hq).
  fold svr ka v0 s0 in Hon, Hka.
  rewrite loopOpened_unfold.
  set (s4 := loopOpened_prepared E c s) in *.
  assert (deref c s4 = conn.set_outBuf (λ _, ob)
                         (conn.set_action a (conn.set_inBuf (λ _, ib) v0))) as Hd4.
  { unfold deref. rewrite Hh, lookup_total_insert_eq. reflexivity. }
  destruct (decide (a = Action.Close)) as [Ha|Ha].
  - subst a.
    destruct (loopCloseConn_run E c None s4) as (a' & ib' & cl & tbl & Hrun & Hcl & _ & Htbl).
    exists out, Action.Close, ib, evs, ob, (closing a'), (λ _, ib'), cl, tbl.
    split; [exact Hon|]. split.
    { unfold handleAction. run_M. rewrite Hd4. simpl.
      rewrite Hrun, Hlp, Hh, Htr, alter_fresh, <- app_assoc. reflexivity. }
    rewrite Hd4, Hlp in Htbl. simpl in Htbl.
    split_and!; try done.
    intros ->. destruct Htbl as [->| ->]; [done|].
    pose proof (loopCloseConn_run E c None s4) as (? & ? & cl' & ? & Hrun' & _ & Hex & _).
    rewrite Hrun in Hrun'. injection Hrun' as _ _ _ Happ.
    apply app_inv_head in Happ. subst cl'. discriminate.
  - exists out, a, ib, evs, ob, (closing a), id, [], (loop.connections (lp s)).
    split; [exact Hon|]. split.
    { rewrite handleAction_quiet by (rewrite Hd4; exact Ha).
      rewrite Hd4. simpl. f_equal. destruct s4 as [l4 h4 t4]. simpl in *. subst.
      rewrite app_nil_r. f_equal. destruct (lp s); reflexivity. }
    split_and!; try done. by left.
Qed.

(** X9. loopOpened sets the connection up before the handler sees it:
    OnOpened is called on the connection with the opened flag up, the
    listener's address as local address and the conversion of its socket
    address as remote address.  It is the first call loopOpened makes, and
    no other OnOpened or React follows in it.  Afterwards the connection
    carries these values and the action OnOpened returned, its descriptor
    and socket address are as before, and no other connection was
    touched. *)
Theorem loopOpened_prepares_connection (E : Env) (c : loc) (s : State) (v : conn.t) :
  heap s !! c = Some v →
  let lnaddr := listener.lnaddr (server.ln (loop.svr (lp s))) in
  let v0 := conn.set_remoteAddr (SockaddrToTCPOrUnixAddr E (conn.sa v))
              (conn.set_localAddr lnaddr (conn.set_opened true v)) in
  let '(out, a, ib) := OnOpened E (set_heap <[c := v0]> s) c in
  let s' := (loopOpened E c s).2 in
  (∃ evs, trace s' = trace s ++ ev_OnOpened c out a :: evs ∧ ∀ c', log c' evs = []) ∧
  (∃ v', heap s' !! c = Some v' ∧
     conn.opened v' = true ∧ conn.localAddr v' = lnaddr ∧
     conn.remoteAddr v' = SockaddrToTCPOrUnixAddr E (conn.sa v) ∧
     conn.action v' = a ∧ conn.fd v' = conn.fd v ∧ conn.sa v' = conn.sa v) ∧
  (∀ c', c' ≠ c → heap s' !! c' = heap s !! c').
Proof.
  intros Hv lnaddr v0.
  destruct (loopOpened_full_run E c s v Hv)
    as (out & a & ib & evs & ob & r & f & cl & tbl & Hon & Hrun & _ & _ & _ & Hq & Hcl & _).
  fold lnaddr v0 in Hon. rewrite Hon, Hrun. simpl. split_and!.
  - exists (evs ++ cl). split; [reflexivity|]. intros c'.
    rewrite log_app. destruct (close_events_silent cl Hcl) as (_ & _ & _ & ->).
    rewrite app_nil_r. clear -Hq. induction Hq as [|e evs [_ He] _ IH]; [done|].
    unfold log in *. simpl. rewrite lifecycle_call_log by apply He. exact IH.
  - eexists. rewrite lookup_insert_eq. split; [reflexivity|]. done.
  - intros c' Hne. rewrite lookup_insert_ne by done. reflexivity.
Qed.

Lemma loopOpened_prepares_connection_witness :
  let s' := (loopOpened Cases.greeting 0%nat Cases.accepted).2 in
  (∃ evs, trace s' = [] ++ ev_OnOpened 0%nat Demo.hi Action.None :: evs ∧
          ∀ c', log c' evs = []) ∧
  (∃ v', heap s' !! 0%nat = Some v' ∧
     conn.opened v' = true ∧ conn.localAddr v' = TCPAddr (replicate 4 x00) 9000 "" ∧
     conn.remoteAddr v' = TCPAddr ["127"; "000"; "000"; "001"]%byte 4000 "" ∧
     conn.action v' = Action.None ∧ conn.fd v' = 5 ∧ conn.sa v' = Demo.client) ∧
  (∀ c', c' ≠ 0%nat → heap s' !! c' = heap Cases.accepted !! c').
Proof.
  exact (loopOpened_prepares_connection Cases.greeting 0%nat Cases.accepted
           Cases.fresh_conn eq_refl).
Defined.

(** X10. loopOpened sets keep-alive on the connection's descriptor exactly
    when the TCPKeepAlive option is positive and the listener is a TCP
    listener; it does so once, with the option's duration in whole seconds
    (the quotient by one second, rounded towards zero: a duration under one
    second gives the period 0). *)
Theorem loopOpened_keepalive (E : Env) (c : loc) (s : State) :
  is_Some (heap s !! c) →
  let svr := loop.svr (lp s) in
  let ka := options.TCPKeepAlive (server.opts svr) in
  ∃ evs, trace (loopOpened E c s).2 = trace s ++ evs ∧
    keepalives evs =
      if (0 <? ka) && listener.tcp (server.ln svr)
      then [(conn.fd (deref c s), ka `quot` Second)] else [].
Proof.
  intros [v Hv] svr ka.
  destruct (loopOpened_full_run E c s v Hv)
    as (out & a & ib & evs & ob & r & f & cl & tbl & _ & Hrun & _ & Hka & _ & _ & Hcl & _).
  rewrite Hrun. simpl. eexists. split; [reflexivity|].
  change (ev_OnOpened c out a :: evs ++ cl) with ([ev_OnOpened c out a] ++ evs ++ cl).
  rewrite !keepalives_app, Hka. destruct (close_events_quiet cl Hcl) as [-> _].
  fold svr ka. unfold deref. rewrite lookup_total_alt, Hv. simpl.
  rewrite app_nil_r. reflexivity.
Qed.

Lemma loopOpened_keepalive_witness :
  ∃ evs, trace (loopOpened Cases.greeting 0%nat Cases.accepted).2 = [] ++ evs ∧
    keepalives evs = [(5, 2)].
Proof.
  refine (loopOpened_keepalive Cases.greeting 0%nat Cases.accepted _).
  exists Cases.fresh_conn. reflexivity.
Defined.

(** X11. loopOpened asks the poller for write interest (AddWrite on the
    connection's descriptor) exactly when the outbound buffer is not empty
    at its end; and when OnOpened returned no output the outbound buffer is
    the one loopOpened found. *)
Theorem loopOpened_AddWrite_iff_pending (E : Env) (c : loc) (s : State) (v : conn.t) :
  heap s !! c = Some v →
  let s' := (loopOpened E c s).2 in
  ∃ out a evs,
    trace s' = trace s ++ ev_OnOpened c out a :: evs ∧
    (existsb (is_AddWrite (conn.fd v)) evs = true ↔
     RingBuffer.Length (conn.outBuf (deref c s')) ≠ 0) ∧
    (out = [] → conn.outBuf (deref c s') = conn.outBuf v).
Proof.
  intros Hv.
  destruct (loopOpened_full_run E c s v Hv)
    as (out & a & ib & evs & ob & r & f & cl & tbl & _ & Hrun & Hob & _ & Haw & _ & Hcl & _).
  rewrite Hrun. simpl. exists out, a, (evs ++ cl). split; [reflexivity|].
  unfold deref. simpl. rewrite lookup_total_insert_eq. simpl.
  rewrite existsb_app, Haw. destruct (close_events_quiet cl Hcl) as [_ ->].
  rewrite orb_false_r. split; [|exact Hob].
  destruct (Z.eqb_spec (RingBuffer.Length ob) 0); simpl; split; congruence.
Qed.

Lemma loopOpened_AddWrite_iff_pending_witness :
  let s' := (loopOpened Cases.greeting 0%nat Cases.accepted).2 in
  ∃ out a evs,
    trace s' = [] ++ ev_OnOpened 0%nat out a :: evs ∧
    (existsb (is_AddWrite 5) evs = true ↔
     RingBuffer.Length (conn.outBuf (deref 0%nat s')) ≠ 0) ∧
    (out = [] → conn.outBuf (deref 0%nat s') = RingBuffer.New 4).
Proof.
  exact (loopOpened_AddWrite_iff_pending Cases.greeting 0%nat Cases.accepted
           Cases.fresh_conn eq_refl).
Defined.

(** X12. loopOpened applies the action OnOpened returned, after everything
    else it does (none of the calls before is a Delete, Close or OnClosed):
    for Close the connection goes to loopCloseConn with a nil error; for
    Shutdown the result is ErrClosing and the connection is left as it is,
    neither closed nor told so; for any other action the result is nil. *)
Theorem loopOpened_applies_action (E : Env) (c : loc) (s : State) :
  is_Some (heap s !! c) →
  let s4 := loopOpened_prepared E c s in
  let a := conn.action (deref c s4) in
  (∃ out evs, trace s4 = trace s ++ ev_OnOpened c out a :: evs ∧
              Forall (λ e, is_close_event e = false) evs) ∧
  loopOpened E c s =
    match a with
    | Action.Close => loopCloseConn E c None s4
    | Action.Shutdown => (Some ErrClosing, s4)
    | _ => (None, s4)
    end.
Proof.
  intros [v Hv] s4 a.
  destruct (loopOpened_prepared_run E c s v Hv)
    as (out & a' & ib & evs & ob & _ & _ & Htr & Hh & _ & _ & _ & Hq).
  fold s4 in Htr, Hh.
  assert (a = a') as Ha.
  { unfold a, deref. rewrite Hh, lookup_total_insert_eq. reflexivity. }
  split.
  - exists out, evs. rewrite Ha. split; [exact Htr|].
    eapply Forall_impl; [exact Hq|]. by intros e [? _].
  - rewrite loopOpened_unfold. fold s4. unfold handleAction. run_M. fold a.
    destruct a; reflexivity.
Qed.

Lemma loopOpened_applies_action_witness :
  conn.action (deref 0%nat (loopOpened_prepared Cases.greeting 0%nat Cases.accepted)) =
    Action.None ∧
  let s4 := loopOpened_prepared Cases.greeting 0%nat Cases.accepted in
  let a := conn.action (deref 0%nat s4) in
  (∃ out evs, trace s4 = trace Cases.accepted ++ ev_OnOpened 0%nat out a :: evs ∧
              Forall (λ e, is_close_event e = false) evs) ∧
  loopOpened Cases.greeting 0%nat Cases.accepted =
    match a with
    | Action.Close => loopCloseConn Cases.greeting 0%nat None s4
    | Action.Shutdown => (Some ErrClosing, s4)
    | _ => (None, s4)
    end.
Proof.
  split; [vm_compute; reflexivity|].
  apply (loopOpened_applies_action Cases.greeting 0%nat Cases.accepted).
  exists Cases.fresh_conn. reflexivity.
Defined.

(** ** One event after another *)

(** X13. A connection that loopAccept registered is opened by the next
    readiness event of its descriptor (a descriptor other than 0): the
    dispatch runs loopOpened on the new connection, the OnOpened call is its
    first call, and the connection ends opened, with the listener's address
    as local address and the conversion of the accepted socket address as
    remote address. *)
Theorem accepted_connection_opens_next (E : Env) (fd : Z) (s : State) (job : Job) :
  let ln := server.ln (loop.svr (lp s)) in
  let '(nfd, sa, err) := unix_Accept E (trace s) fd in
  let t1 := trace s ++ [ev_Accept fd nfd sa None] in
  let t2 := t1 ++ [ev_SetNonblock nfd None] in
  let c := fresh (dom (heap s)) in
  fd = listener.fd ln → listener.pconn ln = false →
  err = None → unix_SetNonblock E t1 nfd true = None → poller_AddReadWrite E t2 nfd = None →
  nfd ≠ 0 →
  let s1 := (loopAccept E fd s).2 in
  let s2 := (dispatch E nfd job s1).2 in
  dispatch E nfd job s1 = loopOpened E c s1 ∧
  ∃ out a evs v',
    trace s2 = trace s1 ++ ev_OnOpened c out a :: evs ∧
    heap s2 !! c = Some v' ∧
    conn.opened v' = true ∧ conn.fd v' = nfd ∧
    conn.localAddr v' = listener.lnaddr ln ∧
    conn.remoteAddr v' = SockaddrToTCPOrUnixAddr E sa.
Proof.
  intros ln.
  pose proof (loopAccept_success E fd s) as Hacc. fold ln in Hacc. revert Hacc.
  destruct (unix_Accept E (trace s) fd) as [[nfd sa] err]. cbv zeta.
  intros Hacc Hfd Hp Herr Hnb Hadd Hnfd.
  rewrite (Hacc Hfd Hp Herr Hnb Hadd). simpl.
  set (c := fresh (dom (heap s))).
  set (v := conn.mk nfd sa _ _ true 0 false Action.None NilAddr NilAddr).
  set (s1 := mkState _ _ _).
  assert (dispatch E nfd job s1 = loopOpened E c s1) as Hd.
  { rewrite (dispatch_known E nfd job c s1 Hnfd) by (simpl; apply lookup_insert_eq).
    unfold deref. simpl. rewrite lookup_total_insert_eq. reflexivity. }
  split; [exact Hd|]. rewrite Hd.
  destruct (loopOpened_full_run E c s1 v (lookup_insert_eq _ _ _))
    as (out & a & ib & evs & ob & r & f & cl & tbl & _ & Hrun & _).
  rewrite Hrun. simpl. exists out, a, (evs ++ cl). eexists.
  split; [reflexivity|]. rewrite lookup_insert_eq. split; [reflexivity|]. done.
Qed.

Lemma accepted_connection_opens_next_witness :
  let s1 := (loopAccept Demo.env 3 Demo.init).2 in
  let s2 := (dispatch Demo.env 5 (tick_job Demo.env) s1).2 in
  dispatch Demo.env 5 (tick_job Demo.env) s1 = loopOpened Demo.env 0%nat s1 ∧
  ∃ out a evs v',
    trace s2 = trace s1 ++ ev_OnOpened 0%nat out a :: evs ∧
    heap s2 !! 0%nat = Some v' ∧
    conn.opened v' = true ∧ conn.fd v' = 5 ∧
    conn.localAddr v' = NilAddr ∧
    conn.remoteAddr v' = TCPAddr ["127"; "000"; "000"; "001"]%byte 4000 "".
Proof.
  refine (accepted_connection_opens_next Demo.env 3 Demo.init (tick_job Demo.env)
            eq_refl eq_refl eq_refl eq_refl eq_refl _).
  discriminate.
Defined.

(** X14. After loopCloseConn with a successful Delete the connection's
    descriptor is no key of the table: a later readiness event on it (a
    descriptor other than 0) is handed to loopAccept, which answers nil and
    leaves the state alone unless the descriptor is the listener's. *)
Theorem closed_descriptor_is_unknown (E : Env) (c : loc) (err : option error)
    (s : State) (job : Job) :
  let fd := conn.fd (deref c s) in
  poller_Delete E (trace s) fd = None → fd ≠ 0 →
  let s' := (loopCloseConn E c err s).2 in
  loop.connections (lp s') !! fd = None ∧
  dispatch E fd job s' = loopAccept E fd s' ∧
  (fd ≠ listener.fd (server.ln (loop.svr (lp s))) → dispatch E fd job s' = (None, s')).
Proof.
  intros fd Hdel Hfd s'.
  assert (loop.connections (lp s') = delete fd (loop.connections (lp s)) ∧
          loop.svr (lp s') = loop.svr (lp s)) as [Htbl Hsvr].
  { unfold s', loopCloseConn. run_M. fold fd. rewrite Hdel. simpl.
    match goal with |- context [OnClosed E ?x c err] =>
      destruct (OnClosed E x c err) as [a ib] end.
    destruct a; simpl; done. }
  assert (loop.connections (lp s') !! fd = None) as Hnone.
  { rewrite Htbl. apply lookup_delete_eq. }
  assert (dispatch E fd job s' = loopAccept E fd s') as Hd.
  { unfold dispatch. destruct (Z.eqb_spec fd 0); [done|]. run_M. rewrite Hnone. reflexivity. }
  split_and!; [exact Hnone|exact Hd|].
  intros Hln. rewrite Hd. unfold loopAccept. run_M. rewrite Hsvr.
  destruct (Z.eqb_spec fd (listener.fd (server.ln (loop.svr (lp s))))); done.
Qed.

Lemma closed_descriptor_is_unknown_witness :
  let s' := (loopCloseConn Demo.env 0%nat None Demo.sending).2 in
  loop.connections (lp s') !! 5 = None ∧
  dispatch Demo.env 5 (tick_job Demo.env) s' = loopAccept Demo.env 5 s' ∧
  (5 ≠ 3 → dispatch Demo.env 5 (tick_job Demo.env) s' = (None, s')).
Proof.
  refine (closed_descriptor_is_unknown Demo.env 0%nat None Demo.sending
            (tick_job Demo.env) eq_refl _).
  discriminate.
Defined.

(** X15. The job loopTicker injects, run by the dispatch: it calls Tick
    once and sends the delay to the ticker's channel, also when Tick answers
    Shutdown; it returns ErrClosing exactly for Shutdown and nil for every
    other action; the table, the connections and the packet buffer are not
    touched. *)
Theorem tick_publishes_delay (E : Env) (s : State) :
  let '(delay, a) := Tick E (trace s) in
  dispatch E 0 (tick_job E) s =
    (match a with Action.Shutdown => Some ErrClosing | _ => None end,
     record (ev_tch_send delay) (record (ev_Tick delay a) s)).
Proof.
  unfold dispatch, tick_job. simpl. run_M.
  destruct (Tick E (trace s)) as [delay a]. destruct a; reflexivity.
Qed.

Lemma close_events_no_input (evs : list event) :
  Forall (λ e, is_close_event e = true) evs → Forall (λ e, reads_input e = false) evs.
Proof.
  intros H. eapply Forall_impl; [exact H|]. intros e. destruct e; simpl; congruence.
Qed.

Lemma loopWrite_no_input (E : Env) (c : loc) (s : State) :
  ∃ evs, trace (loopWrite E c s).2 = trace s ++ ev_PreWrite :: evs ∧
    Forall (λ e, reads_input e = false) evs ∧
    loop.packet (lp (loopWrite E c s).2) = loop.packet (lp s).
Proof.
  assert (∀ err s1 evs1,
    trace s1 = trace s ++ ev_PreWrite :: evs1 → lp s1 = lp s →
    Forall (λ e, reads_input e = false) evs1 →
    ∃ evs, trace (loopCloseConn E c err s1).2 = trace s ++ ev_PreWrite :: evs ∧
      Forall (λ e, reads_input e = false) evs ∧
      loop.packet (lp (loopCloseConn E c err s1).2) = loop.packet (lp s)) as Hclose.
  { intros err s1 evs1 Ht Hl Hq.
    destruct (loopCloseConn_run E c err s1) as (a & ib & cl & tbl & -> & Hcl & _).
    simpl. exists (evs1 ++ cl). rewrite Ht, Hl, <- app_assoc. split_and!; [done| |done].
    apply Forall_app. split; [done|]. by apply close_events_no_input. }
  assert (∀ s1 evs1,
    trace s1 = trace s ++ ev_PreWrite :: evs1 → lp s1 = lp s →
    Forall (λ e, reads_input e = false) evs1 →
    ∃ evs, trace (loopWrite_end E c s1).2 = trace s ++ ev_PreWrite :: evs ∧
      Forall (λ e, reads_input e = false) evs ∧
      loop.packet (lp (loopWrite_end E c s1).2) = loop.packet (lp s)) as Hend.
  { intros s1 evs1 Ht Hl Hq.
    destruct (loopWrite_end_run E c s1) as (ev & -> & Hev).
    simpl. exists (evs1 ++ ev). rewrite Ht, Hl, <- app_assoc. split_and!; [done| |done].
    apply Forall_app. split; [done|]. subst ev.
    destruct (_ =? 0); repeat constructor. }
  rewrite loopWrite_unfold. cbv zeta.
  destruct (RingBuffer.PreReadAll _) as [top tail].
  destruct (unix_Write E _ _ top) as [n1 e1].
  destruct (negb (is_nil e1)).
  { destruct (is_EAGAIN e1).
    - simpl. eexists [_]. rewrite <- app_assoc. split_and!; [done|repeat constructor|done].
    - eapply Hclose; [simpl; rewrite <- app_assoc; reflexivity|done|repeat constructor]. }
  destruct (if Z.of_nat (length top) =? n1 then tail else None) as [tl|].
  - destruct (unix_Write E _ _ tl) as [n2 e2].
    destruct (negb (is_nil e2)).
    { destruct (is_EAGAIN e2).
      - simpl. eexists [_; _]. rewrite <- !app_assoc.
        split_and!; [done|repeat constructor|done].
      - eapply Hclose; [simpl; rewrite <- !app_assoc; reflexivity|done|repeat constructor]. }
    eapply Hend; [simpl; rewrite <- !app_assoc; reflexivity|done|repeat constructor].
  - eapply Hend; [simpl; rewrite <- !app_assoc; reflexivity|done|repeat constructor].
Qed.

(** X16. While an opened connection has output queued, a readiness event on
    its descriptor only writes: the dispatch starts with PreWrite and makes
    no Read, no Recvfrom and no React call, and the packet buffer is left as
    it was. *)
Theorem pending_output_defers_input (E : Env) (fd : Z) (job : Job) (c : loc) (s : State) :
  fd ≠ 0 → loop.connections (lp s) !! fd = Some c →
  conn.opened (deref c s) = true →
  0 < RingBuffer.Length (conn.outBuf (deref c s)) →
  let s' := (dispatch E fd job s).2 in
  ∃ evs, trace s' = trace s ++ ev_PreWrite :: evs ∧
    Forall (λ e, reads_input e = false) evs ∧
    loop.packet (lp s') = loop.packet (lp s).
Proof.
  intros Hfd Hc Hop Hlen. rewrite (dispatch_known E fd job c s Hfd Hc), Hop.
  destruct (Z.ltb_spec 0 (RingBuffer.Length (conn.outBuf (deref c s)))); [|lia].
  apply loopWrite_no_input.
Qed.

Lemma pending_output_defers_input_witness :
  let s' := (dispatch Demo.env 5 (tick_job Demo.env) Demo.sending).2 in
  ∃ evs, trace s' = trace Demo.sending ++ ev_PreWrite :: evs ∧
    Forall (λ e, reads_input e = false) evs ∧
    loop.packet (lp s') = loop.packet (lp Demo.sending).
Proof.
  refine (pending_output_defers_input Demo.env 5 (tick_job Demo.env) 0%nat Demo.sending
            _ eq_refl eq_refl eq_refl).
  discriminate.
Defined.

(** X17. After a read that brought data, the calls loopRead makes are:
    React; then c.write with the output React returned, once, exactly when
    that output is not empty; then, exactly when React answered Close, the
    calls of loopCloseConn.  So the output is handed on before the action is
    applied, and loopRead itself makes no write system call. *)
Theorem loopRead_output_before_action (E : Env) (c : loc) (s : State) :
  is_Some (heap s !! c) →
  let fd := conn.fd (deref c s) in
  let '(n, err, pkt') := unix_Read E (trace s) fd (loop.packet (lp s)) in
  err = None → n ≠ 0 →
  ∃ out a cl,
    trace (loopRead E c s).2 =
      trace s ++ ev_Read fd n None :: ev_React c out a ::
        (if (0 <? length out)%nat then [ev_conn_write c out] else []) ++ cl ∧
    Forall (λ e, is_close_event e = true) cl ∧
    (cl = [] ↔ a ≠ Action.Close).
Proof.
  intros Hlive fd. rewrite loopRead_unfold. cbv zeta. fold fd.
  destruct (unix_Read E (trace s) fd (loop.packet (lp s))) as [[n err] pkt'].
  intros -> Hn. destruct (Z.eqb_spec n 0) as [|_]; [done|]. simpl.
  set (s1 := set_lp (loop.set_packet pkt') (record (ev_Read fd n None) s)).
  destruct (loopRead_received_run E c n s1 Hlive)
    as (out & a & ib & _ & Hlp & Htr & Hl4 & Hact & _).
  exists out, a.
  destruct (decide (a = Action.Close)) as [Hcl|Hne].
  - rewrite Hcl in *. unfold handleAction. run_M. rewrite Hact.
    destruct (loopCloseConn_run E c None (loopRead_received E c n s1))
      as (a' & ib' & cl & tbl & -> & Hcle & Hex & _).
    exists cl. simpl. rewrite Htr. simpl. rewrite <- !app_assoc. simpl.
    split_and!; [done|done|]. split; [|done]. intros ->. discriminate.
  - exists []. rewrite handleAction_quiet by (rewrite Hact; exact Hne).
    simpl. rewrite Htr. simpl. rewrite <- !app_assoc, app_nil_r. done.
Qed.

Lemma loopRead_output_before_action_witness :
  ∃ out a cl,
    trace (loopRead Demo.env 0%nat Demo.sending).2 =
      [] ++ ev_Read 5 2 None :: ev_React 0%nat out a ::
        (if (0 <? length out)%nat then [ev_conn_write 0%nat out] else []) ++ cl ∧
    Forall (λ e, is_close_event e = true) cl ∧
    (cl = [] ↔ a ≠ Action.Close).
Proof.
  refine (loopRead_output_before_action Demo.env 0%nat Demo.sending
            Demo_sender_live eq_refl _).
  discriminate.
Defined.

(** ** Draining the outbound buffer *)

Lemma rb_top_nonempty rb :
  RingBuffer.wf rb → 0 < RingBuffer.Length rb → (RingBuffer.PreReadAll rb).1 ≠ [].
Proof.
  unfold RingBuffer.Length, RingBuffer.len, RingBuffer.PreReadAll, RingBuffer.wf,
    RingBuffer.size.
  destruct rb as [b r w e]; simpl. intros (Hr & Hw & He) Hlen.
  destruct e; simpl.
  { rewrite He, Nat.eqb_refl in Hlen by done. lia. }
  destruct (Nat.ltb_spec r w); simpl; intros Hnil; apply (f_equal length) in Hnil;
    rewrite ?length_take, ?length_drop in Hnil; simpl in Hnil; lia.
Qed.

Lemma rb_Length_Advance n rb :
  RingBuffer.wf rb → 0 ≤ n ≤ RingBuffer.Length rb →
  RingBuffer.Length (RingBuffer.Advance n rb) = RingBuffer.Length rb - n.
Proof.
  intros Hwf Hn.
  rewrite (rb_Length_bytes (RingBuffer.Advance n rb)) by (apply rb_Advance_wf; done).
  rewrite rb_Advance_bytes, length_drop by done.
  rewrite (rb_Length_bytes rb) in * by done. lia.
Qed.

Lemma loopWrite_progress_run (E : Env) (c : loc) (s : State) :
  write_progress E →
  RingBuffer.wf (conn.outBuf (deref c s)) →
  0 < RingBuffer.Length (conn.outBuf (deref c s)) →
  ∃ s' evs,
    loopWrite E c s = (None, s') ∧ trace s' = trace s ++ evs ∧
    existsb is_close_event evs = false ∧
    lp s' = lp s ∧
    RingBuffer.Length (conn.outBuf (deref c s')) <
      RingBuffer.Length (conn.outBuf (deref c s)).
Proof.
  intros Hpr Hwf Hlen. pose proof (wf_live c s Hwf) as Hlive.
  set (rb := conn.outBuf (deref c s)) in *. set (fd := conn.fd (deref c s)).
  rewrite loopWrite_unfold. fold fd. fold rb.
  pose proof (rb_top_nonempty rb Hwf Hlen) as Htop.
  destruct (RingBuffer.PreReadAll rb) as [top tail] eqn:Hpre. simpl in Htop.
  assert (RingBuffer.Length rb = Z.of_nat (length top + length (default [] tail))) as Hb.
  { rewrite rb_Length_bytes by done. unfold RingBuffer.bytes. rewrite Hpre, length_app.
    reflexivity. }
  cbv zeta.
  destruct (Hpr (trace (record ev_PreWrite s)) fd top Htop) as (n1 & -> & Hn1).
  cbn [is_nil negb].
  set (s1 := record (ev_Write fd top n1 None) (record ev_PreWrite s)).
  assert (is_Some (heap s1 !! c)) as Hl1 by exact Hlive.
  set (s2 := set_heap (alter (conn.set_outBuf (RingBuffer.Advance n1)) c) s1).
  assert (deref c s2 = conn.set_outBuf (RingBuffer.Advance n1) (deref c s)) as Hd2.
  { unfold s2. rewrite deref_live_alter by done. reflexivity. }
  assert (RingBuffer.Length (RingBuffer.Advance n1 rb) = RingBuffer.Length rb - n1) as HL1.
  { apply rb_Length_Advance; [done|lia]. }
  assert (∀ s3 evs3, trace s3 = trace s ++ evs3 → lp s3 = lp s →
            existsb is_close_event evs3 = false →
            RingBuffer.Length (conn.outBuf (deref c s3)) < RingBuffer.Length rb →
            ∃ s' evs, loopWrite_end E c s3 = (None, s') ∧ trace s' = trace s ++ evs ∧
              existsb is_close_event evs = false ∧ lp s' = lp s ∧
              RingBuffer.Length (conn.outBuf (deref c s')) < RingBuffer.Length rb) as Hend.
  { intros s3 evs3 Ht Hl Hq HL.
    destruct (loopWrite_end_run E c s3) as (ev & -> & Hev).
    eexists _, (evs3 ++ ev). split; [reflexivity|]. simpl.
    rewrite Ht, <- app_assoc, existsb_app, Hq. split_and!; [done| |done|exact HL].
    subst ev. destruct (_ =? 0); reflexivity. }
  destruct (if Z.of_nat (length top) =? n1 then tail else None) as [tl|] eqn:Htl.
  - destruct (Z.eqb_spec (Z.of_nat (length top)) n1) as [Hfull|]; [|discriminate].
    subst tail. pose proof (rb_tail_nonempty rb top tl Hwf Hpre) as Htlne.
    destruct (Hpr (trace s2) fd tl Htlne) as (n2 & -> & Hn2).
    cbn [is_nil negb].
    set (s3 := record (ev_Write fd tl n2 None) s2).
    eapply (Hend _ [ev_PreWrite; ev_Write fd top n1 None; ev_Write fd tl n2 None]).
    + simpl. rewrite <- !app_assoc. reflexivity.
    + reflexivity.
    + reflexivity.
    + rewrite deref_live_alter by (apply live_alter; exact Hl1).
      unfold s3. rewrite deref_record, Hd2. simpl. fold rb.
      rewrite rb_Length_Advance; [lia|by apply rb_Advance_wf|].
      rewrite HL1. simpl in Hb. lia.
  - eapply (Hend _ [ev_PreWrite; ev_Write fd top n1 None]).
    + simpl. rewrite <- !app_assoc. reflexivity.
    + reflexivity.
    + reflexivity.
    + rewrite Hd2. simpl. fold rb. lia.
Qed.

Lemma Demo_write_progress : write_progress Demo.env.
Proof.
  intros h fd p Hp. eexists. split; [reflexivity|].
  destruct p; [done|]. simpl length. lia.
Defined.

(** X18. When the socket takes at least one byte of every non-empty write
    without error (writes obeying the system call contract, the buffer
    well-formed), write-readiness events drain the outbound buffer: after
    at most as many calls of loopWrite as bytes were queued the buffer is
    empty, the socket has taken exactly the queued bytes in order, nothing
    was closed, the table is as before, and (if any byte was queued) ModRead
    was requested. *)
Theorem loopWrite_drains (E : Env) (c : loc) (s : State) :
  write_contract E → write_progress E →
  RingBuffer.wf (conn.outBuf (deref c s)) →
  let fd := conn.fd (deref c s) in
  let rb := conn.outBuf (deref c s) in
  ∃ k s' evs,
    Z.of_nat k ≤ RingBuffer.Length rb ∧
    loopWrite_retries E c k s = (tt, s') ∧ trace s' = trace s ++ evs ∧
    delivered fd evs = RingBuffer.bytes rb ∧
    RingBuffer.Length (conn.outBuf (deref c s')) = 0 ∧
    existsb is_close_event evs = false ∧
    loop.connections (lp s') = loop.connections (lp s) ∧
    (0 < RingBuffer.Length rb → existsb (is_ModRead fd) evs = true).
Proof.
  intros Hwc Hpr Hwf fd rb.
  assert (∃ m, RingBuffer.Length rb ≤ Z.of_nat m) as [m Hm].
  { exists (Z.to_nat (RingBuffer.Length rb)). lia. }
  subst fd rb. revert s Hwf Hm. induction m as [|m IH]; intros s Hwf Hm.
  - assert (RingBuffer.Length (conn.outBuf (deref c s)) = 0) as Hz.
    { unfold RingBuffer.Length in *. lia. }
    exists 0%nat, s, []. rewrite app_nil_r. simpl.
    split_and!; try done; try lia.
    rewrite rb_Length_bytes in Hz by done.
    destruct (RingBuffer.bytes (conn.outBuf (deref c s))); [done|simpl in Hz; lia].
  - destruct (Z_lt_le_dec 0 (RingBuffer.Length (conn.outBuf (deref c s)))) as [Hpos|Hz].
    2:{ apply IH; [done|lia]. }
    destruct (loopWrite_progress_run E c s Hpr Hwf Hpos)
      as (s1 & evs1 & Hrun & Htr1 & Hcl1 & Hlp1 & Hlt).
    destruct (loopWrite_run E c s Hwc Hwf)
      as (r & s1' & evs1' & Hrun' & Htr1' & Hfd1 & _ & Hwf1 & Hb1 & _ & Hend).
    rewrite Hrun in Hrun'. injection Hrun' as <- <-.
    rewrite Htr1 in Htr1'. apply app_inv_head in Htr1'. subst evs1'.
    destruct (Hend Hcl1) as [_ Hmod]. specialize (Hmod (or_introl Hpos)).
    destruct (IH s1 Hwf1 ltac:(lia))
      as (k & s' & evs2 & Hk & Hrun2 & Htr2 & Hdel2 & Hz2 & Hcl2 & Htb2 & Hmod2).
    exists (S k), s', (evs1 ++ evs2). simpl. unfold mbind, M_bind. rewrite Hrun, Hrun2.
    rewrite Hfd1 in Hdel2, Hmod2.
    split_and!.
    + lia.
    + reflexivity.
    + rewrite Htr2, Htr1, app_assoc. reflexivity.
    + rewrite delivered_app, Hdel2. exact Hb1.
    + exact Hz2.
    + rewrite existsb_app, Hcl1, Hcl2. reflexivity.
    + rewrite Htb2, Hlp1. reflexivity.
    + intros _. rewrite existsb_app.
      destruct (Z_lt_le_dec 0 (RingBuffer.Length (conn.outBuf (deref c s1)))) as [Hp1|Hz1].
      * rewrite (Hmod2 Hp1). apply orb_true_r.
      * assert (RingBuffer.Length (conn.outBuf (deref c s1)) = 0) as H0.
        { unfold RingBuffer.Length in *. lia. }
        apply Hmod in H0. rewrite H0. reflexivity.
Qed.

Lemma loopWrite_drains_witness :
  ∃ k s' evs,
    Z.of_nat k ≤ 6 ∧
    loopWrite_retries Demo.env 0%nat k Demo.sending = (tt, s') ∧
    trace s' = trace Demo.sending ++ evs ∧
    delivered 5 evs = ["a"; "b"; "c"; "d"; "e"; "f"]%byte ∧
    RingBuffer.Length (conn.outBuf (deref 0%nat s')) = 0 ∧
    existsb is_close_event evs = false ∧
    loop.connections (lp s') = loop.connections (lp Demo.sending) ∧
    (0 < 6 → existsb (is_ModRead 5) evs = true).
Proof.
  exact (loopWrite_drains Demo.env 0%nat Demo.sending Demo_write_contract
           Demo_write_progress Demo_wrapped_wf).
Defined.

(** ** Runs of the loop *)

Lemma moves_refl c s : moves c false false [] s s.
Proof.
  split.
  - done.
  - destruct (heap s !! c); constructor. done.
  - exists []. rewrite app_nil_r. done.
  - done.
Qed.

Lemma moves_fd c o cl cbs s s' :
  moves c o cl cbs s s' → conn.fd (deref c s') = conn.fd (deref c s).
Proof.
  intros [_ H _ _]. unfold deref. rewrite !lookup_total_alt.
  destruct H as [? ? (? & _)|]; done.
Qed.

Lemma moves_trans c o1 o2 cl1 cl2 cbs1 cbs2 s1 s2 s3 :
  moves c o1 cl1 cbs1 s1 s2 → moves c o2 cl2 cbs2 s2 s3 →
  moves c (o1 || o2) (cl1 || cl2) (cbs1 ++ cbs2) s1 s3.
Proof.
  intros H1 H2. pose proof (moves_fd _ _ _ _ _ _ H1) as Hfd.
  destruct H1 as [Ho1 Hs1 (evs1 & Ht1 & Hq1 & Hc1) Htb1].
  destruct H2 as [Ho2 Hs2 (evs2 & Ht2 & Hq2 & Hc2) Htb2].
  split.
  - intros c' Hne. rewrite Ho2, Ho1; done.
  - destruct Hs1 as [v1 v2 (F1 & A1 & L1 & O1)|];
      inversion Hs2 as [? v3 (F2 & A2 & L2 & O2)|]; subst; constructor.
    split_and!; [congruence|congruence|congruence|].
    rewrite O2, O1. destruct o1, o2; reflexivity.
  - exists (evs1 ++ evs2). split_and!.
    + rewrite Ht2, Ht1, app_assoc. reflexivity.
    + intros c' Hne. rewrite lifecycle_app, Hq1, Hq2; done.
    + rewrite lifecycle_app, Hc1, Hc2. reflexivity.
  - rewrite Htb2, Htb1, Hfd. destruct cl1, cl2; simpl; try reflexivity.
    apply delete_delete_eq.
Qed.

Lemma moves_eq c o o' cl cl' cbs cbs' s s' :
  moves c o cl cbs s s' → o = o' → cl = cl' → cbs = cbs' → moves c o' cl' cbs' s s'.
Proof. intros H <- <- <-. exact H. Qed.

Lemma moves_record c e s :
  (∀ c', c' ≠ c → lifecycle_call c' e = None) →
  moves c false false (lifecycle c [e]) s (record e s).
Proof.
  intros He. split.
  - done.
  - simpl. destruct (heap s !! c); constructor. done.
  - exists [e]. split_and!; [done| |done].
    intros c' Hne. unfold lifecycle. simpl. rewrite He; done.
  - done.
Qed.

Lemma moves_alter c f s :
  (∀ v, conn.fd (f v) = conn.fd v ∧ conn.sa (f v) = conn.sa v ∧
        conn.loop (f v) = conn.loop v ∧ conn.opened (f v) = conn.opened v) →
  moves c false false [] s (set_heap (alter f c) s).
Proof.
  intros Hf. split.
  - intros c' Hne. simpl. apply lookup_alter_ne. done.
  - simpl. rewrite lookup_alter_eq. destruct (heap s !! c) as [v|]; constructor. apply Hf.
  - exists []. simpl. rewrite app_nil_r. done.
  - done.
Qed.

Lemma moves_open c s : moves c true false [] s (set_heap (alter (conn.set_opened true) c) s).
Proof.
  split.
  - intros c' Hne. simpl. apply lookup_alter_ne. done.
  - simpl. rewrite lookup_alter_eq. destruct (heap s !! c) as [v|]; constructor. done.
  - exists []. simpl. rewrite app_nil_r. done.
  - done.
Qed.

Lemma moves_packet c p s : moves c false false [] s (set_lp (loop.set_packet p) s).
Proof.
  split.
  - done.
  - simpl. destruct (heap s !! c); constructor. done.
  - exists []. simpl. rewrite app_nil_r. done.
  - done.
Qed.

Lemma moves_delete c fd s :
  fd = conn.fd (deref c s) →
  moves c false true [] s (set_lp (loop.set_connections (delete fd)) s).
Proof.
  intros ->. split.
  - done.
  - simpl. destruct (heap s !! c); constructor. done.
  - exists []. simpl. rewrite app_nil_r. done.
  - done.
Qed.

Ltac moves_steps :=
  repeat first
    [ apply moves_refl
    | eapply moves_trans; [|apply moves_record; intros ? ?; simpl;
                            first [reflexivity | apply decide_False; congruence]]
    | eapply moves_trans; [|apply moves_alter; intros ?; split_and!; reflexivity]
    | eapply moves_trans; [|apply moves_open]
    | eapply moves_trans; [|apply moves_packet]
    | eapply moves_trans; [|apply moves_delete; reflexivity] ].

Ltac moves_by := eapply moves_eq; [moves_steps|..].

Lemma loopCloseConn_moves E c err s :
  ∃ cl, moves c false cl [cb_Closed] s (loopCloseConn E c err s).2 ∧
        (always_deletes E → cl = true).
Proof.
  unfold loopCloseConn. run_M.
  destruct (poller_Delete E (trace s) (conn.fd (deref c s))) as [e|] eqn:Hd; simpl;
    match goal with |- context [OnClosed E ?x c err] =>
      destruct (OnClosed E x c err) as [a ib] end.
  - exists false. split.
    + destruct a; simpl; (moves_by; [reflexivity|reflexivity|]);
        unfold lifecycle; simpl; rewrite decide_True by done; reflexivity.
    + intros Hdel. rewrite Hdel in Hd. discriminate.
  - exists true. split; [|done].
    destruct a; simpl; (moves_by; [reflexivity|reflexivity|]);
      unfold lifecycle; simpl; rewrite decide_True by done; reflexivity.
Qed.

Lemma serves_quiet E c o pre s s' : moves c o false pre s s' → serves E c o pre s s'.
Proof. intros H. exists false, false. rewrite app_nil_r. done. Qed.

Lemma serves_trans E c o1 o2 pre1 pre2 s1 s2 s3 :
  moves c o1 false pre1 s1 s2 → serves E c o2 pre2 s2 s3 →
  serves E c (o1 || o2) (pre1 ++ pre2) s1 s3.
Proof.
  intros H1 (cl & cb & H2 & Hd). exists cl, cb. split; [|exact Hd].
  rewrite <- app_assoc. apply (moves_trans _ _ _ false _ _ _ _ _ _ H1 H2).
Qed.

Lemma serves_eq E c o o' pre pre' s s' :
  serves E c o pre s s' → o = o' → pre = pre' → serves E c o' pre' s s'.
Proof. intros H <- <-. exact H. Qed.

Lemma loopCloseConn_serves E c err s : serves E c false [] s (loopCloseConn E c err s).2.
Proof.
  destruct (loopCloseConn_moves E c err s) as (cl & H & Hd). exists cl, true. done.
Qed.

Lemma handleAction_serves E c s : serves E c false [] s (handleAction E c s).2.
Proof.
  unfold handleAction. run_M.
  destruct (conn.action (deref c s)); simpl;
    try (apply serves_quiet, moves_refl).
  apply loopCloseConn_serves.
Qed.

Ltac serves_after tac :=
  eapply serves_eq;
    [eapply serves_trans; [|tac]; moves_by; reflexivity|reflexivity..].

Lemma loopWrite_end_moves E c s : moves c false false [] s (loopWrite_end E c s).2.
Proof.
  unfold loopWrite_end. run_M. destruct (_ =? 0); simpl; moves_by; reflexivity.
Qed.

Lemma loopWrite_serves E c s : serves E c false [] s (loopWrite E c s).2.
Proof.
  rewrite loopWrite_unfold. cbv zeta.
  destruct (RingBuffer.PreReadAll _) as [top tail].
  destruct (unix_Write E _ _ top) as [n1 e1].
  destruct (negb (is_nil e1)).
  { destruct (is_EAGAIN e1); simpl.
    - apply serves_quiet. moves_by; reflexivity.
    - serves_after ltac:(apply loopCloseConn_serves). }
  destruct (if Z.of_nat (length top) =? n1 then tail else None) as [tl|].
  - destruct (unix_Write E _ _ tl) as [n2 e2].
    destruct (negb (is_nil e2)).
    { destruct (is_EAGAIN e2); simpl.
      - apply serves_quiet. moves_by; reflexivity.
      - serves_after ltac:(apply loopCloseConn_serves). }
    apply serves_quiet.
    eapply moves_eq; [eapply moves_trans; [|apply loopWrite_end_moves]; moves_steps
                     |reflexivity..].
  - apply serves_quiet.
    eapply moves_eq; [eapply moves_trans; [|apply loopWrite_end_moves]; moves_steps
                     |reflexivity..].
Qed.

Lemma loopRead_received_moves E c n s :
  moves c false false [cb_React] s (loopRead_received E c n s).
Proof.
  unfold loopRead_received.
  match goal with |- context [React E ?x c] => destruct (React E x c) as [[out a] ib] end.
  destruct (0 <? length out)%nat; [|destruct (negb _)];
    (moves_by; [reflexivity|reflexivity|]);
    unfold lifecycle; simpl; rewrite decide_True by done; reflexivity.
Qed.

Lemma loopRead_serves E c s :
  ∃ k, (k ≤ 1)%nat ∧ serves E c false (replicate k cb_React) s (loopRead E c s).2.
Proof.
  rewrite loopRead_unfold. cbv zeta.
  destruct (unix_Read E _ _ _) as [[n err] pkt'].
  destruct ((n =? 0) || negb (is_nil err)).
  - exists 0%nat. split; [lia|]. destruct (is_EAGAIN err); simpl.
    + apply serves_quiet. moves_by; reflexivity.
    + serves_after ltac:(apply loopCloseConn_serves).
  - exists 1%nat. split; [lia|].
    eapply serves_eq;
      [eapply serves_trans; [|apply handleAction_serves];
       eapply moves_eq; [eapply moves_trans; [|apply loopRead_received_moves]; moves_steps
                        |reflexivity..]
      |reflexivity..].
Qed.

Lemma loopOpened_prepared_moves E c s :
  moves c true false [cb_Opened] s (loopOpened_prepared E c s).
Proof.
  unfold loopOpened_prepared.
  match goal with |- context [OnOpened E ?x c] =>
    destruct (OnOpened E x c) as [[out a] ib] end.
  destruct (_ && _); destruct (0 <? length out)%nat;
    match goal with |- context [negb ?b] => destruct (negb b) end;
    (moves_by; [reflexivity|reflexivity|]);
    unfold lifecycle; simpl; rewrite decide_True by done; reflexivity.
Qed.

Lemma loopOpened_serves E c s : serves E c true [cb_Opened] s (loopOpened E c s).2.
Proof.
  rewrite loopOpened_unfold.
  eapply serves_eq;
    [eapply serves_trans; [|apply handleAction_serves]; apply loopOpened_prepared_moves
    |reflexivity..].
Qed.

(** *** The table stays keyed by descriptor *)

Lemma moves_table_sub c o cl cbs s s' :
  moves c o cl cbs s s' →
  ∀ fd c', loop.connections (lp s') !! fd = Some c' →
           loop.connections (lp s) !! fd = Some c'.
Proof.
  intros [_ _ _ Ht] fd c'. rewrite Ht. destruct cl; [|done].
  rewrite lookup_delete. case_decide; done.
Qed.

Lemma table_keyed_moves c o cl cbs s s' :
  table_keyed s → moves c o cl cbs s s' → table_keyed s'.
Proof.
  intros HT Hm fd c' Hfd. apply (moves_table_sub _ _ _ _ _ _ Hm) in Hfd.
  destruct (HT fd c' Hfd) as (v & Hv & Hvfd & Hvl).
  destruct Hm as [Ho Hs _ _].
  destruct (decide (c' = c)) as [->|Hne].
  - rewrite Hv in Hs. inversion Hs as [? v' (F & _ & L & _)|]; subst.
    exists v'. split_and!; congruence.
  - exists v. rewrite Ho by done. done.
Qed.

Lemma table_keyed_alloc c0 v0 s s' :
  table_keyed s → heap s !! c0 = None →
  (∀ c', c' ≠ c0 → heap s' !! c' = heap s !! c') →
  heap s' !! c0 = Some v0 →
  (loop.connections (lp s') = loop.connections (lp s) ∨
   loop.connections (lp s') = <[conn.fd v0 := c0]> (loop.connections (lp s)) ∧
   conn.loop v0 = true) →
  table_keyed s'.
Proof.
  intros HT Hfresh Ho H0 Htb fd c' Hfd.
  assert (loop.connections (lp s) !! fd = Some c' ∨
          (c' = c0 ∧ fd = conn.fd v0 ∧ conn.loop v0 = true)) as [Hold|(-> & -> & Hl)].
  { destruct Htb as [Heq|[Heq Hl]]; rewrite Heq in Hfd; [by left|].
    rewrite lookup_insert in Hfd. case_decide; [|by left].
    injection Hfd as <-. right. done. }
  - destruct (HT fd c' Hold) as (v & Hv & Hvfd & Hvl).
    exists v. rewrite Ho; [done|]. intros ->. congruence.
  - exists v0. done.
Qed.

Lemma table_keyed_inj s fd1 fd2 c :
  table_keyed s →
  loop.connections (lp s) !! fd1 = Some c → loop.connections (lp s) !! fd2 = Some c →
  fd1 = fd2.
Proof.
  intros HT H1 H2.
  destruct (HT fd1 c H1) as (v1 & Hv1 & <- & _).
  destruct (HT fd2 c H2) as (v2 & Hv2 & <- & _). congruence.
Qed.

(** *** What holds whatever the poller answers *)

Lemma BInv_moves c o cl cbs s s' v :
  BInv s → heap s !! c = Some v → conn.loop v = true →
  moves c o cl cbs s s' → BInv s'.
Proof.
  intros [HT Hfresh Hudp] Hv Hloop Hm.
  pose proof (table_keyed_moves _ _ _ _ _ _ HT Hm) as HT'.
  destruct Hm as [Ho Hs (evs & Ht & Hq & Hc) Htb].
  split; [exact HT'| |].
  - intros c' Hnone. destruct (decide (c' = c)) as [->|Hne].
    + rewrite Hv, Hnone in Hs. inversion Hs.
    + rewrite Ho in Hnone by done.
      rewrite Ht, lifecycle_app, (Hfresh c' Hnone), (Hq c' Hne). reflexivity.
  - intros c' v' Hv' Hl'. destruct (decide (c' = c)) as [->|Hne].
    + rewrite Hv, Hv' in Hs. inversion Hs as [? ? (_ & _ & L & _)|]; subst. congruence.
    + rewrite Ho in Hv' by done.
      rewrite Ht, lifecycle_app, (Hq c' Hne), app_nil_r. by eapply Hudp.
Qed.

Lemma BInv_alloc c0 v0 s s' evs :
  BInv s → heap s !! c0 = None →
  (∀ c', c' ≠ c0 → heap s' !! c' = heap s !! c') →
  heap s' !! c0 = Some v0 →
  trace s' = trace s ++ evs →
  (∀ c', c' ≠ c0 → lifecycle c' evs = []) →
  (conn.loop v0 = false → lifecycle c0 evs = [cb_React]) →
  (loop.connections (lp s') = loop.connections (lp s) ∨
   loop.connections (lp s') = <[conn.fd v0 := c0]> (loop.connections (lp s)) ∧
   conn.loop v0 = true) →
  BInv s'.
Proof.
  intros [HT Hfresh Hudp] H0 Ho Hv0 Ht Hq Hnew Htb.
  split; [by eapply table_keyed_alloc| |].
  - intros c' Hnone. destruct (decide (c' = c0)) as [->|Hne]; [congruence|].
    rewrite Ho in Hnone by done.
    rewrite Ht, lifecycle_app, (Hfresh c' Hnone), (Hq c' Hne). reflexivity.
  - intros c' v' Hv' Hl'. rewrite Ht, lifecycle_app.
    destruct (decide (c' = c0)) as [->|Hne].
    + assert (v' = v0) as -> by congruence.
      rewrite (Hfresh c0 H0), (Hnew Hl'). reflexivity.
    + rewrite Ho in Hv' by done. rewrite (Hq c' Hne), app_nil_r. by eapply Hudp.
Qed.

Lemma BInv_quiet s s' evs :
  BInv s → heap s' = heap s → loop.connections (lp s') = loop.connections (lp s) →
  trace s' = trace s ++ evs → (∀ c, lifecycle c evs = []) →
  BInv s'.
Proof.
  intros [HT Hfresh Hudp] Hh Htb Ht Hq. split.
  - intros fd c. rewrite Htb, Hh. apply HT.
  - intros c. rewrite Hh, Ht, lifecycle_app, Hq, app_nil_r. apply Hfresh.
  - intros c v. rewrite Hh, Ht, lifecycle_app, Hq, app_nil_r. apply Hudp.
Qed.

Lemma table_keyed_quiet s s' :
  table_keyed s → heap s' = heap s → loop.connections (lp s') = loop.connections (lp s) →
  table_keyed s'.
Proof. intros HT Hh Htb fd c. rewrite Htb, Hh. apply HT. Qed.

Lemma tick_job_quiet E s :
  heap (tick_job E s).2 = heap s ∧
  loop.connections (lp (tick_job E s).2) = loop.connections (lp s) ∧
  ∃ evs, trace (tick_job E s).2 = trace s ++ evs ∧ ∀ c, lifecycle c evs = [].
Proof.
  unfold tick_job. run_M. destruct (Tick E (trace s)) as [delay a].
  destruct a; simpl; (split_and!; [done|done|]);
    (eexists [_; _]; rewrite <- app_assoc; split; [reflexivity|done]).
Qed.

(** what loopAccept and loopUDPRead do: nothing to the connections there
    are, at most one new connection, at most one new entry *)
Lemma loopAccept_alloc E fd s :
  let s' := (loopAccept E fd s).2 in
  let c0 := fresh (dom (heap s)) in
  ∃ evs, trace s' = trace s ++ evs ∧ (∀ c', c' ≠ c0 → lifecycle c' evs = []) ∧
    ((heap s' = heap s ∧ loop.connections (lp s') = loop.connections (lp s) ∧
      lifecycle c0 evs = []) ∨
     ∃ v0, (∀ c', c' ≠ c0 → heap s' !! c' = heap s !! c') ∧ heap s' !! c0 = Some v0 ∧
       (conn.loop v0 = true → conn.opened v0 = false ∧ lifecycle c0 evs = []) ∧
       (conn.loop v0 = false → lifecycle c0 evs = [cb_React]) ∧
       (loop.connections (lp s') = loop.connections (lp s) ∨
        loop.connections (lp s') = <[conn.fd v0 := c0]> (loop.connections (lp s)) ∧
        conn.loop v0 = true)).
Proof.
  intros s' c0. unfold s', loopAccept. run_M.
  destruct (fd =? _).
  2:{ exists []. rewrite app_nil_r. split_and!; [done|done|]. by left. }
  destruct (listener.pconn _).
  { pose proof (loopUDPRead_run E fd s) as H.
    pose proof (loopUDPRead_skips E fd s) as H0. revert H H0.
    destruct (unix_Recvfrom E (trace s) fd (loop.packet (lp s))) as [[[n sa] err] pkt'].
    cbv zeta. fold c0.
    match goal with |- context [React E ?x c0] =>
      destruct (React E x c0) as [[out a] ib] end.
    intros H H0.
    destruct (decide (err = None ∧ n ≠ 0)) as [[-> Hn]|Hno].
    - destruct (H eq_refl Hn) as (evs & Hrun & Hevs). rewrite Hrun. simpl.
      assert (∀ c, lifecycle c evs = []) as Hq.
      { intros c. destruct out; [subst; done|]. destruct Hevs as [serr ->]. done. }
      eexists. split; [rewrite <- app_assoc; reflexivity|]. split.
      + intros c' Hne. unfold lifecycle. simpl. rewrite decide_False by done. apply Hq.
      + right. eexists. split_and!.
        * intros c' Hne. apply lookup_insert_ne. done.
        * apply lookup_insert_eq.
        * discriminate.
        * intros _. unfold lifecycle. simpl. rewrite decide_True by done.
          f_equal. apply Hq.
        * by left.
    - rewrite H0.
      2:{ destruct err; [left; done|]. right. destruct (decide (n = 0)); [done|].
          destruct Hno; done. }
      simpl. exists [ev_Recvfrom fd n sa err]. split_and!; [done|done|]. by left. }
  destruct (unix_Accept E (trace s) fd) as [[nfd sa] err]. simpl.
  destruct (negb (is_nil err)).
  { exists [ev_Accept fd nfd sa err].
    destruct (is_EAGAIN err); simpl; (split_and!; [done|done|]); by left. }
  simpl. destruct (negb (is_nil (unix_SetNonblock E _ nfd true))); simpl.
  { eexists [_; _]. rewrite <- app_assoc. split_and!; [done|done|]. by left. }
  unfold alloc. simpl. fold c0. unfold deref. simpl. rewrite lookup_total_insert_eq. simpl.
  match goal with |- context [is_nil ?e] => destruct (is_nil e) end; simpl.
  - eexists [_; _; _]. rewrite <- !app_assoc. split_and!; [done|done|].
    right. eexists. split_and!.
    + intros c' Hne. apply lookup_insert_ne. done.
    + apply lookup_insert_eq.
    + done.
    + discriminate.
    + right. done.
  - eexists [_; _; _]. rewrite <- !app_assoc. split_and!; [done|done|].
    right. eexists. split_and!.
    + intros c' Hne. apply lookup_insert_ne. done.
    + apply lookup_insert_eq.
    + done.
    + discriminate.
    + by left.
Qed.

Lemma dispatch_table_keyed E fd s :
  table_keyed s → table_keyed (dispatch E fd (tick_job E) s).2.
Proof.
  intros HT. unfold dispatch.
  destruct (fd =? 0).
  { destruct (tick_job_quiet E s) as (Hh & Htb & _). by eapply table_keyed_quiet. }
  run_M.
  destruct (loop.connections (lp s) !! fd) as [c|] eqn:Hfd.
  - destruct (conn.opened (deref c s)); simpl.
    + destruct (0 <? _).
      * destruct (loopWrite_serves E c s) as (cl & cb & Hm & _).
        by eapply table_keyed_moves.
      * destruct (loopRead_serves E c s) as (k & _ & cl & cb & Hm & _).
        by eapply table_keyed_moves.
    + destruct (loopOpened_serves E c s) as (cl & cb & Hm & _).
      by eapply table_keyed_moves.
  - destruct (loopAccept_alloc E fd s)
      as (evs & _ & _ & [(Hh & Htb & _)|(v0 & Ho & H0 & _ & _ & Htb)]).
    + by eapply table_keyed_quiet.
    + eapply table_keyed_alloc; [exact HT|apply fresh_loc|exact Ho|exact H0|exact Htb].
Qed.

Lemma run_table_keyed E fds s : table_keyed s → table_keyed (run E fds s).2.
Proof.
  unfold run. revert s. induction fds as [|fd fds IH]; intros s HT; simpl; [done|].
  unfold mbind, M_bind.
  pose proof (dispatch_table_keyed E fd s HT) as H1.
  destruct (dispatch E fd (tick_job E) s) as [err s1]. simpl in H1.
  destruct (is_nil err); [apply IH; exact H1|exact H1].
Qed.

Lemma dispatch_BInv E fd s : BInv s → BInv (dispatch E fd (tick_job E) s).2.
Proof.
  intros HI. unfold dispatch.
  destruct (fd =? 0).
  { destruct (tick_job_quiet E s) as (Hh & Htb & evs & Ht & Hq). by eapply BInv_quiet. }
  run_M.
  destruct (loop.connections (lp s) !! fd) as [c|] eqn:Hfd.
  - destruct (BInv_table s HI fd c Hfd) as (v & Hv & Hvfd & Hvl).
    destruct (conn.opened (deref c s)); simpl.
    + destruct (0 <? _).
      * destruct (loopWrite_serves E c s) as (cl & cb & Hm & _).
        by eapply BInv_moves.
      * destruct (loopRead_serves E c s) as (k & _ & cl & cb & Hm & _).
        by eapply BInv_moves.
    + destruct (loopOpened_serves E c s) as (cl & cb & Hm & _).
      by eapply BInv_moves.
  - destruct (loopAccept_alloc E fd s)
      as (evs & Ht & Hq & [(Hh & Htb & Hq0)|(v0 & Ho & H0 & _ & Hnew & Htb)]).
    + eapply BInv_quiet; [exact HI|exact Hh|exact Htb|exact Ht|].
      intros c. destruct (decide (c = fresh (dom (heap s)))) as [->|Hne]; [done|].
      by apply Hq.
    + eapply BInv_alloc;
        [exact HI|apply fresh_loc|exact Ho|exact H0|exact Ht|exact Hq|exact Hnew|exact Htb].
Qed.

Lemma run_BInv E fds s : BInv s → BInv (run E fds s).2.
Proof.
  unfold run. revert s. induction fds as [|fd fds IH]; intros s HI; simpl; [done|].
  unfold mbind, M_bind.
  pose proof (dispatch_BInv E fd s HI) as H1.
  destruct (dispatch E fd (tick_job E) s) as [err s1]. simpl in H1.
  destruct (is_nil err); [apply IH; exact H1|exact H1].
Qed.

(** *** The callback protocol is kept *)

Lemma lifecycle_prefix_open k : follows_lifecycle (cb_Opened :: replicate k cb_React).
Proof. exists k. apply (prefix_cons cb_Opened). apply prefix_app_r. done. Qed.

Lemma LInv_serve E c o pre s s' v :
  always_deletes E → LInv s →
  heap s !! c = Some v → loop.connections (lp s) !! conn.fd v = Some c →
  serves E c o pre s s' →
  o || conn.opened v = true →
  (∃ k, lifecycle c (trace s) ++ pre = cb_Opened :: replicate k cb_React) →
  LInv s'.
Proof.
  intros Hdel [HB Hlife] Hv Hreg (cl & cb & Hm & Hcl) Hopen [k Hpre].
  specialize (Hcl Hdel). subst cb.
  destruct (BInv_table s HB _ _ Hreg) as (v_ & Hv_ & _ & Hloop).
  assert (v_ = v) as -> by congruence. clear Hv_.
  split; [by eapply BInv_moves|].
  pose proof (moves_table_sub _ _ _ _ _ _ Hm) as Hsub.
  destruct Hm as [Ho Hs (evs & Ht & Hq & Hc) Htb].
  assert (conn.fd (deref c s) = conn.fd v) as Hfdv.
  { unfold deref. rewrite lookup_total_alt, Hv. reflexivity. }
  rewrite Hfdv in Htb.
  intros c' v' Hv' Hl'. destruct (decide (c' = c)) as [->|Hne].
  - rewrite Hv, Hv' in Hs. inversion Hs as [? ? (F & _ & L & O)|]; subst.
    rewrite Ht, lifecycle_app, Hc, app_assoc, Hpre, F, Htb, O, Hopen.
    destruct cl.
    + rewrite lookup_delete_eq. rewrite decide_False by done.
      exists k. done.
    + rewrite decide_True by done. exists k. apply app_nil_r.
  - rewrite Ho in Hv' by done.
    rewrite Ht, lifecycle_app, (Hq c' Hne), app_nil_r.
    specialize (Hlife c' v' Hv' Hl').
    destruct (decide (loop.connections (lp s) !! conn.fd v' = Some c')) as [Hin|Hout].
    + assert (conn.fd v' ≠ conn.fd v) as Hfd by (intros Heq; congruence).
      rewrite decide_True; [exact Hlife|].
      rewrite Htb. destruct cl; [|done]. rewrite lookup_delete_ne by done. done.
    + rewrite decide_False; [exact Hlife|]. intros Hin. apply Hsub in Hin. done.
Qed.

Lemma LInv_alloc c0 v0 s s' evs :
  LInv s → heap s !! c0 = None →
  (∀ c', c' ≠ c0 → heap s' !! c' = heap s !! c') →
  heap s' !! c0 = Some v0 →
  trace s' = trace s ++ evs →
  (∀ c', c' ≠ c0 → lifecycle c' evs = []) →
  (conn.loop v0 = true → conn.opened v0 = false ∧ lifecycle c0 evs = []) →
  (conn.loop v0 = false → lifecycle c0 evs = [cb_React]) →
  (loop.connections (lp s') = loop.connections (lp s) ∨
   loop.connections (lp s') = <[conn.fd v0 := c0]> (loop.connections (lp s)) ∧
   conn.loop v0 = true) →
  LInv s'.
Proof.
  intros [HB Hlife] H0 Ho Hv0 Ht Hq Hnew Hnew' Htb.
  split; [by eapply BInv_alloc|].
  intros c' v' Hv' Hl'. rewrite Ht, lifecycle_app.
  destruct (decide (c' = c0)) as [->|Hne].
  - assert (v' = v0) as -> by congruence.
    destruct (Hnew Hl') as [Hop ->]. rewrite (BInv_fresh s HB c0 H0), Hop. simpl.
    case_decide; [reflexivity|]. exists 0%nat. apply prefix_nil.
  - rewrite Ho in Hv' by done. rewrite (Hq c' Hne), app_nil_r.
    specialize (Hlife c' v' Hv' Hl').
    destruct (decide (loop.connections (lp s) !! conn.fd v' = Some c')) as [Hin|Hout].
    + case_decide; [exact Hlife|].
      destruct (conn.opened v').
      * destruct Hlife as [k ->]. apply lifecycle_prefix_open.
      * rewrite Hlife. exists 0%nat. apply prefix_nil.
    + rewrite decide_False; [exact Hlife|].
      intros Hin. destruct Htb as [Heq|[Heq _]]; rewrite Heq in Hin; [done|].
      rewrite lookup_insert in Hin. case_decide; [congruence|done].
Qed.

Lemma LInv_quiet s s' evs :
  LInv s → heap s' = heap s → loop.connections (lp s') = loop.connections (lp s) →
  trace s' = trace s ++ evs → (∀ c, lifecycle c evs = []) →
  LInv s'.
Proof.
  intros [HB Hlife] Hh Htb Ht Hq. split; [by eapply BInv_quiet|].
  intros c v. rewrite Hh, Htb, Ht, lifecycle_app, Hq, app_nil_r. apply Hlife.
Qed.

Lemma dispatch_LInv E fd s :
  always_deletes E → LInv s → LInv (dispatch E fd (tick_job E) s).2.
Proof.
  intros Hdel HI. unfold dispatch.
  destruct (fd =? 0).
  { destruct (tick_job_quiet E s) as (Hh & Htb & evs & Ht & Hq). by eapply LInv_quiet. }
  run_M.
  destruct (loop.connections (lp s) !! fd) as [c|] eqn:Hfd.
  - destruct (BInv_table s (LInv_base s HI) fd c Hfd) as (v & Hv & Hvfd & Hvl).
    assert (loop.connections (lp s) !! conn.fd v = Some c) as Hreg by congruence.
    pose proof (LInv_life s HI c v Hv Hvl) as Hlife.
    rewrite decide_True in Hlife by done.
    assert (conn.opened (deref c s) = conn.opened v) as Hop.
    { unfold deref. rewrite lookup_total_alt, Hv. reflexivity. }
    rewrite Hop. destruct (conn.opened v) eqn:Hopened; simpl.
    + destruct Hlife as [k Hlife]. destruct (0 <? _).
      * eapply (LInv_serve E c false []); [done|done|exact Hv|exact Hreg| | |].
        -- apply loopWrite_serves.
        -- rewrite Hopened. reflexivity.
        -- exists k. rewrite app_nil_r. exact Hlife.
      * destruct (loopRead_serves E c s) as (k' & _ & Hs).
        eapply (LInv_serve E c false); [done|done|exact Hv|exact Hreg|exact Hs| |].
        -- rewrite Hopened. reflexivity.
        -- exists (k + k')%nat. rewrite Hlife, replicate_add. reflexivity.
    + eapply (LInv_serve E c true [cb_Opened]); [done|done|exact Hv|exact Hreg| | |].
      * apply loopOpened_serves.
      * reflexivity.
      * exists 0%nat. rewrite Hlife. reflexivity.
  - destruct (loopAccept_alloc E fd s)
      as (evs & Ht & Hq & [(Hh & Htb & Hq0)|(v0 & Ho & H0 & Hnew & Hnew' & Htb)]).
    + eapply LInv_quiet; [exact HI|exact Hh|exact Htb|exact Ht|].
      intros c. destruct (decide (c = fresh (dom (heap s)))) as [->|Hne]; [done|].
      by apply Hq.
    + eapply LInv_alloc;
        [exact HI|apply fresh_loc|exact Ho|exact H0|exact Ht|exact Hq|exact Hnew
        |exact Hnew'|exact Htb].
Qed.

Lemma run_LInv E fds s : always_deletes E → LInv s → LInv (run E fds s).2.
Proof.
  intros Hdel. unfold run. revert s. induction fds as [|fd fds IH]; intros s HI; simpl; [done|].
  unfold mbind, M_bind.
  pose proof (dispatch_LInv E fd s Hdel HI) as H1.
  destruct (dispatch E fd (tick_job E) s) as [err s1]. simpl in H1.
  destruct (is_nil err); [apply IH; exact H1|exact H1].
Qed.

(** X19. The connection table stays keyed by descriptor: after any run of
    the loop from a state where this holds (the initial state is one),
    every entry is filed under the descriptor of the connection it points
    to, that connection is live and owned by this loop, and no connection
    is in the table under two descriptors. *)
Theorem table_stays_keyed_by_descriptor (E : Env) (fds : list Z) (s : State) :
  table_keyed s →
  let s' := (run E fds s).2 in
  (∀ fd c, loop.connections (lp s') !! fd = Some c →
     ∃ v, heap s' !! c = Some v ∧ conn.fd v = fd ∧ conn.loop v = true) ∧
  (∀ fd1 fd2 c, loop.connections (lp s') !! fd1 = Some c →
     loop.connections (lp s') !! fd2 = Some c → fd1 = fd2).
Proof.
  intros HT s'. pose proof (run_table_keyed E fds s HT) as HT'. fold s' in HT'.
  split; [exact HT'|]. intros fd1 fd2 c. by apply table_keyed_inj.
Qed.

Lemma Demo_init_keyed : table_keyed Demo.init.
Proof. intros fd c H. simpl in H. rewrite lookup_empty in H. discriminate. Defined.

Lemma table_stays_keyed_by_descriptor_witness :
  let s' := (run Demo.env [3; 5; 0; 5; 5] Demo.init).2 in
  (∀ fd c, loop.connections (lp s') !! fd = Some c →
     ∃ v, heap s' !! c = Some v ∧ conn.fd v = fd ∧ conn.loop v = true) ∧
  (∀ fd1 fd2 c, loop.connections (lp s') !! fd1 = Some c →
     loop.connections (lp s') !! fd2 = Some c → fd1 = fd2).
Proof.
  exact (table_stays_keyed_by_descriptor Demo.env [3; 5; 0; 5; 5] Demo.init
           Demo_init_keyed).
Defined.

Lemma Demo_init_BInv : BInv Demo.init.
Proof.
  split.
  - exact Demo_init_keyed.
  - reflexivity.
  - intros c v H. simpl in H. rewrite lookup_empty in H. discriminate.
Defined.

Lemma Demo_udp_init_BInv : BInv Demo.udp_init.
Proof.
  split.
  - intros fd c H. simpl in H. rewrite lookup_empty in H. discriminate.
  - reflexivity.
  - intros c v H. simpl in H. rewrite lookup_empty in H. discriminate.
Defined.

Lemma Demo_init_LInv : LInv Demo.init.
Proof.
  split.
  - exact Demo_init_BInv.
  - intros c v H. simpl in H. rewrite lookup_empty in H. discriminate.
Defined.

(** X20. When the poller never refuses a Delete, the callbacks a connection
    accepted by this loop receives follow the life cycle OnOpened, React
    (any number of times), OnClosed: after any run from a state where the
    callback protocol holds (the initial state is one) their sequence is a
    prefix of it, so OnClosed comes at most once and nothing comes after it;
    and a connection still in the table has not been told OnClosed. *)
Theorem callbacks_follow_lifecycle (E : Env) (fds : list Z) (s : State) :
  always_deletes E → LInv s →
  let s' := (run E fds s).2 in
  ∀ c v, heap s' !! c = Some v → conn.loop v = true →
    follows_lifecycle (lifecycle c (trace s')) ∧
    (loop.connections (lp s') !! conn.fd v = Some c →
     cb_Closed ∉ lifecycle c (trace s')).
Proof.
  intros Hdel HI s' c v Hv Hl.
  pose proof (run_LInv E fds s Hdel HI) as HI'. fold s' in HI'.
  pose proof (LInv_life s' HI' c v Hv Hl) as Hlife.
  destruct (decide (loop.connections (lp s') !! conn.fd v = Some c)) as [Hin|Hout].
  - destruct (conn.opened v).
    + destruct Hlife as [k ->]. split; [apply lifecycle_prefix_open|].
      intros _ Hel. apply elem_of_cons in Hel as [|Hel]; [done|].
      apply elem_of_replicate in Hel as [? _]. done.
    + rewrite Hlife. split; [exists 0%nat; apply prefix_nil|].
      intros _ Hel. by apply elem_of_nil in Hel.
  - split; [exact Hlife|done].
Qed.

Lemma closes_always_deletes : always_deletes Cases.closes.
Proof. intros h fd. reflexivity. Defined.

Lemma callbacks_follow_lifecycle_witness :
  lifecycle 0%nat (trace (run Cases.closes [3; 5; 5; 5] Demo.init).2) =
    [cb_Opened; cb_React; cb_Closed] ∧
  follows_lifecycle (lifecycle 0%nat (trace (run Cases.closes [3; 5; 5; 5] Demo.init).2)) ∧
  (loop.connections (lp (run Cases.closes [3; 5; 5; 5] Demo.init).2) !!
     conn.fd (deref 0%nat (run Cases.closes [3; 5; 5; 5] Demo.init).2) = Some 0%nat →
   cb_Closed ∉ lifecycle 0%nat (trace (run Cases.closes [3; 5; 5; 5] Demo.init).2)).
Proof.
  pose proof (callbacks_follow_lifecycle Cases.closes [3; 5; 5; 5] Demo.init
                closes_always_deletes Demo_init_LInv 0%nat
                (deref 0%nat (run Cases.closes [3; 5; 5; 5] Demo.init).2)) as H.
  cbv zeta in H.
  assert (heap (run Cases.closes [3; 5; 5; 5] Demo.init).2 !! 0%nat =
          Some (deref 0%nat (run Cases.closes [3; 5; 5; 5] Demo.init).2)) as Hv
    by (vm_compute; reflexivity).
  assert (conn.loop (deref 0%nat (run Cases.closes [3; 5; 5; 5] Demo.init).2) = true)
    as Hl by (vm_compute; reflexivity).
  split; [vm_compute; reflexivity|]. exact (H Hv Hl).
Defined.

(** X21. A connection value made for a datagram is used once: after any run
    of the loop (from a state where this holds, as the initial state) it
    has on record its one React call and no other callback, and it is not
    in the table. *)
Theorem datagram_connection_seen_once (E : Env) (fds : list Z) (s : State) :
  BInv s →
  let s' := (run E fds s).2 in
  ∀ c v, heap s' !! c = Some v → conn.loop v = false →
    lifecycle c (trace s') = [cb_React] ∧
    ∀ fd, loop.connections (lp s') !! fd ≠ Some c.
Proof.
  intros HI s' c v Hv Hl.
  pose proof (run_BInv E fds s HI) as HI'. fold s' in HI'.
  split; [by eapply (BInv_datagram s' HI')|].
  intros fd Hfd. destruct (BInv_table s' HI' fd c Hfd) as (v' & Hv' & _ & Hl').
  congruence.
Qed.

Lemma datagram_connection_seen_once_witness :
  lifecycle 1%nat (trace (run Demo.env [3; 0; 3; 3] Demo.udp_init).2) = [cb_React] ∧
  ∀ fd, loop.connections (lp (run Demo.env [3; 0; 3; 3] Demo.udp_init).2) !! fd
        ≠ Some 1%nat.
Proof.
  pose proof (datagram_connection_seen_once Demo.env [3; 0; 3; 3] Demo.udp_init
                Demo_udp_init_BInv 1%nat
                (deref 1%nat (run Demo.env [3; 0; 3; 3] Demo.udp_init).2)) as H.
  cbv zeta in H.
  assert (heap (run Demo.env [3; 0; 3; 3] Demo.udp_init).2 !! 1%nat =
          Some (deref 1%nat (run Demo.env [3; 0; 3; 3] Demo.udp_init).2)) as Hv
    by (vm_compute; reflexivity).
  assert (conn.loop (deref 1%nat (run Demo.env [3; 0; 3; 3] Demo.udp_init).2) = false)
    as Hl by (vm_compute; reflexivity).
  exact (H Hv Hl).
Defined.

(** *** Connections keep their identity *)

Lemma moves_persists c o cl cbs s s' c' v :
  moves c o cl cbs s s' → heap s !! c' = Some v →
  ∃ v', heap s' !! c' = Some v' ∧ conn.fd v' = conn.fd v ∧ conn.sa v' = conn.sa v ∧
        conn.loop v' = conn.loop v ∧ (conn.opened v = true → conn.opened v' = true).
Proof.
  intros [Ho Hs _ _] Hv. destruct (decide (c' = c)) as [->|Hne].
  - rewrite Hv in Hs. inversion Hs as [? v' (F & A & L & O)|]; subst.
    exists v'. split_and!; try done. intros Hop. rewrite O, Hop. apply orb_true_r.
  - exists v. rewrite Ho by done. done.
Qed.

Lemma dispatch_persists E fd s c v :
  heap s !! c = Some v →
  ∃ v', heap (dispatch E fd (tick_job E) s).2 !! c = Some v' ∧
        conn.fd v' = conn.fd v ∧ conn.sa v' = conn.sa v ∧
        conn.loop v' = conn.loop v ∧ (conn.opened v = true → conn.opened v' = true).
Proof.
  intros Hv. unfold dispatch.
  destruct (fd =? 0).
  { destruct (tick_job_quiet E s) as (Hh & _). rewrite Hh. eauto 10. }
  run_M.
  destruct (loop.connections (lp s) !! fd) as [c1|] eqn:Hfd.
  - destruct (conn.opened (deref c1 s)); simpl.
    + destruct (0 <? _).
      * destruct (loopWrite_serves E c1 s) as (cl & cb & Hm & _).
        by eapply moves_persists.
      * destruct (loopRead_serves E c1 s) as (k & _ & cl & cb & Hm & _).
        by eapply moves_persists.
    + destruct (loopOpened_serves E c1 s) as (cl & cb & Hm & _).
      by eapply moves_persists.
  - destruct (loopAccept_alloc E fd s)
      as (evs & _ & _ & [(Hh & _)|(v0 & Ho & H0 & _)]).
    + rewrite Hh. eauto 10.
    + exists v. rewrite Ho; [done|]. intros ->. rewrite fresh_loc in Hv. discriminate.
Qed.

(** X22. Over any run of the loop a connection that exists keeps existing,
    with the same descriptor, the same socket address and the same owner;
    and once opened it stays opened. *)
Theorem connections_keep_identity (E : Env) (fds : list Z) (s : State) :
  let s' := (run E fds s).2 in
  ∀ c v, heap s !! c = Some v →
    ∃ v', heap s' !! c = Some v' ∧
      conn.fd v' = conn.fd v ∧ conn.sa v' = conn.sa v ∧ conn.loop v' = conn.loop v ∧
      (conn.opened v = true → conn.opened v' = true).
Proof.
  unfold run. revert s. induction fds as [|fd fds IH]; intros s c v Hv; simpl.
  { eauto 10. }
  unfold mbind, M_bind.
  destruct (dispatch_persists E fd s c v Hv) as (v1 & Hv1 & F1 & A1 & L1 & O1).
  destruct (dispatch E fd (tick_job E) s) as [err s1]. simpl in Hv1.
  destruct (is_nil err).
  - destruct (IH s1 c v1 Hv1) as (v' & Hv' & F & A & L & O).
    exists v'. split_and!; [done|congruence|congruence|congruence|tauto].
  - exists v1. done.
Qed.

Lemma connections_keep_identity_witness :
  ∃ v', heap (run Demo.env [5; 5; 0] Demo.sending).2 !! 0%nat = Some v' ∧
    conn.fd v' = 5 ∧ conn.sa v' = Demo.client ∧ conn.loop v' = true ∧
    (true = true → conn.opened v' = true).
Proof.
  exact (connections_keep_identity Demo.env [5; 5; 0] Demo.sending 0%nat Demo.sender
           eq_refl).
Defined.

(** ** What stops the loop *)

Lemma answers_app evs1 evs2 : answers (evs1 ++ evs2) = answers evs1 ++ answers evs2.
Proof. apply omap_app. Qed.

Lemma answers_quiet evs :
  Forall (λ e, ∀ c', lifecycle_call c' e = None) evs → answers evs = [].
Proof.
  induction 1 as [|e evs He _ IH]; [done|].
  unfold answers in *. destruct e; simpl; try exact IH;
    specialize (He c); simpl in He; rewrite decide_True in He by done; discriminate.
Qed.

Lemma loopCloseConn_answer E c err s :
  ∃ a evs, (loopCloseConn E c err s).1 = closing a ∧
    trace (loopCloseConn E c err s).2 = trace s ++ evs ∧ answers evs = [a].
Proof.
  unfold loopCloseConn. run_M.
  destruct (is_nil _); simpl;
    match goal with |- context [OnClosed E ?x c err] =>
      destruct (OnClosed E x c err) as [a ib] end;
    exists a; destruct a; simpl; eexists; rewrite <- ?app_assoc; simpl;
    (split; [reflexivity|split; reflexivity]).
Qed.

Lemma handleAction_answer E c s :
  ∃ evs, trace (handleAction E c s).2 = trace s ++ evs ∧
    (handleAction E c s).1 =
      closing (List.last (answers evs) (conn.action (deref c s))).
Proof.
  unfold handleAction. run_M.
  destruct (conn.action (deref c s)) eqn:Ha; simpl;
    try (exists []; rewrite app_nil_r; done).
  destruct (loopCloseConn_answer E c None s) as (a & evs & Hr & Ht & Hans).
  exists evs. rewrite Hr, Hans. done.
Qed.

Lemma last_cons_default {A} (a d : A) (l : list A) : List.last (a :: l) d = List.last l a.
Proof.
  revert a d. induction l as [|b l IH]; intros a d; [reflexivity|].
  change (List.last (a :: b :: l) d) with (List.last (b :: l) d).
  rewrite (IH b d), (IH b a). reflexivity.
Qed.

Lemma loopWrite_answer E c s :
  ∃ evs, trace (loopWrite E c s).2 = trace s ++ evs ∧
    (loopWrite E c s).1 = closing (List.last (answers evs) Action.None).
Proof.
  assert (∀ err s1 evs1, trace s1 = trace s ++ evs1 → answers evs1 = [] →
    ∃ evs, trace (loopCloseConn E c err s1).2 = trace s ++ evs ∧
      (loopCloseConn E c err s1).1 = closing (List.last (answers evs) Action.None))
    as Hclose.
  { intros err s1 evs1 Ht Hq.
    destruct (loopCloseConn_answer E c err s1) as (a & evs & -> & -> & Hans).
    exists (evs1 ++ evs). rewrite Ht, app_assoc, answers_app, Hq, Hans. done. }
  assert (∀ s1 evs1, trace s1 = trace s ++ evs1 → answers evs1 = [] →
    ∃ evs, trace (loopWrite_end E c s1).2 = trace s ++ evs ∧
      (loopWrite_end E c s1).1 = closing (List.last (answers evs) Action.None))
    as Hend.
  { intros s1 evs1 Ht Hq.
    destruct (loopWrite_end_run E c s1) as (ev & -> & Hev).
    exists (evs1 ++ ev). simpl. rewrite Ht, app_assoc, answers_app, Hq.
    split; [done|]. subst ev. destruct (_ =? 0); reflexivity. }
  rewrite loopWrite_unfold. cbv zeta.
  destruct (RingBuffer.PreReadAll _) as [top tail].
  destruct (unix_Write E _ _ top) as [n1 e1].
  destruct (negb (is_nil e1)).
  { destruct (is_EAGAIN e1).
    - simpl. eexists [_; _]. rewrite <- app_assoc. done.
    - eapply (Hclose _ _ [_; _]); [simpl; rewrite <- app_assoc; reflexivity|done]. }
  destruct (if Z.of_nat (length top) =? n1 then tail else None) as [tl|].
  - destruct (unix_Write E _ _ tl) as [n2 e2].
    destruct (negb (is_nil e2)).
    { destruct (is_EAGAIN e2).
      - simpl. eexists [_; _; _]. rewrite <- !app_assoc. done.
      - eapply (Hclose _ _ [_; _; _]); [simpl; rewrite <- !app_assoc; reflexivity|done]. }
    eapply (Hend _ [_; _; _]); [simpl; rewrite <- !app_assoc; reflexivity|done].
  - eapply (Hend _ [_; _]); [simpl; rewrite <- !app_assoc; reflexivity|done].
Qed.

Lemma loopRead_answer E c s :
  is_Some (heap s !! c) →
  ∃ evs, trace (loopRead E c s).2 = trace s ++ evs ∧
    (loopRead E c s).1 = closing (List.last (answers evs) Action.None).
Proof.
  intros Hlive. rewrite loopRead_unfold. cbv zeta.
  destruct (unix_Read E _ _ _) as [[n err] pkt'].
  set (s1 := set_lp (loop.set_packet pkt') (record (ev_Read _ n err) s)).
  destruct ((n =? 0) || negb (is_nil err)).
  - destruct (is_EAGAIN err).
    + simpl. eexists [_]. done.
    + destruct (loopCloseConn_answer E c err s1) as (a & evs & -> & -> & Hans).
      eexists (_ :: evs). simpl. rewrite <- app_assoc. split; [reflexivity|].
      unfold answers in *. simpl. rewrite Hans. reflexivity.
  - destruct (loopRead_received_run E c n s1 Hlive)
      as (out & a & ib & _ & _ & Htr & _ & Hact & _).
    destruct (handleAction_answer E c (loopRead_received E c n s1)) as (evs & -> & ->).
    rewrite Htr, Hact. simpl. rewrite <- !app_assoc. simpl.
    eexists. split; [reflexivity|].
    change (ev_Read (conn.fd (deref c s)) n err :: ev_React c out a ::
              (if (0 <? length out)%nat then [ev_conn_write c out] else []) ++ evs)
      with ([ev_Read (conn.fd (deref c s)) n err; ev_React c out a] ++
              (if (0 <? length out)%nat then [ev_conn_write c out] else []) ++ evs).
    rewrite !answers_app.
    replace (answers (if (0 <? length out)%nat then [ev_conn_write c out] else []))
      with (@nil Action.t) by (destruct (0 <? length out)%nat; reflexivity).
    change (answers [ev_Read (conn.fd (deref c s)) n err; ev_React c out a] ++
              [] ++ answers evs) with (a :: answers evs).
    rewrite last_cons_default. reflexivity.
Qed.

Lemma loopOpened_answer E c s :
  is_Some (heap s !! c) →
  ∃ evs, trace (loopOpened E c s).2 = trace s ++ evs ∧
    (loopOpened E c s).1 = closing (List.last (answers evs) Action.None).
Proof.
  intros [v Hv]. rewrite loopOpened_unfold.
  destruct (loopOpened_prepared_run E c s v Hv)
    as (out & a & ib & evs & ob & _ & _ & Htr & Hh & _ & _ & _ & Hq).
  destruct (handleAction_answer E c (loopOpened_prepared E c s)) as (evh & -> & ->).
  assert (conn.action (deref c (loopOpened_prepared E c s)) = a) as ->.
  { unfold deref. rewrite Hh, lookup_total_insert_eq. reflexivity. }
  rewrite Htr. eexists. rewrite <- app_assoc. split; [reflexivity|].
  change ((ev_OnOpened c out a :: evs) ++ evh) with ([ev_OnOpened c out a] ++ evs ++ evh).
  rewrite !answers_app, (answers_quiet evs).
  2:{ eapply Forall_impl; [exact Hq|]. by intros e [_ ?]. }
  change (answers [ev_OnOpened c out a] ++ [] ++ answers evh) with (a :: answers evh).
  rewrite last_cons_default. reflexivity.
Qed.

(** X23. A readiness event on a connection stops the loop exactly on the
    handler's word: the dispatch on the descriptor of a live connection of
    the table returns ErrClosing when the last answer a handler gave in it (to OnOpened, React or
    OnClosed) was Shutdown, and nil otherwise, read and write errors
    included; no other error comes out of it. *)
Theorem dispatch_stops_on_last_answer (E : Env) (fd : Z) (job : Job) (c : loc) (s : State) :
  fd ≠ 0 → loop.connections (lp s) !! fd = Some c → is_Some (heap s !! c) →
  ∃ evs, trace (dispatch E fd job s).2 = trace s ++ evs ∧
    (dispatch E fd job s).1 =
      match List.last (answers evs) Action.None with
      | Action.Shutdown => Some ErrClosing
      | _ => None
      end.
Proof.
  intros Hfd Hc Hlive. rewrite (dispatch_known E fd job c s Hfd Hc).
  destruct (conn.opened (deref c s)).
  - destruct (0 <? _).
    + apply loopWrite_answer.
    + by apply loopRead_answer.
  - by apply loopOpened_answer.
Qed.

Lemma dispatch_stops_on_last_answer_witness :
  ∃ evs, trace (dispatch Demo.env 5 (tick_job Demo.env) Demo.sending).2 =
           trace Demo.sending ++ evs ∧
    (dispatch Demo.env 5 (tick_job Demo.env) Demo.sending).1 =
      match List.last (answers evs) Action.None with
      | Action.Shutdown => Some ErrClosing
      | _ => None
      end.
Proof.
  refine (dispatch_stops_on_last_answer Demo.env 5 (tick_job Demo.env) 0%nat
            Demo.sending _ eq_refl Demo_sender_live).
  discriminate.
Defined.

(** ** loopWrite, on a failed write *)

(* ---------- theorems ---------- *)

Lemma loopCloseConn_last E c err s :
  ∃ a cl, (loopCloseConn E c err s).1 = closing a ∧
    trace (loopCloseConn E c err s).2 = trace s ++ cl ++ [ev_OnClosed c err a] ∧
    writes (cl ++ [ev_OnClosed c err a]) = [].
Proof.
  unfold loopCloseConn. run_M.
  destruct (poller_Delete E (trace s) (conn.fd (deref c s))) as [e|] eqn:Hd; simpl;
    match goal with |- context [OnClosed E ?x c err] =>
      destruct (OnClosed E x c err) as [a ib] end; exists a.
  - exists [ev_Delete (conn.fd (deref c s)) (Some e)].
    destruct a; simpl; rewrite <- ?app_assoc; done.
  - eexists [ev_Delete (conn.fd (deref c s)) None; ev_Close (conn.fd (deref c s)) _].
    destruct a; simpl; rewrite <- ?app_assoc; simpl; done.
Qed.

(** X24. loopWrite closes the connection exactly when a write fails with an
    error other than would-block: its last call is then OnClosed with that
    very error, and the result is ErrClosing when OnClosed answers Shutdown
    and nil otherwise.  When its last write succeeded or would block, no
    Delete, Close or OnClosed call is made and the result is nil. *)
Theorem loopWrite_closes_on_write_error (E : Env) (c : loc) (s : State) :
  let '(r, s') := loopWrite E c s in
  ∃ evs, trace s' = trace s ++ evs ∧
    match List.last (writes evs) ([], 0, None) with
    | (_, _, Some e) =>
        if is_EAGAIN (Some e) then existsb is_close_event evs = false ∧ r = None
        else ∃ a, List.last evs ev_PreWrite = ev_OnClosed c (Some e) a ∧ r = closing a
    | (_, _, None) => existsb is_close_event evs = false ∧ r = None
    end.
Proof.
  assert (∀ e s1 evs1 w, trace s1 = trace s ++ evs1 →
            List.last (writes evs1) ([], 0, None) = (w.1, w.2, Some e) →
            is_EAGAIN (Some e) = false →
            let '(r, s') := loopCloseConn E c (Some e) s1 in
            ∃ evs, trace s' = trace s ++ evs ∧
              match List.last (writes evs) ([], 0, None) with
              | (_, _, Some e) =>
                  if is_EAGAIN (Some e) then existsb is_close_event evs = false ∧ r = None
                  else ∃ a, List.last evs ev_PreWrite = ev_OnClosed c (Some e) a ∧
                            r = closing a
              | (_, _, None) => existsb is_close_event evs = false ∧ r = None
              end) as Hclose.
  { intros e s1 evs1 w Ht Hw Hag.
    destruct (loopCloseConn_last E c (Some e) s1) as (a & cl & Hr & Htr & Hq).
    destruct (loopCloseConn E c (Some e) s1) as [r s']. simpl in Hr, Htr. subst r.
    exists (evs1 ++ cl ++ [ev_OnClosed c (Some e) a]).
    rewrite Htr, Ht, <- app_assoc. split; [reflexivity|].
    rewrite writes_app, Hq, app_nil_r, Hw, Hag.
    exists a. split; [|reflexivity].
    rewrite app_assoc. apply last_last. }
  assert (∀ s1 evs1, trace s1 = trace s ++ evs1 →
            existsb is_close_event evs1 = false →
            (∀ w, List.last (writes evs1) ([], 0, None) = w → w.2 = None) →
            let '(r, s') := loopWrite_end E c s1 in
            ∃ evs, trace s' = trace s ++ evs ∧
              match List.last (writes evs) ([], 0, None) with
              | (_, _, Some e) =>
                  if is_EAGAIN (Some e) then existsb is_close_event evs = false ∧ r = None
                  else ∃ a, List.last evs ev_PreWrite = ev_OnClosed c (Some e) a ∧
                            r = closing a
              | (_, _, None) => existsb is_close_event evs = false ∧ r = None
              end) as Hend.
  { intros s1 evs1 Ht Hq Hw.
    destruct (loopWrite_end_run E c s1) as (ev & -> & Hev).
    exists (evs1 ++ ev). simpl. rewrite Ht, <- app_assoc. split; [reflexivity|].
    assert (writes ev = [] ∧ existsb is_close_event ev = false) as [Hwe Hce].
    { subst ev. destruct (_ =? 0); done. }
    rewrite writes_app, Hwe, app_nil_r, existsb_app, Hq, Hce.
    specialize (Hw _ eq_refl).
    destruct (List.last (writes evs1) ([], 0, None)) as [[p n] e]. simpl in Hw. subst e.
    done. }
  rewrite loopWrite_unfold. cbv zeta.
  destruct (RingBuffer.PreReadAll _) as [top tail].
  destruct (unix_Write E _ _ top) as [n1 [e1|]]; cbn [is_nil negb].
  { destruct (is_EAGAIN (Some e1)) eqn:Hag.
    - apply is_EAGAIN_true in Hag as [= ->].
      eexists [_; _]. simpl. rewrite <- app_assoc. split; [reflexivity|]. done.
    - eapply (Hclose e1 _ [_; _] (top, n1));
        [simpl; rewrite <- app_assoc; reflexivity|reflexivity|exact Hag]. }
  destruct (if Z.of_nat (length top) =? n1 then tail else None) as [tl|].
  - destruct (unix_Write E _ _ tl) as [n2 [e2|]]; cbn [is_nil negb].
    { destruct (is_EAGAIN (Some e2)) eqn:Hag.
      - apply is_EAGAIN_true in Hag as [= ->].
        eexists [_; _; _]. simpl. rewrite <- !app_assoc. split; [reflexivity|]. done.
      - eapply (Hclose e2 _ [_; _; _] (tl, n2));
          [simpl; rewrite <- !app_assoc; reflexivity|reflexivity|exact Hag]. }
    eapply (Hend _ [_; _; _]); [simpl; rewrite <- !app_assoc; reflexivity|reflexivity|].
    intros w <-. reflexivity.
  - eapply (Hend _ [_; _]); [simpl; rewrite <- !app_assoc; reflexivity|reflexivity|].
    intros w <-. reflexivity.
Qed.
